(** * Theme generation: the substitutor engine of [substitutor.py]

    A shallow embedding of the forward engine (variable resolution,
    placeholder substitution, deletions and the three override passes) and of
    the parts of the reverse engine that decide the palette (deletion-key scan
    and colour factoring), followed by the properties established about them.

    Modelling conventions.
    - Python [str] is [string]; a character stands for the code point of the
      same number, and the character classes below are the ones Python uses on
      ASCII text.  Text outside ASCII is not in the model.
    - Python values are the type [value]: [None], [bool], [int] (as [Z]),
      [float] (a binary64, as a primitive float), [str], [list] and [dict].  A
      [dict] is an association list in insertion order, as Python iterates it;
      its keys are strings or, where [apply_direct_overrides] creates them,
      integers.  TOML date-times are left out.
    - A Python call either returns, raises, or does not finish; this is the
      type [outcome].  The loop and the recursion that follow references from
      value to value take a [fuel] argument and answer [Diverge] when it runs
      out: on cyclic bindings Python loops for ever or stops at its recursion
      limit.
    - Python objects are mutated in place; here every function returns the new
      value of the object it mutates.  What an object looks like at the moment
      a call raises is not recorded.
    - [re] is modelled pattern by pattern: the fixed patterns of the source
      are scanners written for them, the expressions that [wildcard_to_regex]
      writes are run by a matcher for their fragment, and [re.match] on the
      expressions of a binding file is a parameter, which the properties of
      the regular-expression overrides take to be that matcher.  [json.dumps]
      of a float and [str] of a list are parameters as well. *)

From Stdlib Require Import ZArith List String Ascii Bool Lia Floats.
From Stdlib Require Import DecimalString DecimalPos DecimalZ.
From Stdlib Require Import Sorted Permutation.
Import ListNotations.

Open Scope string_scope.
Open Scope list_scope.
Open Scope Z_scope.

(** ** Outcomes of a call *)

Inductive exn : Type :=
| TypeError | KeyError | IndexError | AttributeError | ValueError
| AssertionError | ReError.

Inductive outcome (A : Type) : Type :=
| Ret (a : A)
| Raise (e : exn)
| Diverge.

Arguments Ret {A} a.
Arguments Raise {A} e.
Arguments Diverge {A}.

Definition bind {A B : Type} (c : outcome A) (k : A -> outcome B) : outcome B :=
  match c with
  | Ret a => k a
  | Raise e => Raise e
  | Diverge => Diverge
  end.

Notation "x <- c ;; k" := (bind c (fun x => k))
  (at level 61, c at next level, right associativity).

Fixpoint map_outcome {A B : Type} (f : A -> outcome B) (l : list A) : outcome (list B) :=
  match l with
  | [] => Ret []
  | a :: l' => b <- f a ;; bs <- map_outcome f l' ;; Ret (b :: bs)
  end.

(** ** Text *)

Module Text.

Definition code (c : ascii) : nat := nat_of_ascii c.

Definition between (lo hi : nat) (c : ascii) : bool :=
  (Nat.leb lo (code c) && Nat.leb (code c) hi)%bool.

Definition is_digit (c : ascii) : bool := between 48 57 c.
Definition is_upper (c : ascii) : bool := between 65 90 c.
Definition is_lower (c : ascii) : bool := between 97 122 c.
Definition is_alnum (c : ascii) : bool := (is_digit c || is_upper c || is_lower c)%bool.

(** [\w] *)
Definition is_word (c : ascii) : bool := (is_alnum c || Ascii.eqb c "_")%bool.

(** [\s] and [str.isspace]: tab, line feed, vertical tab, form feed, carriage
    return, the four separators 28..31, and space. *)
Definition is_space (c : ascii) : bool :=
  (between 9 13 c || between 28 32 c)%bool.

(** [[a-zA-Z0-9._]] *)
Definition is_name_char (c : ascii) : bool :=
  (is_alnum c || Ascii.eqb c "." || Ascii.eqb c "_")%bool.

(** [[0-9a-fA-F]] *)
Definition is_hex_digit (c : ascii) : bool :=
  (is_digit c || between 65 70 c || between 97 102 c)%bool.

Definition is_empty (s : string) : bool :=
  match s with EmptyString => true | _ => false end.

Fixpoint drop (n : nat) (s : string) : string :=
  match n, s with
  | O, _ => s
  | S n', String _ s' => drop n' s'
  | S _, EmptyString => EmptyString
  end.

Definition take (n : nat) (s : string) : string := substring 0 n s.

(** Number of leading characters in the class [p]. *)
Fixpoint span (p : ascii -> bool) (s : string) : nat :=
  match s with
  | String c s' => if p c then S (span p s') else O
  | EmptyString => O
  end.

Definition startswith (pre s : string) : bool := prefix pre s.

Fixpoint endswith_char (c : ascii) (s : string) : bool :=
  match s with
  | EmptyString => false
  | String d EmptyString => Ascii.eqb c d
  | String _ s' => endswith_char c s'
  end.

(** [sub in s] on strings. *)
Fixpoint contains (sub s : string) : bool :=
  (prefix sub s ||
   match s with
   | EmptyString => false
   | String _ s' => contains sub s'
   end)%bool.

(** [s.split(sep)] for a one-character separator. *)
Fixpoint split_on (sep : ascii) (s : string) : list string :=
  match s with
  | EmptyString => [EmptyString]
  | String c s' =>
      if Ascii.eqb c sep then EmptyString :: split_on sep s'
      else match split_on sep s' with
           | h :: t => String c h :: t
           | [] => [String c EmptyString]
           end
  end.

(** [s.replace(old, new)] for a non-empty [old]: leftmost occurrences, not
    overlapping.  [skip] counts the characters of an occurrence still to be
    passed over. *)
Fixpoint replace_from (old new : string) (skip : nat) (s : string) : string :=
  match s with
  | EmptyString => EmptyString
  | String c s' =>
      match skip with
      | S k => replace_from old new k s'
      | O =>
          if prefix old s
          then new ++ replace_from old new (String.length old - 1) s'
          else String c (replace_from old new 0 s')
      end
  end.

Definition replace (old new s : string) : string := replace_from old new 0 s.

Fixpoint lstrip (s : string) : string :=
  match s with
  | String c s' => if is_space c then lstrip s' else s
  | EmptyString => EmptyString
  end.

Fixpoint rstrip (s : string) : string :=
  match s with
  | EmptyString => EmptyString
  | String c s' =>
      let r := rstrip s' in
      if (is_space c && is_empty r)%bool then EmptyString else String c r
  end.

Definition strip (s : string) : string := rstrip (lstrip s).

Definition upper_char (c : ascii) : ascii :=
  if is_lower c then ascii_of_nat (code c - 32) else c.

Fixpoint upper (s : string) : string :=
  match s with
  | EmptyString => EmptyString
  | String c s' => String (upper_char c) (upper s')
  end.

(** [s.isdigit()]: non-empty and all digits. *)
Definition isdigit (s : string) : bool :=
  (negb (is_empty s) && Nat.eqb (span is_digit s) (String.length s))%bool.

(** [int(s)] for a string of digits. *)
Fixpoint int_of_digits (acc : Z) (s : string) : Z :=
  match s with
  | EmptyString => acc
  | String c s' => int_of_digits (10 * acc + Z.of_nat (code c - 48)) s'
  end.

(** [str(n)] of an integer, which is also what [json.dumps] prints for it. *)
Definition str_of_int (n : Z) : string := NilZero.string_of_int (Z.to_int n).

Fixpoint join (sep : string) (l : list string) : string :=
  match l with
  | [] => EmptyString
  | [s] => s
  | s :: l' => s ++ sep ++ join sep l'
  end.

End Text.

Import Text.

(** ** Values *)

Inductive key : Type :=
| KStr (s : string)
| KInt (n : Z).

#[warnings="-register-all"]
Inductive value : Type :=
| VNone
| VBool (b : bool)
| VInt (n : Z)
| VFloat (f : float)
| VStr (s : string)
| VList (l : list value)
| VDict (d : list (key * value)).

Definition dict : Type := list (key * value).

Definition key_eqb (a b : key) : bool :=
  match a, b with
  | KStr s, KStr t => String.eqb s t
  | KInt n, KInt m => Z.eqb n m
  | _, _ => false
  end.

Module Dict.

(** [d.get(k)] / [k in d] / [d[k]] *)
Fixpoint get (d : dict) (k : key) : option value :=
  match d with
  | [] => None
  | (k', v) :: d' => if key_eqb k k' then Some v else get d' k
  end.

Definition has (d : dict) (k : key) : bool :=
  match get d k with Some _ => true | None => false end.

(** [d[k] = v]: an existing key keeps its place, a new one goes last. *)
Fixpoint set (d : dict) (k : key) (v : value) : dict :=
  match d with
  | [] => [(k, v)]
  | (k', v') :: d' =>
      if key_eqb k k' then (k', v) :: d' else (k', v') :: set d' k v
  end.

(** [del d[k]] *)
Fixpoint del (d : dict) (k : key) : dict :=
  match d with
  | [] => []
  | (k', v') :: d' => if key_eqb k k' then d' else (k', v') :: del d' k
  end.

Definition keys (d : dict) : list key := map fst d.

End Dict.

(** [bool(v)] *)
Definition truthy (v : value) : bool :=
  match v with
  | VNone => false
  | VBool b => b
  | VInt n => negb (n =? 0)
  | VFloat f => negb (PrimFloat.eqb f 0%float)
  | VStr s => negb (is_empty s)
  | VList l => match l with [] => false | _ => true end
  | VDict d => match d with [] => false | _ => true end
  end.

Definition is_none (v : value) : bool :=
  match v with VNone => true | _ => false end.

(** ** Variable Resolver *)

(** [ALPHA_PATTERN = r'\.\.([a-zA-Z0-9][a-zA-Z0-9])'] tried at the head of [s];
    the answer is group 1. *)
Definition ALPHA_PATTERN (s : string) : option string :=
  match s with
  | String p (String q (String a (String b _))) =>
      if (Ascii.eqb p "." && Ascii.eqb q "." && is_alnum a && is_alnum b)%bool
      then Some (String a (String b EmptyString))
      else None
  | _ => None
  end.

(** [re.search(ALPHA_PATTERN, s)]: the leftmost match. *)
Fixpoint search_alpha (s : string) : option string :=
  match ALPHA_PATTERN s with
  | Some al => Some al
  | None =>
      match s with
      | EmptyString => None
      | String _ s' => search_alpha s'
      end
  end.

(** The walk at the end of [resolve_variable]: the path is followed through
    nested tables, and anything missing gives [None]. *)
Fixpoint walk_parts (parts : list string) (current : value) : value :=
  match parts with
  | [] => current
  | part :: rest =>
      match current with
      | VDict d =>
          match Dict.get d (KStr part) with
          | Some v => walk_parts rest v
          | None => VNone
          end
      | _ => VNone
      end
  end.

(** [resolve_variable(var_name, toml_data, had_alpha=True)] *)
Definition resolve_plain (var_name : string) (toml_data : value) : value :=
  walk_parts (split_on "." var_name) toml_data.

(** The loop [while isinstance(value, str) and value.startswith('$')]. *)
Fixpoint follow_refs (fuel : nat) (toml_data : value) (v : value) : outcome value :=
  match v with
  | VStr s =>
      if startswith "$" s then
        match fuel with
        | O => Diverge
        | S fuel' => follow_refs fuel' toml_data (resolve_plain (drop 1 s) toml_data)
        end
      else Ret v
  | _ => Ret v
  end.

Definition resolve_variable (fuel : nat) (var_name : string) (toml_data : value)
    (had_alpha : bool) : outcome value :=
  match (if had_alpha then None else search_alpha var_name) with
  | Some alpha =>
      let var_name := replace (".." ++ alpha) "" var_name in
      v <- follow_refs fuel toml_data (resolve_plain var_name toml_data) ;;
      if negb (truthy v) then Ret VNone
      else
        match v with
        | VStr s =>
            match search_alpha s with
            | Some _ => Ret v
            | None => Ret (VStr (s ++ alpha))
            end
        | _ => Raise TypeError (* re.search on a value that is not text *)
        end
  | None => Ret (resolve_plain var_name toml_data)
  end.

(** ** Template Materializer *)

Definition dquote : ascii := ascii_of_nat 34.

Definition quoted (s : string) : string := String dquote (s ++ String dquote EmptyString).

Module Json.

Definition hex_lower (n : nat) : ascii :=
  ascii_of_nat (if Nat.ltb n 10 then 48 + n else 87 + n).

(** One character of a string literal as [json.dumps] writes it
    ([ensure_ascii] is on). *)
Definition escape_char (c : ascii) : string :=
  let n := code c in
  if Nat.eqb n 34 then String "\" (String dquote EmptyString)
  else if Nat.eqb n 92 then "\\"
  else if Nat.eqb n 10 then "\n"
  else if Nat.eqb n 13 then "\r"
  else if Nat.eqb n 9 then "\t"
  else if Nat.eqb n 8 then "\b"
  else if Nat.eqb n 12 then "\f"
  else if (Nat.leb 32 n && Nat.leb n 126)%bool then String c EmptyString
  else "\u00" ++ String (hex_lower (Nat.div n 16)) (String (hex_lower (Nat.modulo n 16)) EmptyString).

Fixpoint escape (s : string) : string :=
  match s with
  | EmptyString => EmptyString
  | String c s' => escape_char c ++ escape s'
  end.

(** [json.dumps(s)] for a string. *)
Definition dumps_str (s : string) : string := quoted (escape s).

(** [json.dumps(l)] for a list of strings. *)
Definition dumps_str_list (l : list string) : string :=
  "[" ++ join ", " (map dumps_str l) ++ "]".

End Json.

(** *** The placeholder patterns

    [REC_PATTERN] is a name, [\$[a-zA-Z0-9._]+], followed by any number of
    further names, each after [\s*,\s*]; group 1 is the whole match.
    [FILE_PATTERN] is the same between two double quotes, which are outside
    group 1.  The classes of the
    pattern are disjoint from what may follow them (a name character is never
    a space, a comma, a dollar or a quote), so the backtracking matcher of
    [re] finds a match at a position exactly when the longest-first scan below
    does, and the same one. *)

(** [\$[a-zA-Z0-9._]+] at the head of [s]: the length matched. *)
Definition match_name (s : string) : option nat :=
  match s with
  | String c s' =>
      if Ascii.eqb c "$" then
        match span is_name_char s' with
        | O => None
        | S n => Some (S (S n))
        end
      else None
  | EmptyString => None
  end.

(** [\s*,\s*\$[a-zA-Z0-9._]+] at the head of [s]. *)
Definition match_more (s : string) : option nat :=
  let a := span is_space s in
  match drop a s with
  | String c s1 =>
      if Ascii.eqb c "," then
        let b := span is_space s1 in
        match match_name (drop b s1) with
        | Some n => Some (a + 1 + b + n)%nat
        | None => None
        end
      else None
  | EmptyString => None
  end.

(** The repeated group: as many repetitions as there are.  A repetition takes at
    least three characters, so [String.length s] rounds are enough. *)
Fixpoint match_rest (rounds : nat) (s : string) : nat :=
  match rounds with
  | O => O
  | S r =>
      match match_more s with
      | Some n => (n + match_rest r (drop n s))%nat
      | None => O
      end
  end.

Definition match_names (s : string) : option nat :=
  match match_name s with
  | Some n => Some (n + match_rest (String.length s) (drop n s))%nat
  | None => None
  end.

(** A pattern tried at the head of [s]: group 1 and the length of the whole
    match. *)
Definition REC_PATTERN (s : string) : option (string * nat) :=
  match match_names s with
  | Some n => Some (take n s, n)
  | None => None
  end.

Definition FILE_PATTERN (s : string) : option (string * nat) :=
  match s with
  | String c s' =>
      if Ascii.eqb c dquote then
        match match_names s' with
        | Some n =>
            if startswith (String dquote EmptyString) (drop n s')
            then Some (take n s', S (S n))
            else None
        | None => None
        end
      else None
  | EmptyString => None
  end.

(** [re.sub(pattern, repl, s)] for a pattern that matches no empty string:
    the text is scanned from the left, each match is replaced by what [repl]
    returns for its group 1, and the scan resumes after the match. *)
Fixpoint re_sub_from (pattern : string -> option (string * nat))
    (repl : string -> outcome string) (skip : nat) (s : string) : outcome string :=
  match s with
  | EmptyString => Ret EmptyString
  | String c s' =>
      match skip with
      | S k => re_sub_from pattern repl k s'
      | O =>
          match pattern s with
          | Some (group1, len) =>
              r <- repl group1 ;;
              rest <- re_sub_from pattern repl (len - 1) s' ;;
              Ret (r ++ rest)%string
          | None =>
              rest <- re_sub_from pattern repl 0 s' ;;
              Ret (String c rest)
          end
      end
  end.

Definition re_sub pattern repl (s : string) : outcome string :=
  re_sub_from pattern repl 0 s.

Section Materializer.

(** What [json.dumps] prints for a float ([repr], or [NaN] and [Infinity]). *)
Variable float_repr : float -> string.

(** The loop of [replacer] over the candidates.  [self] is the recursive call
    [substitute_variables(_, toml_data, recursive=True, quotes=_)], and [last]
    is [var_names[-1]]. *)
Fixpoint try_candidates (self : string -> bool -> outcome string) (fuel : nat)
    (toml_data : value) (quotes : bool) (last : string) (var_names : list string)
    : outcome string :=
  match var_names with
  | [] => Ret "null"
  | name :: others =>
      let var_name := if startswith "$" name then drop 1 name else name in
      v <- resolve_variable fuel var_name toml_data false ;;
      v <- (if (is_none v && String.eqb var_name last)%bool
            then resolve_variable fuel (hd EmptyString (split_on "." var_name)) toml_data false
            else Ret v) ;;
      match v with
      | VNone | VBool _ => try_candidates self fuel toml_data quotes last others
      | VDict _ => try_candidates self fuel toml_data quotes last others
      | VList items =>
          items' <- map_outcome
                      (fun item =>
                         match item with
                         | VStr t => self t false
                         | _ => Raise TypeError (* re.sub on a value that is not text *)
                         end) items ;;
          Ret (Json.dumps_str_list items')
      | VStr s =>
          if contains "$" s then self s quotes
          else Ret (if quotes then Json.dumps_str s else s)
      | VInt n => Ret (str_of_int n)
      | VFloat f => Ret (float_repr f)
      end
  end.

Definition replacer (self : string -> bool -> outcome string) (fuel : nat)
    (toml_data : value) (quotes : bool) (group1 : string) : outcome string :=
  let var_names := map strip (split_on "," group1) in
  try_candidates self fuel toml_data quotes (last var_names EmptyString) var_names.

(** [fuel] bounds the depth of the recursion through values that contain
    placeholders themselves, and the loop of [resolve_variable]. *)
Fixpoint substitute_variables (fuel : nat) (text : string) (toml_data : value)
    (recursive quotes : bool) : outcome string :=
  match fuel with
  | O => Diverge
  | S fuel' =>
      re_sub (if recursive then REC_PATTERN else FILE_PATTERN)
        (replacer (fun t q => substitute_variables fuel' t toml_data true q)
           fuel' toml_data quotes)
        text
  end.

End Materializer.

(** ** Python operators on values *)

(** The integer a float is equal to, if any. *)
Definition float_eq_int (f : float) (n : Z) : bool :=
  match Prim2SF f with
  | S754_zero _ => n =? 0
  | S754_finite sign m e =>
      let v := if sign then Z.neg m else Z.pos m in
      if 0 <=? e then n =? v * 2 ^ e
      else ((v mod 2 ^ (- e) =? 0) && (n =? v / 2 ^ (- e)))%bool
  | _ => false
  end.

(** [k == v] for a path segment [k] (a string or an integer): numbers are
    compared across [int], [bool] and [float]. *)
Definition key_equals (k : key) (v : value) : bool :=
  match k, v with
  | KStr s, VStr t => String.eqb s t
  | KInt n, VInt m => n =? m
  | KInt n, VBool b => n =? (if b then 1 else 0)
  | KInt n, VFloat f => float_eq_int f n
  | _, _ => false
  end.

Definition chars (s : string) : list value :=
  map (fun c => VStr (String c EmptyString)) (list_ascii_of_string s).

Definition value_of_key (k : key) : value :=
  match k with KStr s => VStr s | KInt n => VInt n end.

(** [k in val] *)
Definition contains_key (k : key) (val : value) : outcome bool :=
  match val with
  | VDict d => Ret (Dict.has d k)
  | VList l => Ret (existsb (key_equals k) l)
  | VStr s =>
      match k with
      | KStr t => Ret (contains t s)
      | KInt _ => Raise TypeError
      end
  | _ => Raise TypeError
  end.

(** [len(val)] *)
Definition py_len (val : value) : outcome nat :=
  match val with
  | VDict d => Ret (List.length d)
  | VList l => Ret (List.length l)
  | VStr s => Ret (String.length s)
  | _ => Raise TypeError
  end.

(** [iter(val)] *)
Definition py_iter (val : value) : outcome (list value) :=
  match val with
  | VList l => Ret l
  | VDict d => Ret (map value_of_key (Dict.keys d))
  | VStr s => Ret (chars s)
  | _ => Raise TypeError
  end.

(** The position an index denotes in a sequence of length [len], counting
    from the end when negative. *)
Definition position (len : nat) (n : Z) : option nat :=
  let i := if n <? 0 then n + Z.of_nat len else n in
  if ((0 <=? i) && (i <? Z.of_nat len))%bool then Some (Z.to_nat i) else None.

Fixpoint list_set (l : list value) (i : nat) (v : value) : list value :=
  match l, i with
  | [], _ => []
  | _ :: l', O => v :: l'
  | x :: l', S i' => x :: list_set l' i' v
  end.

Fixpoint list_del (l : list value) (i : nat) : list value :=
  match l, i with
  | [], _ => []
  | _ :: l', O => l'
  | x :: l', S i' => x :: list_del l' i'
  end.

(** [val[k]] *)
Definition getitem (val : value) (k : key) : outcome value :=
  match val, k with
  | VDict d, _ =>
      match Dict.get d k with Some v => Ret v | None => Raise KeyError end
  | VList l, KInt n =>
      match position (List.length l) n with
      | Some i => Ret (nth i l VNone)
      | None => Raise IndexError
      end
  | VStr s, KInt n =>
      match position (String.length s) n with
      | Some i => Ret (VStr (take 1 (drop i s)))
      | None => Raise IndexError
      end
  | _, _ => Raise TypeError
  end.

(** [val[k] = v] *)
Definition setitem (val : value) (k : key) (v : value) : outcome value :=
  match val, k with
  | VDict d, _ => Ret (VDict (Dict.set d k v))
  | VList l, KInt n =>
      match position (List.length l) n with
      | Some i => Ret (VList (list_set l i v))
      | None => Raise IndexError
      end
  | _, _ => Raise TypeError
  end.

(** [del val[k]] *)
Definition delitem (val : value) (k : key) : outcome value :=
  match val, k with
  | VDict d, _ =>
      if Dict.has d k then Ret (VDict (Dict.del d k)) else Raise KeyError
  | VList l, KInt n =>
      match position (List.length l) n with
      | Some i => Ret (VList (list_del l i))
      | None => Raise IndexError
      end
  | _, _ => Raise TypeError
  end.

(** The object read by [val[k]] has been mutated in place into [child]: the
    container as it is afterwards. *)
Definition with_child (val : value) (k : key) (child : value) : value :=
  match setitem val k child with
  | Ret val' => val'
  | _ => val
  end.

(** ** Override Engine: paths and deletions *)

(** [part[1:-1]] *)
Definition inside (part : string) : string :=
  take (String.length part - 2) (drop 1 part).

(** The loop of [parse_full_key] over the dot-separated parts.  [open] is the
    bracketed part being joined, if any; running out of parts inside a
    bracket is the [IndexError] of [parts[i]]. *)
Fixpoint parse_parts (open : option string) (parts : list string) : outcome (list key) :=
  match parts with
  | [] =>
      match open with
      | None => Ret []
      | Some _ => Raise IndexError
      end
  | p :: rest =>
      match open with
      | Some part =>
          let part := (part ++ "." ++ p)%string in
          if endswith_char "]" part
          then keys <- parse_parts None rest ;; Ret (KStr (inside part) :: keys)
          else parse_parts (Some part) rest
      | None =>
          if startswith "[" p then
            if endswith_char "]" p
            then keys <- parse_parts None rest ;; Ret (KStr (inside p) :: keys)
            else parse_parts (Some p) rest
          else if isdigit p
          then keys <- parse_parts None rest ;; Ret (KInt (int_of_digits 0 p) :: keys)
          else keys <- parse_parts None rest ;; Ret (KStr p :: keys)
      end
  end.

Definition parse_full_key (full_key : string) : outcome (list key) :=
  parse_parts None (split_on "." full_key).

(** One entry of the deletion list, lines 123 to 129 of
    [process_json_template]: the walk over [keys[:-1]], in which a key that is
    missing is passed over and the walk goes on from the same container, and
    then the removal of [keys[-1]] from wherever the walk ended.  The result
    is [val] after the removal. *)
Fixpoint delete_walk (keys : list key) (val : value) : outcome value :=
  match keys with
  | [] => Ret val
  | [last] =>
      present <- contains_key last val ;;
      if present then delitem val last else Ret val
  | k :: rest =>
      present <- contains_key k val ;;
      if negb present then delete_walk rest val
      else
        child <- getitem val k ;;
        child' <- delete_walk rest child ;;
        Ret (with_child val k child')
  end.

Definition apply_deletion (theme : value) (full_key : value) : outcome value :=
  match full_key with
  | VStr s => keys <- parse_full_key s ;; delete_walk keys theme
  | _ => Raise AttributeError (* full_key.split *)
  end.

Fixpoint fold_outcome {A B : Type} (f : A -> B -> outcome A) (l : list B) (a : A) : outcome A :=
  match l with
  | [] => Ret a
  | b :: l' => a' <- f a b ;; fold_outcome f l' a'
  end.

(** The block [# Apply deletions] of [process_json_template]. *)
Definition apply_deletions (theme : value) (toml_data : value) : outcome value :=
  has_section <- contains_key (KStr "deletions") toml_data ;;
  if negb has_section then Ret theme
  else
    section <- getitem toml_data (KStr "deletions") ;;
    has_keys <- contains_key (KStr "keys") section ;;
    if negb has_keys then Ret theme
    else
      keys <- getitem section (KStr "keys") ;;
      if negb (truthy keys) then Ret theme
      else
        entries <- py_iter keys ;;
        fold_outcome apply_deletion entries theme.

(** ** Override Engine: wildcard patterns *)

(** [re.escape]: a backslash goes before each of the characters
    [()[]{}?*+-|^$\.&~#], the space and the five white-space controls. *)
Definition is_special (c : ascii) : bool :=
  existsb (Nat.eqb (code c))
    [40; 41; 91; 93; 123; 125; 63; 42; 43; 45; 124; 94; 36; 92; 46; 38; 126; 35;
     32; 9; 10; 13; 11; 12]%nat.

Fixpoint re_escape (s : string) : string :=
  match s with
  | EmptyString => EmptyString
  | String c s' =>
      if is_special c then String "\" (String c (re_escape s'))
      else String c (re_escape s')
  end.

Definition wildcard_to_regex (pattern : string) : string :=
  let escaped_pattern := re_escape pattern in
  let escaped_pattern := replace "\*\*\*" ".*" escaped_pattern in
  let escaped_pattern := replace "\.\*\*" "\..*" escaped_pattern in
  let escaped_pattern := replace "\*\*\." ".*\." escaped_pattern in
  let escaped_pattern := replace "\*" "\w*" escaped_pattern in
  ("^" ++ escaped_pattern ++ "$")%string.

(** The regular expressions that [wildcard_to_regex] writes are sequences of
    literal characters (escaped or not), [.] and [\w], each possibly starred,
    between [^] and [$].  [re.match] is modelled on that fragment. *)
Module Regex.

Inductive atom : Type :=
| Lit (c : ascii)
| AnyChar
| WordChar.

Inductive piece : Type :=
| One (a : atom)
| Star (a : atom).

Definition escaped_atom (c : ascii) : option atom :=
  if Ascii.eqb c "w" then Some WordChar
  else if is_alnum c then None
  else Some (Lit c).

Definition plain_atom (c : ascii) : option atom :=
  if Ascii.eqb c "." then Some AnyChar
  else if existsb (Nat.eqb (code c)) [40; 41; 91; 93; 123; 125; 63; 42; 43; 124; 94; 36; 92]%nat
  then None
  else Some (Lit c).

Definition add_piece (p : piece) (r : option (list piece * bool)) : option (list piece * bool) :=
  match r with
  | Some (ps, anchored) => Some (p :: ps, anchored)
  | None => None
  end.

(** The pieces of an expression and whether it ends with [$]. *)
Fixpoint parse (s : string) : option (list piece * bool) :=
  match s with
  | EmptyString => Some ([], false)
  | String c s1 =>
      if Ascii.eqb c "$" then (if is_empty s1 then Some ([], true) else None)
      else if Ascii.eqb c "\" then
        match s1 with
        | EmptyString => None
        | String e s2 =>
            match escaped_atom e with
            | None => None
            | Some a =>
                match s2 with
                | String q s3 =>
                    if Ascii.eqb q "*" then add_piece (Star a) (parse s3)
                    else add_piece (One a) (parse s2)
                | EmptyString => add_piece (One a) (parse s2)
                end
            end
        end
      else
        match plain_atom c with
        | None => None
        | Some a =>
            match s1 with
            | String q s2 =>
                if Ascii.eqb q "*" then add_piece (Star a) (parse s2)
                else add_piece (One a) (parse s1)
            | EmptyString => add_piece (One a) (parse s1)
            end
        end
  end.

Definition atom_ok (a : atom) (c : ascii) : bool :=
  match a with
  | Lit d => Ascii.eqb c d
  | AnyChar => negb (Nat.eqb (code c) 10)
  | WordChar => is_word c
  end.

(** [$] holds at the end of the text and before a line feed that ends it. *)
Definition at_end (s : string) : bool :=
  match s with
  | EmptyString => true
  | String c EmptyString => Nat.eqb (code c) 10
  | _ => false
  end.

Fixpoint match_pieces (ps : list piece) (anchored : bool) (s : string) : bool :=
  match ps with
  | [] => if anchored then at_end s else true
  | One a :: ps' =>
      match s with
      | String c s' => (atom_ok a c && match_pieces ps' anchored s')%bool
      | EmptyString => false
      end
  | Star a :: ps' =>
      (fix star (s : string) : bool :=
         (match_pieces ps' anchored s ||
          match s with
          | String c s' => (atom_ok a c && star s')%bool
          | EmptyString => false
          end)%bool) s
  end.

(** [re.match(regex, text)] as a truth value; [ReError] stands for an
    expression outside the fragment, which [wildcard_to_regex] does not
    write. *)
Definition re_match (regex text : string) : outcome bool :=
  let body := if startswith "^" regex then drop 1 regex else regex in
  match parse body with
  | Some (ps, anchored) => Ret (match_pieces ps anchored text)
  | None => Raise ReError
  end.

End Regex.

Definition match_wildcard (pattern : string) (k : key) : outcome bool :=
  match k with
  | KStr text => Regex.re_match (wildcard_to_regex pattern) text
  | KInt _ => Raise TypeError
  end.

Fixpoint filter_outcome {A : Type} (f : A -> outcome bool) (l : list A) : outcome (list A) :=
  match l with
  | [] => Ret []
  | a :: l' =>
      b <- f a ;;
      rest <- filter_outcome f l' ;;
      Ret (if b then a :: rest else rest)
  end.

Definition find_matching_keys (data : value) (pattern : string) : outcome (list key) :=
  match data with
  | VDict d => filter_outcome (match_wildcard pattern) (Dict.keys d)
  | _ => Raise AttributeError (* data.keys *)
  end.

Inductive pytype : Type := TNone | TBool | TInt | TFloat | TStr | TList | TDict.

Definition type_of (v : value) : pytype :=
  match v with
  | VNone => TNone
  | VBool _ => TBool
  | VInt _ => TInt
  | VFloat _ => TFloat
  | VStr _ => TStr
  | VList _ => TList
  | VDict _ => TDict
  end.

Definition pytype_eqb (a b : pytype) : bool :=
  match a, b with
  | TNone, TNone | TBool, TBool | TInt, TInt | TFloat, TFloat
  | TStr, TStr | TList, TList | TDict, TDict => true
  | _, _ => false
  end.

(** [d.update(other)] *)
Definition dict_update (d other : dict) : dict :=
  fold_left (fun acc kv => Dict.set acc (fst kv) (snd kv)) other d.

(** [resolve_variable(override_value[1:], toml_data)]: the slice of a string
    is resolved; the slice of a list is not text for [re.search]; and a
    table has no key that is a slice, which is a [KeyError] from Python 3.12
    on, the version the f-strings of the file ask for. *)
Definition resolve_slice (fuel : nat) (override_value toml_data : value) : outcome value :=
  match override_value with
  | VStr s => resolve_variable fuel (drop 1 s) toml_data false
  | VDict _ => Raise KeyError
  | _ => Raise TypeError
  end.

(** [override_value and "$" in override_value] *)
Definition names_variable (override_value : value) : outcome bool :=
  if truthy override_value then contains_key (KStr "$") override_value else Ret false.

(** The body of the loop over [matching_keys] in [apply_overrides]. *)
Definition override_matching_key (override_value : value) (theme : value) (k : key)
    : outcome value :=
  match override_value with
  | VDict other =>
      cur <- getitem theme k ;;
      match cur with
      | VDict d => Ret (with_child theme k (VDict (dict_update d other)))
      | _ => Raise AttributeError (* theme[key].update *)
      end
  | VList _ => Ret theme
  | _ =>
      cur <- getitem theme k ;;
      if (pytype_eqb (type_of cur) (type_of override_value) || is_none cur)%bool
      then setitem theme k override_value
      else if negb (truthy override_value) then setitem theme k VNone
      else Ret theme
  end.

(** What the last three branches leave at a matching key that held [cur],
    for a string override [s]. *)
Definition settled (s : string) (cur : value) : value :=
  if (pytype_eqb (type_of cur) TStr || is_none cur)%bool then VStr s
  else if negb (truthy (VStr s)) then VNone
  else cur.

Definition apply_override (fuel : nat) (toml_data : value) (theme : value)
    (entry : key * value) : outcome value :=
  let (override_key, override_value) := entry in
  named <- names_variable override_value ;;
  override_value <- (if named then resolve_slice fuel override_value toml_data
                     else Ret override_value) ;;
  match override_key with
  | KStr pattern =>
      matching_keys <- find_matching_keys theme pattern ;;
      fold_outcome (override_matching_key override_value) matching_keys theme
  | KInt _ => Raise TypeError
  end.

Definition apply_overrides (fuel : nat) (theme toml_data overrides : value) : outcome value :=
  match overrides with
  | VDict entries => fold_outcome (apply_override fuel toml_data) entries theme
  | _ => Raise AttributeError (* overrides.items *)
  end.

(** ** Override Engine: direct overrides *)

Definition is_container (v : value) : bool :=
  match v with VList _ | VDict _ => true | _ => false end.

(** [next.isdigit()] on a parsed segment: integers have no such method. *)
Definition key_isdigit (k : key) : outcome bool :=
  match k with
  | KStr s => Ret (isdigit s)
  | KInt _ => Raise AttributeError
  end.

(** [next and next.isdigit()] *)
Definition next_is_digit (next : option key) : outcome bool :=
  match next with
  | None => Ret false
  | Some (KInt n) => if n =? 0 then Ret false else Raise AttributeError
  | Some (KStr s) => if is_empty s then Ret false else Ret (isdigit s)
  end.

Definition key_truthy (k : key) : bool :=
  match k with
  | KStr s => negb (is_empty s)
  | KInt n => negb (n =? 0)
  end.

(** The loop [while len(current) <= part]: a list, when the next segment is a
    digit string; else a table at position [part] and the override value
    itself at the positions before it. *)
Fixpoint grow (rounds : nat) (current : list value) (part : Z) (digit_next : bool)
    (override_value : value) : list value :=
  match rounds with
  | O => current
  | S r =>
      if Z.of_nat (List.length current) <=? part then
        let item :=
          if digit_next then VList []
          else if part =? Z.of_nat (List.length current) then VDict []
          else override_value in
        grow r (current ++ [item]) part digit_next override_value
      else current
  end.

(** The first two branches of the loop body: a missing table key or list
    position is created. *)
Definition make_room (override_value : value) (part : key) (rest : list key)
    (current : value) : outcome value :=
  match current with
  | VDict d =>
      if Dict.has d part then Ret current
      else
        match rest with
        | [] => Ret (VDict (Dict.set d part VNone))
        | next :: _ =>
            digit <- key_isdigit next ;;
            Ret (VDict (Dict.set d part (if digit then VList [] else VDict [])))
        end
  | VList l =>
      match part with
      | KStr _ => Raise TypeError (* len(current) <= part *)
      | KInt n =>
          if Z.of_nat (List.length l) <=? n then
            digit <- next_is_digit (hd_error rest) ;;
            Ret (VList (grow (Z.to_nat (n + 1)) l n digit override_value))
          else Ret current
      end
  | _ => Ret current
  end.

(** What follows the loop: [False] becomes [None], and the last segment is
    set in the container the walk stopped at. *)
Definition assign_final (override_value : value) (part : key) (current : value)
    : outcome value :=
  let override_value :=
    match override_value with
    | VBool false => VNone
    | _ => override_value
    end in
  present <- (if key_truthy part then contains_key part current else Ret false) ;;
  if present then setitem current part override_value
  else
    match current, part with
    | VList l, KInt n =>
        if Z.of_nat (List.length l) <? n then Ret (VList (l ++ [override_value]))
        else setitem current part override_value
    | _, _ => Ret current (* Could not find key *)
    end.

(** The loop over [parts] from the container [current], and the assignment
    after it; the result is [current] afterwards.  The walk goes down while
    the value at the segment is a list or a table. *)
Fixpoint direct_walk (override_value : value) (parts : list key) (current : value)
    : outcome value :=
  match parts with
  | [] => Ret current
  | part :: rest =>
      current <- make_room override_value part rest current ;;
      next <- getitem current part ;;
      if is_container next then
        match rest with
        | [] =>
            child <- assign_final override_value part next ;;
            Ret (with_child current part child)
        | _ =>
            child <- direct_walk override_value rest next ;;
            Ret (with_child current part child)
        end
      else assign_final override_value part current
  end.

Definition apply_direct_override (fuel : nat) (toml_data : value) (theme : value)
    (entry : key * value) : outcome value :=
  let (override_key, override_value) := entry in
  override_value <-
    match override_value with
    | VStr s =>
        if contains "$" s then resolve_variable fuel (drop 1 s) toml_data false
        else Ret override_value
    | _ => Ret override_value
    end ;;
  match override_key with
  | KInt _ => Raise TypeError
  | KStr k =>
      if negb (contains "." k) then setitem theme override_key override_value
      else
        parts <- parse_full_key k ;;
        match parts with
        | [] => Ret theme
        | _ => direct_walk override_value parts theme
        end
  end.

Definition apply_direct_overrides (fuel : nat) (theme toml_data overrides : value)
    : outcome value :=
  match overrides with
  | VDict entries => fold_outcome (apply_direct_override fuel toml_data) entries theme
  | _ => Raise AttributeError
  end.

(** ** Override Engine: regular-expression overrides *)

Section RegexOverrides.

(** [re.match(pattern, text)] as a truth value, for the expressions of the
    binding file. *)
Variable re_match : string -> string -> outcome bool.

Definition regex_override_key (regex_pattern : string) (override_value : value)
    (theme : value) (k : key) : outcome value :=
  match k with
  | KStr text =>
      hit <- re_match regex_pattern text ;;
      if hit then setitem theme k override_value else Ret theme
  | KInt _ => Raise TypeError
  end.

(** The value a regular-expression override sets: a reference is resolved
    and anything false becomes [None]. *)
Definition regex_override_value (fuel : nat) (toml_data override_value : value)
    : outcome value :=
  named <- names_variable override_value ;;
  if named then resolve_slice fuel override_value toml_data
  else if negb (truthy override_value) then Ret VNone
  else Ret override_value.

Definition apply_regex_override (fuel : nat) (toml_data : value) (theme : value)
    (entry : key * value) : outcome value :=
  let (regex_pattern, override_value) := entry in
  override_value <- regex_override_value fuel toml_data override_value ;;
  match theme with
  | VDict d =>
      match regex_pattern with
      | KStr pattern =>
          fold_outcome (regex_override_key pattern override_value) (Dict.keys d) theme
      | KInt _ =>
          match d with
          | [] => Ret theme
          | _ => Raise TypeError
          end
      end
  | _ => Raise AttributeError (* theme.keys *)
  end.

Definition apply_regex_overrides (fuel : nat) (theme toml_data regex_overrides : value)
    : outcome value :=
  match regex_overrides with
  | VDict entries => fold_outcome (apply_regex_override fuel toml_data) entries theme
  | _ => Raise AttributeError
  end.

End RegexOverrides.

(** ** Override Engine: the order of application *)

(** The block [# Apply overrides] of [process_json_template], lines 137 to
    150: six tables of the binding file, each applied when the file has the
    name the test asks for.  The fifth test asks for [stlye-overrides] and
    the call then reads [style-overrides].  The tables under [style] are
    changed in place; the result is the processed theme afterwards. *)
Section Dispatch.

Variable re_match : string -> string -> outcome bool.

Definition apply_all_overrides (fuel : nat) (processed_theme toml_data : value)
    : outcome value :=
  present <- contains_key (KStr "overrides") toml_data ;;
  theme <- (if present then
              table <- getitem toml_data (KStr "overrides") ;;
              apply_direct_overrides fuel processed_theme toml_data table
            else Ret processed_theme) ;;
  present <- contains_key (KStr "overrides-regex") toml_data ;;
  theme <- (if present then
              table <- getitem toml_data (KStr "overrides-regex") ;;
              apply_regex_overrides re_match fuel theme toml_data table
            else Ret theme) ;;
  present <- contains_key (KStr "syntax-overrides") toml_data ;;
  theme <- (if present then
              style <- getitem theme (KStr "style") ;;
              syntax <- getitem style (KStr "syntax") ;;
              table <- getitem toml_data (KStr "syntax-overrides") ;;
              syntax' <- apply_overrides fuel syntax toml_data table ;;
              Ret (with_child theme (KStr "style")
                     (with_child style (KStr "syntax") syntax'))
            else Ret theme) ;;
  present <- contains_key (KStr "syntax-overrides-regex") toml_data ;;
  theme <- (if present then
              style <- getitem theme (KStr "style") ;;
              syntax <- getitem style (KStr "syntax") ;;
              table <- getitem toml_data (KStr "syntax-overrides-regex") ;;
              syntax' <- apply_regex_overrides re_match fuel syntax toml_data table ;;
              Ret (with_child theme (KStr "style")
                     (with_child style (KStr "syntax") syntax'))
            else Ret theme) ;;
  present <- contains_key (KStr "stlye-overrides") toml_data ;;
  theme <- (if present then
              style <- getitem theme (KStr "style") ;;
              table <- getitem toml_data (KStr "style-overrides") ;;
              style' <- apply_overrides fuel style toml_data table ;;
              Ret (with_child theme (KStr "style") style')
            else Ret theme) ;;
  present <- contains_key (KStr "style-overrides-regex") toml_data ;;
  if present then
    style <- getitem theme (KStr "style") ;;
    table <- getitem toml_data (KStr "style-overrides-regex") ;;
    style' <- apply_regex_overrides re_match fuel style toml_data table ;;
    Ret (with_child theme (KStr "style") style')
  else Ret theme.

End Dispatch.

(** ** Reverse Extractor: the deletion-key scan *)

(** [list.append] *)
Definition append_item (val item : value) : outcome value :=
  match val with
  | VList l => Ret (VList (l ++ [item]))
  | _ => Raise AttributeError
  end.

Definition bracketed (k : string) : string :=
  if contains "." k then ("[" ++ k ++ "]")%string else k.

Definition full_key_of (prefix k : string) : string :=
  if is_empty prefix then k else (prefix ++ "." ++ bracketed k)%string.

(** [get_delete_keys(template, final_theme, prefix)]: the keys to delete and
    [final_theme] as the scan leaves it.  The two loops are written over the
    recursive call [scan]. *)
Section Scan.

Variable scan : value -> value -> string -> outcome (list string * value).

(** The loop over [enumerate(template[key])], from position [i] on.
    [final_theme[key]] is read again at every round. *)
Fixpoint scan_items (k full_key : string) (items : list value) (i : nat)
    (final_theme : value) {struct items} : outcome (list string * value) :=
  match items with
  | [] => Ret ([], final_theme)
  | item :: items' =>
      sub <- getitem final_theme (KStr k) ;;
      n <- py_len sub ;;
      if Nat.leb n i then
        sub' <- append_item sub item ;;
        scan_items k full_key items' (S i) (with_child final_theme (KStr k) sub')
      else
        match item with
        | VDict _ =>
            el <- getitem sub (KInt (Z.of_nat i)) ;;
            r1 <- scan item el full_key ;;
            let sub' := with_child sub (KInt (Z.of_nat i)) (snd r1) in
            r2 <- scan_items k full_key items' (S i)
                    (with_child final_theme (KStr k) sub') ;;
            Ret (fst r1 ++ fst r2, snd r2)
        | _ => scan_items k full_key items' (S i) final_theme
        end
  end.

(** The loop over [template.keys()]. *)
Fixpoint scan_keys (prefix : string) (entries : list (key * value))
    (final_theme : value) {struct entries} : outcome (list string * value) :=
  match entries with
  | [] => Ret ([], final_theme)
  | (KInt _, _) :: _ => Raise TypeError
  | (KStr k, tv) :: entries' =>
      let full_key := full_key_of prefix k in
      present <- contains_key (KStr k) final_theme ;;
      if negb present then
        r <- scan_keys prefix entries' final_theme ;;
        Ret (full_key :: fst r, snd r)
      else
        match tv with
        | VDict _ =>
            sub <- getitem final_theme (KStr k) ;;
            r1 <- scan tv sub full_key ;;
            r2 <- scan_keys prefix entries' (with_child final_theme (KStr k) (snd r1)) ;;
            Ret (fst r1 ++ fst r2, snd r2)
        | VList items =>
            r1 <- scan_items k full_key items O final_theme ;;
            r2 <- scan_keys prefix entries' (snd r1) ;;
            Ret (fst r1 ++ fst r2, snd r2)
        | _ => scan_keys prefix entries' final_theme
        end
  end.

End Scan.

Fixpoint get_delete_keys (template final_theme : value) (prefix : string)
    {struct template} : outcome (list string * value) :=
  match template with
  | VDict entries => scan_keys get_delete_keys prefix entries final_theme
  | _ => Raise AttributeError (* template.keys *)
  end.

(** ** Color Palette Factorer *)

(** [a == b] on values: numbers are compared across [bool], [int] and
    [float], lists element by element, tables key by key. *)
Fixpoint py_eq (a b : value) {struct a} : bool :=
  match a with
  | VNone => match b with VNone => true | _ => false end
  | VBool x => key_equals (KInt (if x then 1 else 0)) b
  | VInt n => key_equals (KInt n) b
  | VFloat f =>
      match b with
      | VFloat g => PrimFloat.eqb f g
      | VInt n => float_eq_int f n
      | VBool y => float_eq_int f (if y then 1 else 0)
      | _ => false
      end
  | VStr s => match b with VStr t => String.eqb s t | _ => false end
  | VList l =>
      match b with
      | VList m =>
          (fix all2 (l m : list value) {struct l} : bool :=
             match l, m with
             | [], [] => true
             | x :: l', y :: m' => (py_eq x y && all2 l' m')%bool
             | _, _ => false
             end) l m
      | _ => false
      end
  | VDict d =>
      match b with
      | VDict e =>
          (Nat.eqb (List.length d) (List.length e) &&
           (fix all_in (d : list (key * value)) {struct d} : bool :=
              match d with
              | [] => true
              | (k, v) :: d' =>
                  (match Dict.get e k with
                   | Some w => py_eq v w
                   | None => false
                   end && all_in d')%bool
              end) d)%bool
      | _ => false
      end
  end.

(** [is_hex_color]: the pattern is tried at the head of the text and asks for
    eight, six or three hexadecimal digits after the hash sign, so it holds
    when at least three follow. *)
Definition is_hex_text (s : string) : bool :=
  match s with
  | String c s' => (Ascii.eqb c "#" && Nat.leb 3 (span is_hex_digit s'))%bool
  | EmptyString => false
  end.

Definition is_hex_color (color : value) : bool :=
  match color with
  | VStr s => is_hex_text s
  | _ => false
  end.

Definition twice (c : ascii) : string := String c (String c EmptyString).

Definition get_base_color (hex : string) : outcome string :=
  if negb (startswith "#" hex) then Raise AssertionError
  else if negb (existsb (Nat.eqb (String.length hex)) [4; 7; 9]%nat) then Raise AssertionError
  else
    let hex := upper hex in
    match hex with
    | String _ (String r (String g (String b EmptyString))) =>
        Ret (take 7 ("#" ++ twice r ++ twice g ++ twice b))
    | _ => Ret (take 7 hex)
    end.

(** [get_alpha]: [None] stands for Python's [None]. *)
Definition get_alpha (hex : value) : outcome (option string) :=
  match hex with
  | VStr s =>
      if negb (is_hex_text s) then Raise AssertionError
      else if negb (Nat.eqb (String.length s) 9) then Ret None
      else Ret (Some (drop 7 s))
  | _ => Raise AssertionError
  end.

(** [get_base_color(v) if is_hex_color(v) else v] *)
Definition base_or_self (v : value) : outcome value :=
  match v with
  | VStr s => if is_hex_text s then (b <- get_base_color s ;; Ret (VStr b)) else Ret v
  | _ => Ret v
  end.

(** [collections.Counter] over colour names, in first-seen order. *)
Definition counter : Type := list (string * Z).

Fixpoint counter_add (c : counter) (color : string) (n : Z) : counter :=
  match c with
  | [] => [(color, n)]
  | (k, m) :: c' =>
      if String.eqb color k then (k, n + m) :: c' else (k, m) :: counter_add c' color n
  end.

Fixpoint counter_get (c : counter) (color : string) : Z :=
  match c with
  | [] => 0
  | (k, m) :: c' => if String.eqb color k then m else counter_get c' color
  end.

(** A histogram: observed value to number of occurrences. *)
Definition histogram : Type := list (value * Z).

(** The first loop of [handle_colors], for one variable. *)
Fixpoint count_histogram (h : histogram) (colors : counter) : outcome counter :=
  match h with
  | [] => Ret colors
  | (VStr s, count) :: h' =>
      if is_hex_text s
      then color <- get_base_color s ;; count_histogram h' (counter_add colors color count)
      else count_histogram h' colors
  | _ :: h' => count_histogram h' colors
  end.

Fixpoint count_variables (variables : list (string * histogram)) (colors : counter)
    : outcome counter :=
  match variables with
  | [] => Ret colors
  | (_, h) :: variables' =>
      colors <- count_histogram h colors ;;
      count_variables variables' colors
  end.

(** The loop [for _, value in overrides.items()]: one for each override whose
    value is a colour. *)
Fixpoint count_overrides (overrides : dict) (colors : counter) : outcome counter :=
  match overrides with
  | [] => Ret colors
  | (_, VStr s) :: overrides' =>
      if is_hex_text s
      then color <- get_base_color s ;; count_overrides overrides' (counter_add colors color 1)
      else count_overrides overrides' colors
  | _ :: overrides' => count_overrides overrides' colors
  end.

(** [max(h, key=h.get)]: the first entry with the largest count. *)
Fixpoint first_max (best : value) (best_count : Z) (h : histogram) : value :=
  match h with
  | [] => best
  | (v, n) :: h' =>
      if best_count <? n then first_max v n h' else first_max best best_count h'
  end.

Definition representative (h : histogram) : outcome value :=
  match h with
  | [] => Raise ValueError
  | (v, n) :: h' => Ret (first_max v n h')
  end.

Fixpoint representatives (variables : list (string * histogram))
    : outcome (list (string * value)) :=
  match variables with
  | [] => Ret []
  | (var_name, h) :: variables' =>
      v <- representative h ;;
      rest <- representatives variables' ;;
      Ret ((var_name, v) :: rest)
  end.

Fixpoint assoc (l : list (string * value)) (name : string) : option value :=
  match l with
  | [] => None
  | (k, v) :: l' => if String.eqb name k then Some v else assoc l' name
  end.

Definition option_string_eqb (a b : option string) : bool :=
  match a, b with
  | None, None => true
  | Some s, Some t => String.eqb s t
  | _, _ => false
  end.

Definition count_of (x : option string) (l : list (option string)) : nat :=
  List.length (filter (option_string_eqb x) l).

(** [max(alphas, key=lambda x: alphas.count(x))] *)
Fixpoint most_common (all : list (option string)) (best : option string)
    (rest : list (option string)) : option string :=
  match rest with
  | [] => best
  | x :: rest' =>
      if Nat.ltb (count_of best all) (count_of x all)
      then most_common all x rest'
      else most_common all best rest'
  end.

(** [len(set(alphas)) > 1] *)
Definition several (alphas : list (option string)) : bool :=
  match alphas with
  | [] => false
  | a :: rest => negb (forallb (option_string_eqb a) rest)
  end.

Section Palette.

(** [str(value)] of a list, which [listify] starts from. *)
Variable str_of_list : list value -> string.

Definition listify (l : list value) : string :=
  ("^SUBLIST" ++ replace "'" "" (replace " " "" (str_of_list l)))%string.

(** The groups of [cleanup_variables]: base colour to the paths that carry
    it, looked up with [==]. *)
Definition groups : Type := list (value * list (key * value)).

Fixpoint group_add (g : groups) (color : value) (entry : key * value) : groups :=
  match g with
  | [] => [(color, [entry])]
  | (c, es) :: g' =>
      if py_eq color c then (c, es ++ [entry]) :: g'
      else (c, es) :: group_add g' color entry
  end.

(** The first loop over one variable's paths: what disagrees with the
    representative goes to the overrides, the rest is grouped. *)
Fixpoint split_paths (shown : option value) (paths : dict) (overrides : dict)
    (g : groups) : outcome (dict * groups) :=
  match paths with
  | [] => Ret (overrides, g)
  | (k, v) :: paths' =>
      v <- match v with
           | VList l =>
               match shown with
               | None => Raise KeyError (* variables[var_name] *)
               | Some rep =>
                   if py_eq (VStr (listify l)) rep then Ret (VStr (listify l))
                   else Raise ValueError
               end
           | _ => Ret v
           end ;;
      color <- base_or_self v ;;
      templ_color <- base_or_self (match shown with Some rep => rep | None => VNone end) ;;
      if negb (py_eq color templ_color) then
        alpha <- (if is_hex_color color then get_alpha v else Ret None) ;;
        let new_value :=
          match alpha, color with
          | Some al, VStr c =>
              if is_empty al then color
              else VStr (c ++ (if startswith "$" c then ".." else "") ++ al)
          | _, _ => color
          end in
        split_paths shown paths' (Dict.set overrides k new_value) g
      else
        match color with
        | VList _ | VDict _ => Raise TypeError (* not hashable *)
        | _ => split_paths shown paths' overrides (group_add g color (k, v))
        end
  end.

Fixpoint hex_alphas (group : list (key * value)) : outcome (list (option string)) :=
  match group with
  | [] => Ret []
  | (_, v) :: group' =>
      if is_hex_color v
      then a <- get_alpha v ;; rest <- hex_alphas group' ;; Ret (a :: rest)
      else hex_alphas group'
  end.

(** The paths of a group whose alpha is not the most common one leave the
    variable's map and become overrides. *)
Fixpoint demote (common : option string) (group : list (key * value))
    (overrides paths : dict) : outcome (dict * dict) :=
  match group with
  | [] => Ret (overrides, paths)
  | (k, v) :: group' =>
      alpha <- get_alpha v ;;
      if option_string_eqb alpha common then demote common group' overrides paths
      else
        if Dict.has paths k
        then demote common group' (Dict.set overrides k v) (Dict.del paths k)
        else Raise KeyError
  end.

Fixpoint settle_groups (g : groups) (overrides paths : dict) : outcome (dict * dict) :=
  match g with
  | [] => Ret (overrides, paths)
  | (_, group) :: g' =>
      if Nat.ltb 1 (List.length group) then
        alphas <- hex_alphas group ;;
        if several alphas then
          r <- demote (most_common alphas (hd None alphas) (tl alphas)) group overrides paths ;;
          settle_groups g' (fst r) (snd r)
        else settle_groups g' overrides paths
      else settle_groups g' overrides paths
  end.

Definition var_map_t : Type := list (option string * dict).

(** [cleanup_variables]: the overrides and the variable map afterwards. *)
Fixpoint cleanup_variables (var_map : var_map_t) (variables : list (string * value))
    (overrides : dict) : outcome (dict * var_map_t) :=
  match var_map with
  | [] => Ret (overrides, [])
  | (var_name, paths) :: var_map' =>
      let shown := match var_name with Some n => assoc variables n | None => None end in
      r <- split_paths shown paths overrides [] ;;
      r <- settle_groups (snd r) (fst r) paths ;;
      rest <- cleanup_variables var_map' variables (fst r) ;;
      Ret (fst rest, (var_name, snd r) :: snd rest)
  end.

Record counted : Type := {
  colors : counter;
  sorted_variables : list (string * value);
  all_overrides : dict;
  var_map_after : var_map_t
}.

(** [handle_colors] up to the line that names the palette: the three
    counting loops, with [cleanup_variables] before the third. *)
Definition count_colors (variables : list (string * histogram)) (overrides : dict)
    (var_map : var_map_t) : outcome counted :=
  colors <- count_variables variables [] ;;
  colors <- count_overrides overrides colors ;;
  sorted_variables <- representatives variables ;;
  r <- cleanup_variables var_map sorted_variables overrides ;;
  colors <- count_overrides (fst r) colors ;;
  Ret {| colors := colors; sorted_variables := sorted_variables;
         all_overrides := fst r; var_map_after := snd r |}.

(** [sorted(..., key=lambda x: x[1], reverse=True)]: a stable sort, so
    entries with equal counts keep their order.  [place] puts an entry that
    came before all of [l] into the sorted [l]: after the larger counts and
    before the rest. *)
Fixpoint place (x : string * Z) (l : counter) : counter :=
  match l with
  | [] => [x]
  | y :: l' => if snd x <? snd y then y :: place x l' else x :: y :: l'
  end.

Fixpoint sorted_desc (l : counter) : counter :=
  match l with
  | [] => []
  | x :: l' => place x (sorted_desc l')
  end.

(** The order of the ranking, and the entries with one count. *)
Definition at_least (a b : string * Z) : Prop := snd b <= snd a.

Definition counted_as (n : Z) (e : string * Z) : bool := snd e =? n.

Definition above (threshold : Z) (entry : string * Z) : bool := threshold <? snd entry.

Definition color_name (index : nat) : string :=
  ("$colors.color" ++ str_of_int (Z.of_nat index + 1))%string.

Fixpoint name_from (index : nat) (l : list string) : list (string * string) :=
  match l with
  | [] => []
  | color :: l' => (color, color_name index) :: name_from (S index) l'
  end.

(** The two lines under [# Creates a color map]. *)
Definition palette (threshold : Z) (colors : counter) : list (string * string) :=
  name_from 0 (map fst (sorted_desc (filter (above threshold) colors))).

Fixpoint palette_get (p : list (string * string)) (color : string) : option string :=
  match p with
  | [] => None
  | (k, name) :: p' => if String.eqb color k then Some name else palette_get p' color
  end.

(** [colors.get(get_base_color(value), value)] *)
Definition named_or_self (p : list (string * string)) (s : string) : outcome string :=
  base <- get_base_color s ;;
  Ret (match palette_get p base with Some name => name | None => s end).

Fixpoint rename_variables (p : list (string * string)) (vars : list (string * value))
    : outcome (list (string * value)) :=
  match vars with
  | [] => Ret []
  | (var_name, v) :: vars' =>
      v' <- match v with
            | VStr s => if is_hex_text s then (n <- named_or_self p s ;; Ret (VStr n)) else Ret v
            | _ => Ret v
            end ;;
      rest <- rename_variables p vars' ;;
      Ret ((var_name, v') :: rest)
  end.

Definition rename_override (p : list (string * string)) (v : value) : outcome value :=
  match v with
  | VStr s =>
      if is_hex_text s then
        color <- named_or_self p s ;;
        alpha <- get_alpha v ;;
        let dollar := startswith "$" color in
        let can_add_alpha :=
          (negb (is_empty color) &&
           ((dollar && negb (contains ".." color)) ||
            (negb dollar && Nat.ltb (String.length color) 9)))%bool in
        match alpha with
        | Some al =>
            if (negb (is_empty al) && can_add_alpha)%bool
            then Ret (VStr (color ++ (if dollar then ".." else "") ++ al))
            else Ret (VStr color)
        | None => Ret (VStr color)
        end
      else Ret v
  | _ => Ret v
  end.

Fixpoint rename_overrides (p : list (string * string)) (overrides : dict) (acc : dict)
    : outcome dict :=
  match overrides with
  | [] => Ret acc
  | (k, v) :: overrides' =>
      v' <- rename_override p v ;;
      rename_overrides p overrides' (Dict.set acc k v')
  end.

Definition handle_colors (variables : list (string * histogram)) (overrides : dict)
    (var_map : var_map_t) (threshold : Z)
    : outcome (list (string * string) * list (string * value) * dict) :=
  c <- count_colors variables overrides var_map ;;
  let names := palette threshold (colors c) in
  vars <- rename_variables names (sorted_variables c) ;;
  ovs <- rename_overrides names (all_overrides c) [] ;;
  Ret (names, vars, ovs).

End Palette.

(** ** Shapes of input used in the statements *)

Fixpoint all_chars (p : ascii -> bool) (s : string) : bool :=
  match s with
  | EmptyString => true
  | String c s' => (p c && all_chars p s')%bool
  end.

(** A variable name as the placeholder patterns read it: one or more of
    [[a-zA-Z0-9._]]. *)
Definition is_name (s : string) : bool :=
  (negb (is_empty s) && all_chars is_name_char s)%bool.

(** The text of a fallback chain, [$first, $second, ...]. *)
Fixpoint chain_rest (others : list string) : string :=
  match others with
  | [] => EmptyString
  | n :: others' => ", $" ++ n ++ chain_rest others'
  end.

Definition chain (first : string) (others : list string) : string :=
  "$" ++ first ++ chain_rest others.

(** A text stops a name when it is empty or begins outside the class. *)
Definition stops_name (rest : string) : Prop :=
  match rest with
  | EmptyString => True
  | String c _ => is_name_char c = false
  end.

(** The values that the loop of [replacer] passes over: [None], booleans,
    and what is neither text, number nor list. *)
Definition passed_over (v : value) : bool :=
  match v with
  | VNone | VBool _ | VDict _ => true
  | _ => false
  end.

(** A path segment that [parse_full_key] reads as the name it is: no dot,
    no opening bracket, not a number. *)
Definition plain_segment (p : string) : bool :=
  (negb (startswith "[" p) && negb (isdigit p) && negb (contains "." p))%bool.

(** A key of the theme that is read back as itself from the path the
    deletion scan writes for it: with a dot it is written in brackets, and
    must not hold a closing bracket before a dot; without one it is written
    bare, and must be a plain segment. *)
Definition readable_key (k : string) : bool :=
  if contains "." k then negb (contains "]." k)
  else (negb (startswith "[" k) && negb (isdigit k))%bool.

(** Reading along a path through tables and lists, and the tree with the
    value at the end of a path replaced. *)
Fixpoint follow (path : list key) (val : value) : option value :=
  match path with
  | [] => Some val
  | k :: rest =>
      if is_container val then
        match getitem val k with
        | Ret child => follow rest child
        | _ => None
        end
      else None
  end.

Fixpoint put (path : list key) (val new : value) : value :=
  match path with
  | [] => new
  | k :: rest =>
      match getitem val k with
      | Ret child => with_child val k (put rest child new)
      | _ => val
      end
  end.

Definition is_table (v : value) : bool :=
  match v with VDict _ => true | _ => false end.

(** The value a direct override stores below a dotted key: [False] has
    become [None] by then. *)
Definition stored (override_value : value) : value :=
  match override_value with
  | VBool false => VNone
  | _ => override_value
  end.

(** An override value that is taken as it is: not a text with a dollar
    sign. *)
Definition literal (override_value : value) : bool :=
  match override_value with
  | VStr s => negb (contains "$" s)
  | _ => true
  end.

(** The tables a direct override creates for the segments of a path, around
    the value. *)
Fixpoint nest (path : list key) (v : value) : value :=
  match path with
  | [] => v
  | k :: rest => VDict [(k, nest rest v)]
  end.

(** The last segment of a path can be assigned in the container that holds
    it: any position of a list, and any key of a table but the empty text
    and the number zero, which the test [part and part in current] passes
    over. *)
Fixpoint assignable (path : list key) (val : value) : bool :=
  match path with
  | [] => false
  | k :: rest =>
      match rest with
      | [] => match val with VList _ => true | _ => key_truthy k end
      | _ =>
          match getitem val k with
          | Ret child => assignable rest child
          | _ => false
          end
      end
  end.

(** The line feed, which [$] lets a text end with. *)
Definition newline : string := String (ascii_of_nat 10) EmptyString.

Definition is_name_key (k : key) : bool :=
  match k with KStr _ => true | KInt _ => false end.

(** The keys that a pattern without a star selects: the pattern itself, and
    the pattern followed by a line feed. *)
Definition selected_by (pattern : string) (k : key) : bool :=
  (key_eqb k (KStr pattern) || key_eqb k (KStr (pattern ++ newline)))%bool.

Definition literal_pieces (pattern : string) : list Regex.piece :=
  map (fun c => Regex.One (Regex.Lit c)) (list_ascii_of_string pattern).

Fixpoint distinct (l : list key) : bool :=
  match l with
  | [] => true
  | k :: l' => (negb (existsb (key_eqb k) l') && distinct l')%bool
  end.

Fixpoint size (v : value) : nat :=
  match v with
  | VList l => S (fold_right (fun x acc => size x + acc)%nat 0%nat l)
  | VDict d =>
      S (fold_right (fun (kv : key * value) acc => (let (_, x) := kv in size x) + acc)%nat
           0%nat d)
  | _ => 1%nat
  end.

(** A value as JSON gives it: the keys of every table in it are names, and
    no table has a name twice. *)
Fixpoint tidy (v : value) : bool :=
  match v with
  | VDict d =>
      (forallb is_name_key (Dict.keys d) && distinct (Dict.keys d) &&
       forallb (fun kv : key * value => let (_, x) := kv in tidy x) d)%bool
  | VList l => forallb tidy l
  | _ => true
  end.

(** The names the block [# Apply overrides] asks for, but the fifth, and
    the fifth as it is spelt there. *)
Definition other_override_tables : list string :=
  ["overrides"; "overrides-regex"; "syntax-overrides"; "syntax-overrides-regex";
   "style-overrides-regex"].

Definition lacks (d : dict) (name : string) : Prop := Dict.has d (KStr name) = false.

(** A stand-in for [re.match] on the expressions of the binding file, for
    examples that apply none. *)
Definition no_re_match (regex text : string) : outcome bool := Raise ReError.

(** The total frequency of a colour as the specification counts it: the
    counts of the histogram entries whose value has that base colour, plus
    one for each override whose value has it. *)
Definition has_base (color : string) (v : value) : bool :=
  match v with
  | VStr s =>
      if is_hex_text s then
        match get_base_color s with
        | Ret b => String.eqb b color
        | _ => false
        end
      else false
  | _ => false
  end.

Definition histogram_frequency (color : string) (h : histogram) : Z :=
  fold_right (fun (e : value * Z) acc => (if has_base color (fst e) then snd e else 0) + acc) 0 h.

Definition total_frequency (variables : list (string * histogram)) (overrides : dict)
    (color : string) : Z :=
  fold_right (fun (vh : string * histogram) acc => histogram_frequency color (snd vh) + acc)
    0 variables
  + Z.of_nat (List.length (filter (fun kv : key * value => has_base color (snd kv)) overrides)).

(** The keys that [button.*] selects: [button.] followed by word
    characters, and nothing else but one line feed at the very end, which
    [$] lets through. *)
Fixpoint word_tail (s : string) : bool :=
  match s with
  | EmptyString => true
  | String c s' =>
      ((Nat.eqb (code c) 10 && is_empty s') || (is_word c && word_tail s'))%bool
  end.

Definition button_key (t : string) : bool :=
  (startswith "button." t && word_tail (drop 7 t))%bool.

(** The texts that an expression of the fragment describes, piece by
    piece. *)
Inductive matches : list Regex.piece -> string -> Prop :=
| matches_nil : matches [] EmptyString
| matches_one (a : Regex.atom) (c : ascii) (ps : list Regex.piece) (t : string) :
    Regex.atom_ok a c = true -> matches ps t -> matches (Regex.One a :: ps) (String c t)
| matches_star_stop (a : Regex.atom) (ps : list Regex.piece) (t : string) :
    matches ps t -> matches (Regex.Star a :: ps) t
| matches_star_more (a : Regex.atom) (c : ascii) (ps : list Regex.piece) (t : string) :
    Regex.atom_ok a c = true -> matches (Regex.Star a :: ps) t ->
    matches (Regex.Star a :: ps) (String c t).

(** The expression without the [^] that may begin it. *)
Definition regex_body (regex : string) : string :=
  if startswith "^" regex then drop 1 regex else regex.

(** [re.match] as the documentation has it: the expression describes some
    head of the text, whatever follows; an expression that ends with [$]
    asks that nothing follows, or one line feed. *)
Definition matches_head (regex text : string) : Prop :=
  exists ps anchored pre rest,
    Regex.parse (regex_body regex) = Some (ps, anchored) /\
    text = (pre ++ rest)%string /\
    matches ps pre /\
    (anchored = true -> Regex.at_end rest = true).



(** Whether the expression is matched at the head of the text, [false] for
    an expression outside the fragment. *)
Definition hit (regex text : string) : bool :=
  match Regex.parse (regex_body regex) with
  | Some (ps, anchored) => Regex.match_pieces ps anchored text
  | None => false
  end.

(** The loop of [get_delete_keys] over the items of a template list, as a
    function of the two lists seen side by side: a table of the template is
    scanned against the theme's value at the same position, any other item
    leaves that position alone, and the items beyond the theme's list are
    appended to it. *)
Section Zip.

Variable scan : value -> value -> string -> outcome (list string * value).
Variable full_key : string.


End Zip.





(** ** Inputs of the examples *)

Definition bindings_a : value := VDict [(KStr "a", VStr "#112233")].

Definition bindings_c : value := VDict [(KStr "c", VStr "#FF0000")].

Definition bindings_flag (b : bool) : value := VDict [(KStr "a", VBool b)].

Definition buttons_theme : dict :=
  [(KStr "button.background", VStr "#000"); (KStr "button.border", VNone);
   (KStr "buttons.background", VStr "#111")].

(** Stand-ins for the two printing functions the model leaves open; the
    examples print no float and no list. *)
Definition no_float_text (f : float) : string := "0.0".

Definition no_list_text (l : list value) : string := "[]".

(** One variable seen three times as green, and two overrides that are
    red. *)
Definition green_variable : list (string * histogram) := [("x", [(VStr "#00FF00", 3)])].

Definition red_overrides : dict := [(KStr "a", VStr "#FF0000"); (KStr "b", VStr "#FF0000")].

(** * Properties *)

Lemma key_eqb_spec (a b : key) : reflect (a = b) (key_eqb a b).
Proof.
  destruct a as [s|n], b as [t|m]; simpl; try (constructor; congruence).
  - destruct (String.eqb_spec s t); constructor; congruence.
  - destruct (Z.eqb_spec n m); constructor; congruence.
Qed.

Lemma key_eqb_refl (a : key) : key_eqb a a = true.
Proof. destruct (key_eqb_spec a a); congruence. Qed.


(** ** Resolution and substitution *)

Lemma resolve_plain_top (name : string) (d : dict) :
  split_on "." name = [name] ->
  resolve_plain name (VDict d) =
  match Dict.get d (KStr name) with Some v => v | None => VNone end.
Proof.
  intros Hsplit. unfold resolve_plain. rewrite Hsplit. simpl.
  destruct (Dict.get d (KStr name)); reflexivity.
Qed.

(** A text made of one quoted token is one match of [FILE_PATTERN]. *)
Lemma re_sub_one_token (repl : string -> outcome string) (name : string) :
  FILE_PATTERN (quoted name) = Some (name, S (S (String.length name))) ->
  re_sub FILE_PATTERN repl (quoted name) = (r <- repl name ;; Ret r).
Proof.
  intros Hm. unfold re_sub, quoted in *. cbn [re_sub_from]. rewrite Hm.
  destruct (repl name) as [r| |]; cbn [bind]; try reflexivity.
  assert (Hskip : forall t k, (String.length t <= k)%nat ->
                    re_sub_from FILE_PATTERN repl k t = Ret EmptyString).
  { induction t as [|c t IH]; intros k Hk; [reflexivity|].
    destruct k as [|k]; cbn in Hk; [lia|]. cbn [re_sub_from]. apply IH. lia. }
  rewrite Hskip.
  - cbn [bind]. f_equal. induction r as [|c r IH]; [reflexivity|].
    cbn. f_equal. exact IH.
  - clear. induction name as [|c name IH]; cbn in *; lia.
Qed.

(** One candidate without a comma: the loop of [replacer] runs once. *)
Lemma replacer_one (float_repr : float -> string) self fuel toml quotes (name : string) :
  map strip (split_on "," (String "$" name)) = [String "$" name] ->
  replacer float_repr self fuel toml quotes (String "$" name) =
  try_candidates float_repr self fuel toml quotes (String "$" name) [String "$" name].
Proof. intros H. unfold replacer. rewrite H. reflexivity. Qed.

(** The comparison that guards the last resort of [replacer] is made
    between the candidate without its dollar and the last candidate with it. *)
Lemma last_resort_guard (name : string) :
  String.eqb name (String "$" name) = false.
Proof.
  destruct (String.eqb_spec name (String "$" name)) as [E|]; [|reflexivity].
  exfalso. apply (f_equal String.length) in E. cbn in E. lia.
Qed.

(** C2. The placeholder [$a..7f] resolves to [#1122337f] when [a] is bound to
    the string [#112233], and the quoted token is replaced by that string,
    quoted; when [a] is unbound the resolver returns [None] and the token is
    replaced by [null]. *)
Theorem alpha_token_round_trip (float_repr : float -> string) (fuel : nat) (toml : dict) :
  (Dict.get toml (KStr "a") = Some (VStr "#112233") ->
   resolve_variable fuel "a..7f" (VDict toml) false = Ret (VStr "#1122337f") /\
   substitute_variables float_repr (S fuel) (quoted "$a..7f") (VDict toml) false true
   = Ret (quoted "#1122337f")) /\
  (Dict.get toml (KStr "a") = None ->
   resolve_variable fuel "a..7f" (VDict toml) false = Ret VNone /\
   substitute_variables float_repr (S fuel) (quoted "$a..7f") (VDict toml) false true
   = Ret "null").
Proof.
  assert (Hname : replace (".." ++ "7f") "" "a..7f" = "a") by reflexivity.
  assert (Hal : search_alpha "a..7f" = Some "7f") by reflexivity.
  assert (Hres : forall v,
             Dict.get toml (KStr "a") = v ->
             resolve_variable fuel "a..7f" (VDict toml) false =
             (w <- follow_refs fuel (VDict toml)
                     (match v with Some x => x | None => VNone end) ;;
              if negb (truthy w) then Ret VNone
              else match w with
                   | VStr s => match search_alpha s with
                               | Some _ => Ret w
                               | None => Ret (VStr (s ++ "7f"))
                               end
                   | _ => Raise TypeError
                   end)).
  { intros v Hv. unfold resolve_variable. rewrite Hal, Hname.
    rewrite resolve_plain_top by reflexivity. rewrite Hv. reflexivity. }
  assert (Hsub : forall r,
             resolve_variable fuel "a..7f" (VDict toml) false = Ret r ->
             substitute_variables float_repr (S fuel) (quoted "$a..7f") (VDict toml) false true
             = try_candidates float_repr
                 (fun t q => substitute_variables float_repr fuel t (VDict toml) true q)
                 fuel (VDict toml) true "$a..7f" ["$a..7f"]).
  { intros r _. cbn [substitute_variables].
    rewrite re_sub_one_token by reflexivity.
    rewrite replacer_one by reflexivity.
    destruct (try_candidates _ _ _ _ _ _ _); reflexivity. }
  split; intros Hget.
  - assert (R : resolve_variable fuel "a..7f" (VDict toml) false = Ret (VStr "#1122337f")).
    { rewrite (Hres _ Hget). destruct fuel; reflexivity. }
    split; [exact R|].
    rewrite (Hsub _ R). cbn [try_candidates].
    change (if startswith "$" "$a..7f" then drop 1 "$a..7f" else "$a..7f") with "a..7f".
    rewrite R. reflexivity.
  - assert (R : resolve_variable fuel "a..7f" (VDict toml) false = Ret VNone).
    { rewrite (Hres _ Hget). destruct fuel; reflexivity. }
    split; [exact R|].
    rewrite (Hsub _ R). cbn [try_candidates].
    change (if startswith "$" "$a..7f" then drop 1 "$a..7f" else "$a..7f") with "a..7f".
    rewrite R. reflexivity.
Qed.

Lemma alpha_token_round_trip_witness :
  (resolve_variable 1 "a..7f" bindings_a false = Ret (VStr "#1122337f") /\
   substitute_variables no_float_text 2 (quoted "$a..7f") bindings_a false true
   = Ret (quoted "#1122337f")) /\
  (resolve_variable 1 "a..7f" (VDict []) false = Ret VNone /\
   substitute_variables no_float_text 2 (quoted "$a..7f") (VDict []) false true
   = Ret "null").
Proof.
  split.
  - apply (alpha_token_round_trip no_float_text 1 [(KStr "a", VStr "#112233")]).
    reflexivity.
  - apply (alpha_token_round_trip no_float_text 1 []).
    reflexivity.
Defined.

(** C1. The last resort of [replacer] is never reached.  Whenever [c] is
    bound to a string, so that [c] resolves and [c.d] does not, the chain
    [$c.d] is replaced by [null], not by the value of [c]: the guard
    compares the candidate without its dollar to the last candidate with
    it, see [last_resort_guard]. *)
Theorem last_resort_not_taken (float_repr : float -> string) (fuel : nat)
    (toml : dict) (s : string) :
  Dict.get toml (KStr "c") = Some (VStr s) ->
  resolve_variable fuel "c.d" (VDict toml) false = Ret VNone /\
  resolve_variable fuel "c" (VDict toml) false = Ret (VStr s) /\
  substitute_variables float_repr (S fuel) (quoted "$c.d") (VDict toml) false true
  = Ret "null".
Proof.
  intros Hc.
  assert (Rcd : resolve_variable fuel "c.d" (VDict toml) false = Ret VNone).
  { unfold resolve_variable, resolve_plain.
    change (search_alpha "c.d") with (@None string).
    change (split_on "." "c.d") with ["c"; "d"].
    cbn [walk_parts]. rewrite Hc. reflexivity. }
  split; [exact Rcd|]. split.
  - unfold resolve_variable. change (search_alpha "c") with (@None string).
    rewrite resolve_plain_top by reflexivity. rewrite Hc. reflexivity.
  - cbn [substitute_variables].
    rewrite re_sub_one_token by reflexivity.
    rewrite replacer_one by reflexivity.
    cbn [try_candidates].
    change (if startswith "$" "$c.d" then drop 1 "$c.d" else "$c.d") with "c.d".
    rewrite last_resort_guard, Rcd. reflexivity.
Qed.

Lemma last_resort_not_taken_witness :
  resolve_variable 1 "c.d" bindings_c false = Ret VNone /\
  resolve_variable 1 "c" bindings_c false = Ret (VStr "#FF0000") /\
  substitute_variables no_float_text 2 (quoted "$c.d") bindings_c false true = Ret "null".
Proof.
  apply (last_resort_not_taken no_float_text 1 [(KStr "c", VStr "#FF0000")] "#FF0000").
  reflexivity.
Defined.

(** Without an alpha token a boolean is passed over and the token becomes
    [null]. *)
Lemma boolean_without_alpha_is_null (float_repr : float -> string) (fuel : nat) (b : bool) :
  substitute_variables float_repr (S fuel) (quoted "$a") (bindings_flag b) false true
  = Ret "null".
Proof.
  cbn [substitute_variables].
  rewrite re_sub_one_token by reflexivity.
  rewrite replacer_one by reflexivity.
  destruct b; reflexivity.
Qed.

(** C8. With an alpha token, a variable bound to [True] makes the
    substitution raise [TypeError]: [resolve_variable] hands the boolean to
    [re.search] before [replacer] can pass over it. *)
Theorem boolean_with_alpha_raises (float_repr : float -> string) (fuel : nat) :
  resolve_variable fuel "a..7f" (bindings_flag true) false = Raise TypeError /\
  substitute_variables float_repr (S fuel) (quoted "$a..7f") (bindings_flag true) false true
  = Raise TypeError.
Proof.
  assert (R : resolve_variable fuel "a..7f" (bindings_flag true) false = Raise TypeError).
  { destruct fuel; reflexivity. }
  split; [exact R|].
  cbn [substitute_variables].
  rewrite re_sub_one_token by reflexivity.
  rewrite replacer_one by reflexivity.
  cbn [try_candidates].
  change (if startswith "$" "$a..7f" then drop 1 "$a..7f" else "$a..7f") with "a..7f".
  rewrite R. reflexivity.
Qed.

(** ** Deletions and direct overrides *)

Lemma get_set_same (d : dict) (k : key) (v : value) :
  Dict.get (Dict.set d k v) k = Some v.
Proof.
  induction d as [|[k' v'] d IH]; simpl.
  - rewrite key_eqb_refl. reflexivity.
  - destruct (key_eqb k k') eqn:E; simpl; rewrite E; [reflexivity | exact IH].
Qed.

Lemma get_set_other (d : dict) (k k' : key) (v : value) :
  k <> k' -> Dict.get (Dict.set d k' v) k = Dict.get d k.
Proof.
  intros Hne. induction d as [|[k0 v0] d IH]; simpl.
  - destruct (key_eqb_spec k k'); [contradiction | reflexivity].
  - destruct (key_eqb_spec k' k0) as [E|E]; simpl.
    + subst k0. destruct (key_eqb_spec k k'); [contradiction | reflexivity].
    + destruct (key_eqb k k0); [reflexivity | exact IH].
Qed.

Lemma keys_set_present (d : dict) (k : key) (v : value) :
  Dict.has d k = true -> Dict.keys (Dict.set d k v) = Dict.keys d.
Proof.
  unfold Dict.has, Dict.keys. induction d as [|[k' v'] d IH]; simpl; [discriminate|].
  destruct (key_eqb k k') eqn:E; simpl; intros H; [reflexivity|].
  f_equal. apply IH. exact H.
Qed.

(** C5. On a key without a dot, [apply_direct_overrides] stores the boolean
    [False] as it is: the assignment is made, and the loop moves on, before
    the line that turns [False] into [None]. *)
Theorem false_on_plain_key_is_kept (fuel : nat) (theme : dict) (toml_data : value)
    (k : string) :
  contains "." k = false ->
  apply_direct_overrides fuel (VDict theme) toml_data (VDict [(KStr k, VBool false)])
  = Ret (VDict (Dict.set theme (KStr k) (VBool false))) /\
  Dict.get (Dict.set theme (KStr k) (VBool false)) (KStr k) = Some (VBool false).
Proof.
  intros Hk. split; [|apply get_set_same].
  cbn [apply_direct_overrides fold_outcome apply_direct_override bind].
  rewrite Hk. reflexivity.
Qed.

Lemma false_on_plain_key_is_kept_witness :
  apply_direct_overrides 1 (VDict []) (VDict []) (VDict [(KStr "foo", VBool false)])
  = Ret (VDict [(KStr "foo", VBool false)]) /\
  Dict.get [(KStr "foo", VBool false)] (KStr "foo") = Some (VBool false).
Proof.
  apply (false_on_plain_key_is_kept 1 [] (VDict []) "foo"). reflexivity.
Defined.

(** On a dotted key the same value is stored as [None]. *)
Lemma false_on_dotted_key_is_null (fuel : nat) (toml_data : value) :
  apply_direct_overrides fuel (VDict [(KStr "style", VDict [])]) toml_data
    (VDict [(KStr "style.foo", VBool false)])
  = Ret (VDict [(KStr "style", VDict [(KStr "foo", VNone)])]).
Proof. reflexivity. Qed.

(** C6. A deletion path whose first container is missing is not skipped:
    the walk stays where it is and the last segment is removed from there.
    With [deletions.keys = ["a.b"]] and no [a] in the theme, the top-level
    key [b] is removed. *)
Theorem deletion_with_missing_container (theme : dict) :
  Dict.has theme (KStr "a") = false ->
  Dict.has theme (KStr "b") = true ->
  apply_deletions (VDict theme)
    (VDict [(KStr "deletions", VDict [(KStr "keys", VList [VStr "a.b"])])])
  = Ret (VDict (Dict.del theme (KStr "b"))).
Proof.
  intros Ha Hb.
  assert (E : forall toml_keys,
             apply_deletions (VDict theme)
               (VDict [(KStr "deletions", VDict [(KStr "keys", VList [toml_keys])])])
             = (t <- apply_deletion (VDict theme) toml_keys ;; Ret t)) by reflexivity.
  rewrite E. unfold apply_deletion.
  change (parse_full_key "a.b") with (Ret (A:=list key) [KStr "a"; KStr "b"]).
  cbn [bind delete_walk contains_key]. rewrite Ha. cbn [negb bind].
  rewrite Hb. cbn [delitem bind]. rewrite Hb. reflexivity.
Qed.

Lemma deletion_with_missing_container_witness :
  apply_deletions (VDict [(KStr "b", VInt 1)])
    (VDict [(KStr "deletions", VDict [(KStr "keys", VList [VStr "a.b"])])])
  = Ret (VDict []).
Proof.
  apply (deletion_with_missing_container [(KStr "b", VInt 1)]); reflexivity.
Defined.

(** ** Wildcard overrides *)

Lemma filter_outcome_total {A : Type} (f : A -> outcome bool) (g : A -> bool) (l : list A) :
  (forall a, In a l -> f a = Ret (g a)) ->
  filter_outcome f l = Ret (filter g l).
Proof.
  induction l as [|a l IH]; intros H; simpl; [reflexivity|].
  rewrite (H a (or_introl eq_refl)). simpl.
  rewrite IH by (intros b Hb; apply H; right; exact Hb). simpl.
  destruct (g a); reflexivity.
Qed.

Lemma get_in_keys (d : dict) (k : key) :
  In k (Dict.keys d) <-> exists v, Dict.get d k = Some v.
Proof.
  unfold Dict.keys. induction d as [|[k' v'] d IH]; simpl.
  - split; [contradiction | intros [v H]; discriminate].
  - destruct (key_eqb_spec k k') as [E|E].
    + split; [intros _; eauto | intros _; left; congruence].
    + rewrite <- IH. split; [intros [H|H]; [congruence | exact H] | intros H; right; exact H].
Qed.

Lemma has_in_keys (d : dict) (k : key) :
  In k (Dict.keys d) -> Dict.has d k = true.
Proof.
  intros H. apply get_in_keys in H. destruct H as [v H].
  unfold Dict.has. rewrite H. reflexivity.
Qed.

Lemma existsb_key_in (k : key) (ks : list key) :
  existsb (key_eqb k) ks = true <-> In k ks.
Proof.
  rewrite existsb_exists. split.
  - intros [x [Hin E]]. destruct (key_eqb_spec k x); [subst; exact Hin | discriminate].
  - intros H. exists k. split; [exact H | apply key_eqb_refl].
Qed.

Section WildcardString.

Variable s : string.

Lemma override_matching_key_string (d : dict) (k : key) (cur : value) :
  Dict.get d k = Some cur ->
  override_matching_key (VStr s) (VDict d) k = Ret (VDict (Dict.set d k (settled s cur))).
Proof.
  intros Hget. unfold override_matching_key, settled. cbn [getitem].
  rewrite Hget. cbn [bind type_of].
  assert (Hsame : Dict.set d k cur = d).
  { clear -Hget. induction d as [|[k' v'] d IH]; simpl in *; [discriminate|].
    destruct (key_eqb_spec k k') as [E|E].
    - congruence.
    - f_equal. apply IH. exact Hget. }
  destruct (pytype_eqb (type_of cur) TStr || is_none cur)%bool; [reflexivity|].
  destruct (negb (truthy (VStr s))); [reflexivity|].
  rewrite Hsame. reflexivity.
Qed.

Lemma fold_matching_keys (ks : list key) :
  forall d : dict,
    NoDup ks ->
    (forall k, In k ks -> In k (Dict.keys d)) ->
    exists d',
      fold_outcome (override_matching_key (VStr s)) ks (VDict d) = Ret (VDict d') /\
      Dict.keys d' = Dict.keys d /\
      forall k cur, Dict.get d k = Some cur ->
        Dict.get d' k = Some (if existsb (key_eqb k) ks then settled s cur else cur).
Proof.
  induction ks as [|k0 ks IH]; intros d Hnd Hin.
  - exists d. repeat split; try reflexivity. intros k cur H. exact H.
  - inversion Hnd as [|? ? Hnotin Hnd']; subst.
    destruct (proj1 (get_in_keys d k0) (Hin k0 (or_introl eq_refl))) as [cur0 Hcur0].
    cbn [fold_outcome]. rewrite (override_matching_key_string d k0 cur0 Hcur0).
    cbn [bind].
    assert (Hkeys : Dict.keys (Dict.set d k0 (settled s cur0)) = Dict.keys d).
    { apply keys_set_present. unfold Dict.has. rewrite Hcur0. reflexivity. }
    destruct (IH (Dict.set d k0 (settled s cur0)) Hnd') as [d' [Hfold [Hk Hget]]].
    { intros k Hk. rewrite Hkeys. apply Hin. right. exact Hk. }
    exists d'. split; [exact Hfold|]. split; [congruence|].
    intros k cur Hc. cbn [existsb].
    destruct (key_eqb_spec k k0) as [E|E].
    + subst k0. assert (cur = cur0) by congruence. subst cur0.
      rewrite (Hget k (settled s cur)) by apply get_set_same.
      destruct (existsb (key_eqb k) ks) eqn:Ex; [|reflexivity].
      apply existsb_key_in in Ex. contradiction.
    + cbn [orb]. apply Hget. rewrite get_set_other by exact E. exact Hc.
Qed.

End WildcardString.

Lemma names_variable_plain (s : string) :
  contains "$" s = false -> names_variable (VStr s) = Ret false.
Proof.
  intros H. unfold names_variable. cbn [truthy contains_key].
  destruct (negb (is_empty s)); [rewrite H|]; reflexivity.
Qed.

(** A string override under a wildcard key: the keys that match hold the
    settled value, the others what they held. *)
Lemma apply_override_string (fuel : nat) (toml_data : value) (pattern s : string)
    (m : string -> bool) (d : dict) :
  contains "$" s = false ->
  (forall t, match_wildcard pattern (KStr t) = Ret (m t)) ->
  NoDup (Dict.keys d) ->
  (forall k, In k (Dict.keys d) -> exists t, k = KStr t) ->
  exists d',
    apply_override fuel toml_data (VDict d) (KStr pattern, VStr s) = Ret (VDict d') /\
    Dict.keys d' = Dict.keys d /\
    forall t cur, Dict.get d (KStr t) = Some cur ->
      Dict.get d' (KStr t) = Some (if m t then settled s cur else cur).
Proof.
  intros Hs Hm Hnd Hstr.
  set (mk := fun k => match k with KStr t => m t | KInt _ => false end).
  assert (Hfind : find_matching_keys (VDict d) pattern = Ret (filter mk (Dict.keys d))).
  { cbn [find_matching_keys]. apply filter_outcome_total.
    intros k Hk. destruct (Hstr k Hk) as [t ->]. apply Hm. }
  destruct (fold_matching_keys s (filter mk (Dict.keys d)) d) as [d' [Hfold [Hk Hget]]].
  { apply NoDup_filter. exact Hnd. }
  { intros k Hk. apply filter_In in Hk. tauto. }
  exists d'. split; [|split; [exact Hk|]].
  - cbn [apply_override]. rewrite (names_variable_plain s Hs). cbn [bind].
    rewrite Hfind. cbn [bind]. exact Hfold.
  - intros t cur Hc. rewrite (Hget _ _ Hc).
    assert (Hin : In (KStr t) (Dict.keys d)) by (apply get_in_keys; eauto).
    destruct (m t) eqn:Em.
    + assert (Ex : existsb (key_eqb (KStr t)) (filter mk (Dict.keys d)) = true).
      { apply existsb_key_in. apply filter_In. split; [exact Hin | exact Em]. }
      rewrite Ex. reflexivity.
    + destruct (existsb (key_eqb (KStr t)) (filter mk (Dict.keys d))) eqn:Ex; [|reflexivity].
      apply existsb_key_in in Ex. apply filter_In in Ex. destruct Ex as [_ Ex].
      cbn in Ex. congruence.
Qed.

(** C7 (as stated, on one theme).  A string override under [button.*] is
    not assigned to [button.background] when that key holds a number, and
    it is assigned to [button.hover], a third key of the same form;
    [button.border] takes it and [buttons.background] keeps its value. *)
Lemma wildcard_button_counterexample :
  let theme :=
    [(KStr "button.background", VInt 1); (KStr "button.border", VStr "#000");
     (KStr "buttons.background", VStr "#111"); (KStr "button.hover", VStr "#222")] in
  let out :=
    [(KStr "button.background", VInt 1); (KStr "button.border", VStr "#fff");
     (KStr "buttons.background", VStr "#111"); (KStr "button.hover", VStr "#fff")] in
  apply_overrides 1 (VDict theme) (VDict []) (VDict [(KStr "button.*", VStr "#fff")])
  = Ret (VDict out) /\
  Dict.get out (KStr "button.background") <> Some (VStr "#fff") /\
  Dict.get out (KStr "button.hover") <> Dict.get theme (KStr "button.hover").
Proof.
  cbv zeta. split; [reflexivity|]. split; cbn; intros H; discriminate H.
Qed.

Lemma prefix_cons (c d : ascii) (p t : string) :
  prefix (String c p) (String d t) = (Ascii.eqb c d && prefix p t)%bool.
Proof.
  cbn [prefix]. destruct (ascii_dec c d) as [->|E].
  - rewrite Ascii.eqb_refl. reflexivity.
  - destruct (Ascii.eqb_spec c d); [contradiction | reflexivity].
Qed.

Lemma star_unfold (a : Regex.atom) (ps : list Regex.piece) (anchored : bool) (t : string) :
  Regex.match_pieces (Regex.Star a :: ps) anchored t
  = (Regex.match_pieces ps anchored t ||
     match t with
     | String c t' =>
         (Regex.atom_ok a c && Regex.match_pieces (Regex.Star a :: ps) anchored t')%bool
     | EmptyString => false
     end)%bool.
Proof. destruct t; reflexivity. Qed.

(** Literal characters at the head of an expression ask for the same
    characters at the head of the text. *)
Lemma match_literal_head (p : string) (ps : list Regex.piece) (anchored : bool) :
  forall t,
    Regex.match_pieces (literal_pieces p ++ ps) anchored t
    = (prefix p t && Regex.match_pieces ps anchored (drop (String.length p) t))%bool.
Proof.
  unfold literal_pieces. induction p as [|c p IH]; intros t.
  - cbn [list_ascii_of_string map app String.length drop]. destruct t; reflexivity.
  - cbn [list_ascii_of_string map app String.length Regex.match_pieces].
    destruct t as [|d t]; [reflexivity|].
    rewrite IH, prefix_cons. cbn [Regex.atom_ok drop].
    rewrite (Ascii.eqb_sym d c). rewrite Bool.andb_assoc. reflexivity.
Qed.

Lemma word_star_tail (t : string) :
  Regex.match_pieces [Regex.Star Regex.WordChar] true t = word_tail t.
Proof.
  induction t as [|c t IH]; [reflexivity|].
  rewrite star_unfold, IH. cbn [Regex.match_pieces Regex.at_end Regex.atom_ok word_tail].
  destruct t; cbn [is_empty]; rewrite ?Bool.andb_true_r, ?Bool.andb_false_r; reflexivity.
Qed.

(** What [button.*] selects, for every key. *)
Lemma match_button_star (t : string) :
  match_wildcard "button.*" (KStr t) = Ret (button_key t).
Proof.
  change (match_wildcard "button.*" (KStr t))
    with (Ret (Regex.match_pieces
                 (literal_pieces "button." ++ [Regex.Star Regex.WordChar]) true t)).
  rewrite match_literal_head, word_star_tail. reflexivity.
Qed.

(** C7 (amended).  Under the wildcard key [button.*], a string override
    without a dollar changes exactly the keys that are [button.] followed by
    word characters: such a key takes the value when it holds a string or
    [None], and otherwise keeps what it holds (or becomes [None] when the
    value is the empty string).  [button.background] and [button.border] are
    such keys, [buttons.background] is not; every other key keeps its value,
    and no key is added or removed. *)
Theorem wildcard_button_star (fuel : nat) (toml_data : value) (theme : dict) (s : string) :
  contains "$" s = false ->
  NoDup (Dict.keys theme) ->
  (forall k, In k (Dict.keys theme) -> exists t, k = KStr t) ->
  button_key "button.background" = true /\
  button_key "button.border" = true /\
  button_key "buttons.background" = false /\
  (forall t, match_wildcard "button.*" (KStr t) = Ret (button_key t)) /\
  exists theme',
    apply_overrides fuel (VDict theme) toml_data (VDict [(KStr "button.*", VStr s)])
    = Ret (VDict theme') /\
    Dict.keys theme' = Dict.keys theme /\
    forall t cur, Dict.get theme (KStr t) = Some cur ->
      Dict.get theme' (KStr t)
      = Some (if button_key t then
                match cur with
                | VStr _ | VNone => VStr s
                | _ => if is_empty s then VNone else cur
                end
              else cur).
Proof.
  intros Hs Hnd Hstr.
  split; [reflexivity|]. split; [reflexivity|]. split; [reflexivity|].
  split; [exact match_button_star|].
  destruct (apply_override_string fuel toml_data "button.*" s button_key theme Hs
              match_button_star Hnd Hstr) as [d' [Happ [Hk Hget]]].
  exists d'. split; [|split; [exact Hk|]].
  - cbn [apply_overrides fold_outcome]. rewrite Happ. reflexivity.
  - intros t cur Hc. rewrite (Hget _ _ Hc).
    destruct (button_key t); [|reflexivity].
    unfold settled. destruct cur; destruct s; reflexivity.
Qed.

Lemma NoDup_keys_by_computation (ks : list key) :
  (fix distinct (l : list key) : bool :=
     match l with
     | [] => true
     | k :: l' => (negb (existsb (key_eqb k) l') && distinct l')%bool
     end) ks = true ->
  NoDup ks.
Proof.
  induction ks as [|k ks IH]; intros H; [constructor|].
  apply andb_prop in H. destruct H as [H1 H2]. constructor.
  - intros Hin. apply existsb_key_in in Hin. rewrite Hin in H1. discriminate.
  - apply IH. exact H2.
Qed.

Lemma wildcard_button_star_witness :
  button_key "button.background" = true /\
  button_key "button.border" = true /\
  button_key "buttons.background" = false /\
  (forall t, match_wildcard "button.*" (KStr t) = Ret (button_key t)) /\
  exists theme',
    apply_overrides 1 (VDict buttons_theme) (VDict []) (VDict [(KStr "button.*", VStr "#fff")])
    = Ret (VDict theme') /\
    Dict.keys theme' = Dict.keys buttons_theme /\
    forall t cur, Dict.get buttons_theme (KStr t) = Some cur ->
      Dict.get theme' (KStr t)
      = Some (if button_key t then
                match cur with
                | VStr _ | VNone => VStr "#fff"
                | _ => if is_empty "#fff" then VNone else cur
                end
              else cur).
Proof.
  apply (wildcard_button_star 1 (VDict []) buttons_theme "#fff").
  - reflexivity.
  - apply NoDup_keys_by_computation. reflexivity.
  - intros k Hk. cbn in Hk.
    destruct Hk as [<-|[<-|[<-|[]]]]; eexists; reflexivity.
Defined.

(** ** Regular-expression overrides *)

Section RegexFrame.

Variable re_match : string -> string -> outcome bool.
Variables (pattern : string) (m : string -> bool) (v' : value).



End RegexFrame.

Lemma star_step (a : Regex.atom) (ps : list Regex.piece) (anchored : bool) (t : string) :
  Regex.match_pieces (Regex.Star a :: ps) anchored t
  = (Regex.match_pieces ps anchored t ||
     match t with
     | String c t' =>
         (Regex.atom_ok a c && Regex.match_pieces (Regex.Star a :: ps) anchored t')%bool
     | EmptyString => false
     end)%bool.
Proof. destruct t; reflexivity. Qed.

(** The matcher finds a match exactly when the pieces describe a head of
    the text (and, under [$], the text ends there). *)
Lemma match_pieces_head (ps : list Regex.piece) (anchored : bool) :
  forall text,
    Regex.match_pieces ps anchored text = true ->
    exists pre rest,
      text = (pre ++ rest)%string /\ matches ps pre /\
      (anchored = true -> Regex.at_end rest = true).
Proof.
  induction ps as [|[a|a] ps IH]; intros text H.
  - exists EmptyString, text. split; [reflexivity|]. split; [constructor|].
    intros ->. exact H.
  - destruct text as [|c text]; [discriminate H|]. cbn [Regex.match_pieces] in H.
    apply andb_prop in H. destruct H as [Hc H].
    destruct (IH text H) as [pre [rest [-> [Hm Hend]]]].
    exists (String c pre), rest. split; [reflexivity|]. split; [|exact Hend].
    constructor; assumption.
  - induction text as [|c text IHt].
    + rewrite star_step, Bool.orb_false_r in H.
      destruct (IH _ H) as [pre [rest [E [Hm Hend]]]].
      exists pre, rest. split; [exact E|]. split; [|exact Hend].
      apply matches_star_stop. exact Hm.
    + rewrite star_step in H. apply Bool.orb_true_iff in H. destruct H as [H|H].
      * destruct (IH _ H) as [pre [rest [E [Hm Hend]]]].
        exists pre, rest. split; [exact E|]. split; [|exact Hend].
        apply matches_star_stop. exact Hm.
      * apply andb_prop in H. destruct H as [Hc H].
        destruct (IHt H) as [pre [rest [-> [Hm Hend]]]].
        exists (String c pre), rest. split; [reflexivity|]. split; [|exact Hend].
        apply matches_star_more; assumption.
Qed.

Lemma head_match_pieces (ps : list Regex.piece) (anchored : bool) (pre rest : string) :
  matches ps pre ->
  (anchored = true -> Regex.at_end rest = true) ->
  Regex.match_pieces ps anchored (pre ++ rest) = true.
Proof.
  intros Hm Hend. induction Hm as [|a c ps t Hc Hm IH|a ps t Hm IH|a c ps t Hc Hm IH].
  - cbn [String.append Regex.match_pieces]. destruct anchored; [apply Hend|]; reflexivity.
  - cbn [String.append Regex.match_pieces]. rewrite Hc, IH. reflexivity.
  - rewrite star_step, IH. reflexivity.
  - rewrite star_step. cbn [String.append]. rewrite Hc, IH. apply Bool.orb_true_r.
Qed.


Lemma hit_matches_head (regex text : string) :
  hit regex text = true <-> matches_head regex text.
Proof.
  unfold hit, matches_head. split.
  - destruct (Regex.parse (regex_body regex)) as [[ps anchored]|]; [|discriminate].
    intros H. destruct (match_pieces_head ps anchored text H) as [pre [rest [E [Hm Hend]]]].
    exists ps, anchored, pre, rest. auto.
  - intros [ps [anchored [pre [rest [Hp [-> [Hm Hend]]]]]]]. rewrite Hp.
    apply head_match_pieces; assumption.
Qed.

Lemma word_char_plain (c : ascii) :
  is_word c = true ->
  Regex.plain_atom c = Some (Regex.Lit c) /\
  Ascii.eqb c "$" = false /\ Ascii.eqb c "\" = false /\ Ascii.eqb c "*" = false /\
  Ascii.eqb "^" c = false.
Proof.
  destruct c as [[] [] [] [] [] [] [] []]; intros H; try discriminate H;
    repeat split; reflexivity.
Qed.

Lemma parse_name (p : string) :
  all_chars is_word p = true -> Regex.parse p = Some (literal_pieces p, false).
Proof.
  unfold literal_pieces. induction p as [|c p IH]; intros H; [reflexivity|].
  cbn [all_chars] in H. apply andb_prop in H. destruct H as [Hc Hp].
  destruct (word_char_plain c Hc) as [Hatom [H1 [H2 _]]].
  cbn [Regex.parse list_ascii_of_string map]. rewrite H1, H2, Hatom.
  destruct p as [|q p]; [reflexivity|].
  assert (Hq : Ascii.eqb q "*" = false).
  { cbn [all_chars] in Hp. apply andb_prop in Hp. apply (word_char_plain q (proj1 Hp)). }
  rewrite Hq, (IH Hp). reflexivity.
Qed.

(** For an expression that is a name (letters, digits, underscores) the
    keys it selects are the keys that begin with it. *)
Lemma matches_head_name (p t : string) :
  all_chars is_word p = true ->
  matches_head p t <-> startswith p t = true.
Proof.
  intros Hp. rewrite <- hit_matches_head. unfold hit.
  assert (Hbody : regex_body p = p).
  { unfold regex_body, startswith. destruct p as [|c p]; [reflexivity|].
    rewrite prefix_cons. cbn [all_chars] in Hp. apply andb_prop in Hp.
    destruct (word_char_plain c (proj1 Hp)) as [_ [_ [_ [_ ->]]]]. reflexivity. }
  rewrite Hbody, (parse_name p Hp), <- (List.app_nil_r (literal_pieces p)).
  rewrite match_literal_head. cbn [Regex.match_pieces]. rewrite Bool.andb_true_r.
  reflexivity.
Qed.




(** ** The deletion-key scan *)

(** A sequence of calls that returned: its first call returned. *)
Ltac bind_ret H :=
  match type of H with
  | bind ?c _ = Ret _ =>
      let x := fresh "x" in
      let E := fresh "E" in
      destruct c as [x| |] eqn:E; cbn [bind] in H;
      [|discriminate H|discriminate H]
  end.

Lemma position_in_range (len i : nat) :
  (i < len)%nat -> position len (Z.of_nat i) = Some i.
Proof.
  intros H. unfold position.
  destruct (Z.ltb_spec (Z.of_nat i) 0) as [Hneg|_]; [lia|].
  destruct (Z.leb_spec 0 (Z.of_nat i)) as [_|Hneg]; [|lia].
  destruct (Z.ltb_spec (Z.of_nat i) (Z.of_nat len)) as [_|Hge]; [|lia].
  cbn [andb]. rewrite Nat2Z.id. reflexivity.
Qed.

Lemma list_set_length (l : list value) (i : nat) (v : value) :
  List.length (list_set l i v) = List.length l.
Proof.
  revert i. induction l as [|x l IH]; intros [|i]; simpl; auto.
Qed.

Lemma list_set_firstn (l : list value) (i : nat) (v : value) :
  firstn i (list_set l i v) = firstn i l.
Proof.
  revert i. induction l as [|x l IH]; intros [|i]; simpl; auto. f_equal. apply IH.
Qed.

Lemma firstn_shorter {A : Type} (i : nat) (l l' : list A) :
  firstn (S i) l = firstn (S i) l' -> firstn i l = firstn i l'.
Proof.
  intros H. apply (f_equal (firstn i)) in H.
  rewrite !List.firstn_firstn in H. rewrite Nat.min_l in H by lia. exact H.
Qed.

Section ScanFrame.

Variable scan : value -> value -> string -> outcome (list string * value).

(** The loop over the items of one template list touches the theme at that
    key only; when the theme holds a list there, the positions before [i]
    stay as they are, the length of the list does not shrink, and the items
    of the template beyond it are appended. *)
Lemma scan_items_frame (k full_key : string) (items : list value) :
  forall (i : nat) (d : dict) (ks : list string) (out : value),
    scan_items scan k full_key items i (VDict d) = Ret (ks, out) ->
    exists d',
      out = VDict d' /\
      Dict.keys d' = Dict.keys d /\
      (forall k', k' <> KStr k -> Dict.get d' k' = Dict.get d k') /\
      (forall cur, Dict.get d (KStr k) = Some (VList cur) -> (i <= List.length cur)%nat ->
         exists cur',
           Dict.get d' (KStr k) = Some (VList (cur' ++ skipn (List.length cur - i) items)) /\
           List.length cur' = List.length cur /\
           firstn i cur' = firstn i cur).
Proof.
  induction items as [|item items IH]; intros i d ks out H.
  - cbn in H. injection H as _ <-. exists d. repeat split; try reflexivity.
    intros cur Hc _. exists cur. rewrite List.skipn_nil, List.app_nil_r. auto.
  - cbn [scan_items] in H.
    bind_ret H. rename x into sub.
    assert (Hsub : Dict.get d (KStr k) = Some sub).
    { cbn [getitem] in E. destruct (Dict.get d (KStr k)); [congruence|discriminate]. }
    assert (Hhas : Dict.has d (KStr k) = true) by (unfold Dict.has; rewrite Hsub; reflexivity).
    bind_ret H. rename x into n.
    destruct (Nat.leb_spec n i) as [Hle|Hgt].
    + (* the theme's list has run out: the item is appended *)
      bind_ret H. rename x into sub'.
      destruct sub as [| | | | |cur|]; try discriminate.
      cbn in E0, E1. injection E0 as <-. injection E1 as <-.
      cbn [with_child setitem] in H.
      destruct (IH _ _ _ _ H) as [d' [-> [Hk [Hother Hlist]]]].
      exists d'. split; [reflexivity|]. split.
      { rewrite Hk. apply keys_set_present. exact Hhas. }
      split.
      { intros k' Hk'. rewrite Hother by exact Hk'. apply get_set_other. exact Hk'. }
      intros cur0 Hc Hi. assert (cur0 = cur) by congruence. subst cur0.
      assert (i = List.length cur) by lia. subst i.
      destruct (Hlist (cur ++ [item])) as [cur1 [Hget [Hlen Hfirst]]].
      { apply get_set_same. }
      { rewrite List.length_app. cbn. lia. }
      exists cur. split; [|split; reflexivity].
      rewrite Hget. f_equal. f_equal.
      rewrite List.length_app in *. cbn [List.length] in *.
      replace (List.length cur + 1 - S (List.length cur))%nat with 0%nat by lia.
      replace (List.length cur - List.length cur)%nat with 0%nat by lia.
      cbn [skipn].
      assert (Hall : cur1 = cur ++ [item]).
      { rewrite <- (List.firstn_all cur1), Hlen.
        replace (List.length cur + 1)%nat with (S (List.length cur)) by lia.
        rewrite Hfirst.
        replace (S (List.length cur)) with (List.length (cur ++ [item]))
          by (rewrite List.length_app; cbn; lia).
        apply List.firstn_all. }
      rewrite Hall, <- List.app_assoc. reflexivity.
    + (* the position exists in the theme's list *)
      assert (Hstep : forall d1 ks1,
                 scan_items scan k full_key items (S i) (VDict d1) = Ret (ks1, out) ->
                 Dict.keys d1 = Dict.keys d ->
                 (forall k', k' <> KStr k -> Dict.get d1 k' = Dict.get d k') ->
                 (forall cur, Dict.get d (KStr k) = Some (VList cur) ->
                    exists cur1, Dict.get d1 (KStr k) = Some (VList cur1) /\
                                 List.length cur1 = List.length cur /\
                                 firstn i cur1 = firstn i cur) ->
                 exists d',
                   out = VDict d' /\
                   Dict.keys d' = Dict.keys d /\
                   (forall k', k' <> KStr k -> Dict.get d' k' = Dict.get d k') /\
                   (forall cur, Dict.get d (KStr k) = Some (VList cur) ->
                      (i <= List.length cur)%nat ->
                      exists cur',
                        Dict.get d' (KStr k)
                        = Some (VList (cur' ++ skipn (List.length cur - i) (item :: items))) /\
                        List.length cur' = List.length cur /\
                        firstn i cur' = firstn i cur)).
      { intros d1 ks1 H1 Hk1 Ho1 Hl1.
        destruct (IH _ _ _ _ H1) as [d' [-> [Hk [Hother Hlist]]]].
        exists d'. split; [reflexivity|]. split; [congruence|]. split.
        { intros k' Hk'. rewrite Hother by exact Hk'. apply Ho1. exact Hk'. }
        intros cur Hc Hi.
        assert (n = List.length cur).
        { rewrite Hc in Hsub. injection Hsub as <-. cbn in E0. congruence. }
        subst n.
        destruct (Hl1 cur Hc) as [cur1 [Hg1 [Hlen1 Hf1]]].
        destruct (Hlist cur1 Hg1) as [cur' [Hget [Hlen Hfirst]]]; [lia|].
        exists cur'. split; [|split].
        - rewrite Hget, Hlen1.
          replace (List.length cur - i)%nat with (S (List.length cur - S i)) by lia.
          reflexivity.
        - congruence.
        - rewrite (firstn_shorter _ _ _ Hfirst). exact Hf1. }
      destruct item as [| | | | | |tentries];
        try (apply (Hstep d ks H eq_refl (fun _ _ => eq_refl));
             intros cur Hc; exists cur; auto).
      bind_ret H. rename x into el.
      bind_ret H. rename x into r1.
      bind_ret H. rename x into r2.
      injection H as _ <-.
      destruct r2 as [ks2 out2]. cbn [snd] in *.
      set (sub' := with_child sub (KInt (Z.of_nat i)) (snd r1)) in E3.
      cbn [with_child setitem] in E3.
      apply (Hstep _ _ E3).
      { apply keys_set_present. exact Hhas. }
      { intros k' Hk'. apply get_set_other. exact Hk'. }
      intros cur Hc. rewrite Hc in Hsub. injection Hsub as <-.
      cbn in E0. injection E0 as <-.
      exists (list_set cur i (snd r1)). split; [|split].
      * rewrite get_set_same. unfold sub', with_child. cbn [setitem].
        rewrite position_in_range by exact Hgt. reflexivity.
      * apply list_set_length.
      * apply list_set_firstn.
Qed.


End ScanFrame.

(** ** The palette *)

(** C3. An override that is a colour is counted twice: once by the loop
    before [cleanup_variables] and once more by the loop after it, which runs
    over the same table.  One override and nothing else gives its colour
    the frequency two, and with the threshold one it is given a palette
    name. *)
Theorem override_counted_twice (str_of_list : list value -> string) :
  (exists c,
     count_colors str_of_list [] [(KStr "a", VStr "#FF0000")] [] = Ret c /\
     colors c = [("#FF0000", 2)]) /\
  handle_colors str_of_list [] [(KStr "a", VStr "#FF0000")] [] 1
  = Ret ([("#FF0000", "$colors.color1")], [], [(KStr "a", VStr "$colors.color1")]).
Proof.
  split; [eexists; split; reflexivity | reflexivity].
Qed.

Lemma place_perm (x : string * Z) (l : counter) : Permutation (place x l) (x :: l).
Proof.
  induction l as [|y l IH]; cbn [place]; [reflexivity|].
  destruct (snd x <? snd y); [|reflexivity].
  rewrite IH. apply perm_swap.
Qed.

Lemma sorted_desc_perm (l : counter) : Permutation (sorted_desc l) l.
Proof.
  induction l as [|x l IH]; cbn [sorted_desc]; [reflexivity|].
  rewrite place_perm. constructor. exact IH.
Qed.

Lemma place_sorted (x : string * Z) (l : counter) :
  StronglySorted at_least l -> StronglySorted at_least (place x l).
Proof.
  induction l as [|y l IH]; intros Hs; cbn [place].
  - constructor; constructor.
  - inversion Hs as [|? ? Hs' Hall]; subst.
    destruct (Z.ltb_spec (snd x) (snd y)) as [Hlt|Hge].
    + constructor; [apply IH; exact Hs'|].
      apply (Permutation_Forall (Permutation_sym (place_perm x l))).
      constructor; [unfold at_least; lia | exact Hall].
    + constructor; [exact Hs|].
      constructor; [unfold at_least; lia|].
      apply (Forall_impl _ (P := at_least y)); [|exact Hall].
      unfold at_least. intros z Hz. lia.
Qed.

Lemma sorted_desc_sorted (l : counter) : StronglySorted at_least (sorted_desc l).
Proof.
  induction l as [|x l IH]; cbn [sorted_desc]; [constructor|].
  apply place_sorted. exact IH.
Qed.

(** The sort is stable: among the entries with one count, the order is the
    one they had. *)
Lemma place_stable (n : Z) (x : string * Z) (l : counter) :
  filter (counted_as n) (place x l) = filter (counted_as n) (x :: l).
Proof.
  induction l as [|y l IH]; cbn [place]; [reflexivity|].
  destruct (Z.ltb_spec (snd x) (snd y)) as [Hlt|Hge]; [|reflexivity].
  cbn [filter] in *. rewrite IH. unfold counted_as.
  destruct (Z.eqb_spec (snd x) n), (Z.eqb_spec (snd y) n); try reflexivity. lia.
Qed.

Lemma sorted_desc_stable (n : Z) (l : counter) :
  filter (counted_as n) (sorted_desc l) = filter (counted_as n) l.
Proof.
  induction l as [|x l IH]; cbn [sorted_desc]; [reflexivity|].
  rewrite place_stable. cbn [filter]. rewrite IH. reflexivity.
Qed.

Lemma name_from_fst (l : list string) :
  forall i, map fst (name_from i l) = l.
Proof. induction l as [|c l IH]; intros i; cbn; [|rewrite IH]; reflexivity. Qed.

Lemma name_from_snd (l : list string) :
  forall i, map snd (name_from i l) = map color_name (seq i (List.length l)).
Proof. induction l as [|c l IH]; intros i; cbn; [|rewrite IH]; reflexivity. Qed.

Lemma str_of_int_inj (n m : Z) : str_of_int n = str_of_int m -> n = m.
Proof.
  unfold str_of_int. intros H.
  assert (Hok : forall z, Z.to_int z <> Decimal.Pos Decimal.Nil /\
                          Z.to_int z <> Decimal.Neg Decimal.Nil).
  { intros [|p|p]; cbn; split; try discriminate; intros E; injection E as E;
      exact (DecimalPos.Unsigned.to_uint_nonnil p E). }
  apply DecimalZ.to_int_inj.
  assert (E : Some (Z.to_int n) = Some (Z.to_int m)).
  { rewrite <- (NilZero.isi (Z.to_int n)) by apply Hok.
    rewrite <- (NilZero.isi (Z.to_int m)) by apply Hok.
    rewrite H. reflexivity. }
  congruence.
Qed.

Lemma append_inj (p a b : string) : (p ++ a)%string = (p ++ b)%string -> a = b.
Proof.
  induction p as [|c p IH]; cbn; intros H; [exact H|].
  injection H as H. apply IH. exact H.
Qed.

Lemma color_name_inj (i j : nat) : color_name i = color_name j -> i = j.
Proof.
  unfold color_name. intros H. apply append_inj in H. apply str_of_int_inj in H. lia.
Qed.

Lemma palette_get_in (p : list (string * string)) (color : string) :
  In color (map fst p) <-> exists name, palette_get p color = Some name.
Proof.
  induction p as [|[k name] p IH]; cbn.
  - split; [contradiction | intros [n H]; discriminate].
  - destruct (String.eqb_spec color k) as [E|E].
    + split; [intros _; eauto | intros _; left; congruence].
    + rewrite <- IH. split; [intros [H|H]; [congruence | exact H] | intros H; right; exact H].
Qed.

Lemma counter_get_in (c : counter) (color : string) (n : Z) :
  NoDup (map fst c) -> In (color, n) c -> counter_get c color = n.
Proof.
  induction c as [|[k m] c IH]; cbn; intros Hnd Hin; [contradiction|].
  inversion Hnd as [|? ? Hnotin Hnd']; subst.
  destruct Hin as [E|Hin].
  - injection E as -> ->. rewrite String.eqb_refl. reflexivity.
  - destruct (String.eqb_spec color k) as [->|_]; [|apply IH; assumption].
    exfalso. apply Hnotin. apply (in_map fst) in Hin. exact Hin.
Qed.

Lemma counter_add_in (c : counter) (color : string) (n : Z) (k : string) :
  In k (map fst (counter_add c color n)) -> k = color \/ In k (map fst c).
Proof.
  induction c as [|[k0 m] c IH]; cbn; intros Hk.
  - destruct Hk as [<-|[]]. left. reflexivity.
  - destruct (String.eqb_spec color k0); cbn in Hk; [right; exact Hk|].
    destruct Hk as [<-|Hk]; [right; left; reflexivity|].
    destruct (IH Hk); auto.
Qed.

(** A counter holds each colour once. *)
Lemma counter_add_keys (c : counter) (color : string) (n : Z) :
  NoDup (map fst c) -> NoDup (map fst (counter_add c color n)).
Proof.
  induction c as [|[k0 m] c IH]; cbn; intros Hnd.
  - constructor; [intros []|constructor].
  - inversion Hnd as [|? ? Hnotin Hnd']; subst.
    destruct (String.eqb_spec color k0) as [E|E]; cbn; [exact Hnd|].
    constructor; [|apply IH; exact Hnd'].
    intros Hk. destruct (counter_add_in _ _ _ _ Hk); [congruence | contradiction].
Qed.

Lemma count_histogram_keys (h : histogram) :
  forall c c', NoDup (map fst c) -> count_histogram h c = Ret c' -> NoDup (map fst c').
Proof.
  induction h as [|[v n] h IH]; intros c c' Hnd H; cbn [count_histogram] in H.
  - congruence.
  - destruct v; try (apply (IH _ _ Hnd H)).
    destruct (is_hex_text s); [|apply (IH _ _ Hnd H)].
    bind_ret H. apply (IH _ _ (counter_add_keys _ _ _ Hnd) H).
Qed.

Lemma count_variables_keys (variables : list (string * histogram)) :
  forall c c', NoDup (map fst c) -> count_variables variables c = Ret c' ->
               NoDup (map fst c').
Proof.
  induction variables as [|[name h] variables IH]; intros c c' Hnd H;
    cbn [count_variables] in H.
  - congruence.
  - bind_ret H. apply (IH _ _ (count_histogram_keys _ _ _ Hnd E) H).
Qed.

Lemma count_overrides_keys (overrides : dict) :
  forall c c', NoDup (map fst c) -> count_overrides overrides c = Ret c' ->
               NoDup (map fst c').
Proof.
  induction overrides as [|[k v] overrides IH]; intros c c' Hnd H;
    cbn [count_overrides] in H.
  - congruence.
  - destruct v; try (apply (IH _ _ Hnd H)).
    destruct (is_hex_text s); [|apply (IH _ _ Hnd H)].
    bind_ret H. apply (IH _ _ (counter_add_keys _ _ _ Hnd) H).
Qed.

Lemma count_colors_keys (str_of_list : list value -> string) variables overrides var_map c :
  count_colors str_of_list variables overrides var_map = Ret c ->
  NoDup (map fst (colors c)).
Proof.
  unfold count_colors. intros H.
  bind_ret H. bind_ret H. bind_ret H. bind_ret H. bind_ret H.
  injection H as <-. cbn [colors].
  assert (H0 : NoDup (map fst (@nil (string * Z)))) by constructor.
  apply (count_overrides_keys _ _ _ (count_overrides_keys _ _ _
           (count_variables_keys _ _ _ H0 E) E0) E3).
Qed.

(** The palette relative to the counter that [handle_colors] builds.  When
    [handle_colors] returns, the colours that have a palette name
    are the colours of the counter whose count is above the threshold;
    they are ranked by falling frequency, colours with one frequency in the
    order in which the counter first saw them; the name of the colour at
    rank [i] (from zero) is [$colors.color] followed by [i + 1]; and no name
    is given twice. *)
Theorem palette_names (str_of_list : list value -> string)
    (variables : list (string * histogram)) (overrides : dict) (var_map : var_map_t)
    (threshold : Z) (names : list (string * string)) (vars : list (string * value))
    (ovs : dict) :
  handle_colors str_of_list variables overrides var_map threshold = Ret (names, vars, ovs) ->
  exists c ranked,
    count_colors str_of_list variables overrides var_map = Ret c /\
    NoDup (map fst (colors c)) /\
    (forall color,
       (exists name, palette_get names color = Some name) <->
       In color (map fst (colors c)) /\ threshold < counter_get (colors c) color) /\
    Permutation ranked (filter (above threshold) (colors c)) /\
    StronglySorted at_least ranked /\
    (forall n, filter (counted_as n) ranked
               = filter (counted_as n) (filter (above threshold) (colors c))) /\
    map fst names = map fst ranked /\
    map snd names = map color_name (seq 0 (List.length ranked)) /\
    NoDup (map snd names).
Proof.
  unfold handle_colors. intros H.
  bind_ret H. rename x into c. bind_ret H. bind_ret H. injection H as <- _ _.
  pose proof (count_colors_keys _ _ _ _ _ E) as Hnd.
  exists c, (sorted_desc (filter (above threshold) (colors c))).
  split; [reflexivity|]. split; [exact Hnd|].
  assert (Hfst : map fst (palette threshold (colors c))
                 = map fst (sorted_desc (filter (above threshold) (colors c)))).
  { unfold palette. apply name_from_fst. }
  assert (Hsnd : map snd (palette threshold (colors c))
                 = map color_name
                     (seq 0 (List.length (sorted_desc (filter (above threshold) (colors c)))))).
  { unfold palette. rewrite name_from_snd, List.length_map. reflexivity. }
  split; [|split; [apply sorted_desc_perm|split; [apply sorted_desc_sorted|
          split; [intros n; apply sorted_desc_stable|split; [exact Hfst|split; [exact Hsnd|]]]]]].
  - intros color. rewrite <- palette_get_in, Hfst. split.
    + intros Hin. apply in_map_iff in Hin. destruct Hin as [[k n] [<- Hin]]. cbn [fst].
      apply (Permutation_in _ (sorted_desc_perm _)) in Hin.
      apply filter_In in Hin. destruct Hin as [Hin Habove].
      split; [apply (in_map fst) in Hin; exact Hin|].
      rewrite (counter_get_in _ _ _ Hnd Hin). unfold above in Habove. cbn in Habove. lia.
    + intros [Hin Habove]. apply in_map_iff in Hin. destruct Hin as [[k n] [<- Hin]].
      cbn [fst] in *. rewrite (counter_get_in _ _ _ Hnd Hin) in Habove.
      apply in_map_iff. exists (k, n). split; [reflexivity|].
      apply (Permutation_in _ (Permutation_sym (sorted_desc_perm _))).
      apply filter_In. split; [exact Hin|]. unfold above. cbn. lia.
  - rewrite Hsnd. apply Finite.Injective_map_NoDup; [|apply seq_NoDup].
    intros i j. apply color_name_inj.
Qed.

Lemma palette_names_witness :
  exists c ranked,
    count_colors no_list_text
      [("$bg", [(VStr "#000000", 3)]); ("$fg", [(VStr "#fff", 2); (VStr "#eeeeee", 1)]);
       ("$accent", [(VStr "#FF000080", 2)])]
      [] [] = Ret c /\
    NoDup (map fst (colors c)) /\
    (forall color,
       (exists name,
          palette_get [("#000000", "$colors.color1"); ("#FFFFFF", "$colors.color2");
                       ("#FF0000", "$colors.color3")] color = Some name) <->
       In color (map fst (colors c)) /\ 1 < counter_get (colors c) color) /\
    Permutation ranked (filter (above 1) (colors c)) /\
    StronglySorted at_least ranked /\
    (forall n, filter (counted_as n) ranked
               = filter (counted_as n) (filter (above 1) (colors c))) /\
    map fst [("#000000", "$colors.color1"); ("#FFFFFF", "$colors.color2");
             ("#FF0000", "$colors.color3")] = map fst ranked /\
    map snd [("#000000", "$colors.color1"); ("#FFFFFF", "$colors.color2");
             ("#FF0000", "$colors.color3")]
    = map color_name (seq 0 (List.length ranked)) /\
    NoDup (map snd [("#000000", "$colors.color1"); ("#FFFFFF", "$colors.color2");
                    ("#FF0000", "$colors.color3")]).
Proof.
  apply (palette_names no_list_text
           [("$bg", [(VStr "#000000", 3)]); ("$fg", [(VStr "#fff", 2); (VStr "#eeeeee", 1)]);
            ("$accent", [(VStr "#FF000080", 2)])]
           [] [] 1
           [("#000000", "$colors.color1"); ("#FFFFFF", "$colors.color2");
            ("#FF0000", "$colors.color3")]
           [("$bg", VStr "$colors.color1"); ("$fg", VStr "$colors.color2");
            ("$accent", VStr "$colors.color3")]
           []).
  reflexivity.
Defined.

(** C4. The palette does not go by the total frequency.  With one variable
    seen three times as green and two red overrides, red has the total
    frequency two and green three.  At the threshold three no colour should
    be named, and red is; at the threshold one green should come first, and
    red does: the counter that ranks the colours holds four for red, each
    override having been counted twice. *)
Theorem palette_goes_by_doubled_count (str_of_list : list value -> string) :
  total_frequency green_variable red_overrides "#FF0000" = 2 /\
  total_frequency green_variable red_overrides "#00FF00" = 3 /\
  (exists c,
     count_colors str_of_list green_variable red_overrides [] = Ret c /\
     colors c = [("#00FF00", 3); ("#FF0000", 4)]) /\
  handle_colors str_of_list green_variable red_overrides [] 3
  = Ret ([("#FF0000", "$colors.color1")],
         [("x", VStr "#00FF00")],
         [(KStr "a", VStr "$colors.color1"); (KStr "b", VStr "$colors.color1")]) /\
  handle_colors str_of_list green_variable red_overrides [] 1
  = Ret ([("#FF0000", "$colors.color1"); ("#00FF00", "$colors.color2")],
         [("x", VStr "$colors.color2")],
         [(KStr "a", VStr "$colors.color1"); (KStr "b", VStr "$colors.color1")]).
Proof.
  split; [reflexivity|]. split; [reflexivity|]. split.
  - eexists. split; reflexivity.
  - split; reflexivity.
Qed.

(** * Further properties *)

(** ** Text *)

Lemma contains_char_cons (c d : ascii) (s : string) :
  contains (String c EmptyString) (String d s)
  = (Ascii.eqb c d || contains (String c EmptyString) s)%bool.
Proof.
  cbn [contains prefix]. destruct (ascii_dec c d) as [E|E].
  - subst. rewrite Ascii.eqb_refl. destruct s; reflexivity.
  - destruct (Ascii.eqb_spec c d); [contradiction | reflexivity].
Qed.

Lemma contains_tail (sub : string) (c : ascii) (s : string) :
  contains sub (String c s) = false -> contains sub s = false.
Proof.
  cbn [contains]. intros H. apply Bool.orb_false_elim in H. tauto.
Qed.

Lemma contains_head (sub : string) (s : string) :
  contains sub s = false -> prefix sub s = false.
Proof.
  destruct s; cbn [contains]; intros H; apply Bool.orb_false_elim in H; tauto.
Qed.

Lemma split_on_nonempty (sep : ascii) (s : string) : split_on sep s <> [].
Proof.
  induction s as [|c s IH]; cbn; [discriminate|].
  destruct (Ascii.eqb c sep); [discriminate|].
  destruct (split_on sep s); [contradiction | discriminate].
Qed.

(** A text without the separator is one part. *)
Lemma split_on_plain (sep : ascii) (s : string) :
  contains (String sep EmptyString) s = false -> split_on sep s = [s].
Proof.
  induction s as [|c s IH]; intros H; [reflexivity|].
  rewrite contains_char_cons in H. apply Bool.orb_false_elim in H. destruct H as [Hc Hs].
  cbn [split_on]. rewrite Ascii.eqb_sym, Hc, (IH Hs). reflexivity.
Qed.

(** Splitting goes through a separator. *)
Lemma split_on_app (sep : ascii) (a b : string) :
  split_on sep (a ++ String sep b) = split_on sep a ++ split_on sep b.
Proof.
  induction a as [|c a IH]; cbn [String.append split_on].
  - rewrite Ascii.eqb_refl. reflexivity.
  - destruct (Ascii.eqb c sep); [rewrite IH; reflexivity|].
    rewrite IH. destruct (split_on sep a) eqn:E; [|reflexivity].
    exfalso. exact (split_on_nonempty sep a E).
Qed.

Lemma append_assoc (a b c : string) : ((a ++ b) ++ c)%string = (a ++ (b ++ c))%string.
Proof. induction a as [|x a IH]; cbn; [|rewrite IH]; reflexivity. Qed.

Lemma append_empty_r (a : string) : (a ++ "")%string = a.
Proof. induction a as [|x a IH]; cbn; [|rewrite IH]; reflexivity. Qed.

Lemma replace_absent (old new s : string) :
  contains old s = false -> replace old new s = s.
Proof.
  unfold replace. induction s as [|c s IH]; intros H; [reflexivity|].
  cbn [replace_from]. rewrite (contains_head _ _ H).
  rewrite (IH (contains_tail _ _ _ H)). reflexivity.
Qed.

(** ** The resolver: dotted paths *)

(** X1. A dotted reference is resolved table by table: the first segment
    is looked up in the table and the rest of the path is resolved in what
    it holds; a missing segment, or a value that is not a table, gives
    [None]. *)
Theorem resolve_plain_step (a rest : string) (toml_data : value) :
  contains "." a = false ->
  resolve_plain (a ++ "." ++ rest) toml_data =
  match toml_data with
  | VDict d =>
      match Dict.get d (KStr a) with
      | Some v => resolve_plain rest v
      | None => VNone
      end
  | _ => VNone
  end.
Proof.
  intros Ha. unfold resolve_plain.
  change (a ++ "." ++ rest)%string with (a ++ String "." rest)%string.
  rewrite split_on_app, (split_on_plain _ _ Ha). cbn [app walk_parts].
  destruct toml_data; try reflexivity.
Qed.

Lemma resolve_plain_step_witness :
  resolve_plain ("colors" ++ "." ++ "accent.dim")
    (VDict [(KStr "colors", VDict [(KStr "accent", VDict [(KStr "dim", VStr "#333")])])])
  = resolve_plain "accent.dim" (VDict [(KStr "accent", VDict [(KStr "dim", VStr "#333")])]).
Proof.
  apply (resolve_plain_step "colors" "accent.dim"
           (VDict [(KStr "colors", VDict [(KStr "accent", VDict [(KStr "dim", VStr "#333")])])])).
  reflexivity.
Defined.

(** ** The resolver: alpha tokens *)

Section AlphaToken.

Variables (a b : ascii).
Hypothesis Ha : is_alnum a = true.
Hypothesis Hb : is_alnum b = true.

Let alpha : string := String a (String b EmptyString).

Lemma dot_not_alnum : is_alnum "." = false.
Proof. reflexivity. Qed.

Lemma ALPHA_PATTERN_inside (c : ascii) (p : string) :
  contains ".." (String c p) = false ->
  ALPHA_PATTERN (String c (p ++ String "." (String "." alpha))) = None.
Proof.
  intros H. apply contains_head in H.
  cbn [ALPHA_PATTERN]. destruct p as [|c2 p].
  - cbn [String.append]. destruct (Ascii.eqb c "."); cbn [andb]; reflexivity.
  - cbn [String.append]. cbn [prefix] in H.
    destruct (ascii_dec "." c) as [<-|Hc].
    + destruct (ascii_dec "." c2) as [E|Hc2]; [destruct p; discriminate H|].
      destruct (Ascii.eqb_spec c2 "."); [congruence|].
      rewrite Ascii.eqb_refl.
      destruct (String.append p _) as [|x [|y s]]; reflexivity.
    + destruct (Ascii.eqb_spec c "."); [congruence|].
      destruct (String.append p _) as [|x [|y s]]; reflexivity.
Qed.

(** The token at the end of a path without two dots in a row is the one
    found, and taking it out leaves the path. *)
Lemma search_alpha_suffix (p : string) :
  contains ".." p = false ->
  search_alpha (p ++ String "." (String "." alpha)) = Some alpha.
Proof.
  induction p as [|c p IH]; intros H.
  - cbn. rewrite Ha, Hb. reflexivity.
  - cbn [String.append search_alpha].
    rewrite (ALPHA_PATTERN_inside c p H). apply IH. exact (contains_tail _ _ _ H).
Qed.

Lemma replace_alpha_suffix (p : string) :
  contains ".." p = false ->
  replace (String "." (String "." alpha)) "" (p ++ String "." (String "." alpha)) = p.
Proof.
  unfold replace. induction p as [|c p IH]; intros H.
  - cbn [String.append replace_from prefix alpha].
    destruct (ascii_dec "." "."); [|congruence].
    destruct (ascii_dec a a); [|congruence].
    destruct (ascii_dec b b); [|congruence]. reflexivity.
  - cbn [String.append replace_from].
    assert (Hp : prefix (String "." (String "." alpha))
                   (String c (p ++ String "." (String "." alpha))) = false).
    { pose proof (contains_head _ _ H) as Hh. cbn [prefix] in *.
      destruct (ascii_dec "." c); [|reflexivity].
      destruct p as [|c2 p]; cbn [String.append prefix] in *.
      - destruct (ascii_dec "." "."); [|reflexivity].
        unfold alpha. cbn [prefix].
        destruct (ascii_dec a "."); [|reflexivity].
        subst a. rewrite dot_not_alnum in Ha. discriminate.
      - destruct (ascii_dec "." c2); [destruct p; discriminate Hh | reflexivity]. }
    rewrite Hp. f_equal. apply IH. exact (contains_tail _ _ _ H).
Qed.

(** A reference with an alpha token: the token is taken out, the path is
    resolved and references are followed, and the rest of
    [resolve_variable] works on what was found. *)
Lemma resolve_variable_alpha (fuel : nat) (p : string) (toml_data : value) :
  contains ".." p = false ->
  resolve_variable fuel (p ++ ".." ++ alpha) toml_data false =
  (v <- follow_refs fuel toml_data (resolve_plain p toml_data) ;;
   if negb (truthy v) then Ret VNone
   else match v with
        | VStr s => match search_alpha s with
                    | Some _ => Ret v
                    | None => Ret (VStr (s ++ alpha))
                    end
        | _ => Raise TypeError
        end).
Proof.
  intros Hp. unfold resolve_variable.
  change (p ++ ".." ++ alpha)%string with (p ++ String "." (String "." alpha))%string.
  rewrite (search_alpha_suffix p Hp).
  change (".." ++ alpha)%string with (String "." (String "." alpha)).
  rewrite (replace_alpha_suffix p Hp). reflexivity.
Qed.

(** X2. Alpha splicing.  For a path [p] and a token [..ab]: when [p]
    resolves to a text that is not empty and not a reference, the result is
    that text with [ab] appended, unless the text carries a token of its
    own, in which case it is returned as it is. *)
Theorem alpha_is_appended_once (fuel : nat) (p s : string) (toml_data : value) :
  contains ".." p = false ->
  resolve_plain p toml_data = VStr s ->
  is_empty s = false ->
  startswith "$" s = false ->
  resolve_variable fuel (p ++ ".." ++ alpha) toml_data false =
  Ret (VStr (match search_alpha s with Some _ => s | None => (s ++ alpha)%string end)).
Proof.
  intros Hp Hres Hne Hd. rewrite (resolve_variable_alpha fuel p toml_data Hp), Hres.
  assert (Hf : follow_refs fuel toml_data (VStr s) = Ret (VStr s)).
  { destruct fuel; cbn [follow_refs]; rewrite Hd; reflexivity. }
  rewrite Hf. cbn [bind truthy]. rewrite Hne. cbn [negb].
  destruct (search_alpha s); reflexivity.
Qed.

(** X3. Under an alpha token, whatever is false in Python (a missing
    path, an empty text, zero, an empty table or list) resolves to [None];
    the token alone is never returned. *)
Theorem alpha_on_nothing_is_none (fuel : nat) (p : string) (toml_data : value) :
  contains ".." p = false ->
  truthy (resolve_plain p toml_data) = false ->
  resolve_variable fuel (p ++ ".." ++ alpha) toml_data false = Ret VNone.
Proof.
  intros Hp Hfalse. rewrite (resolve_variable_alpha fuel p toml_data Hp).
  destruct (resolve_plain p toml_data) as [| | | |s| |] eqn:E;
    try (destruct fuel; cbn [follow_refs bind]; cbn in Hfalse |- *; rewrite ?Hfalse; reflexivity).
  cbn [truthy] in Hfalse. destruct s; [|discriminate Hfalse].
  destruct fuel; reflexivity.
Qed.

(** X4. A binding that refers to itself is never resolved under an alpha
    token: the loop that follows references does not end, whatever the
    fuel. *)
Theorem self_reference_diverges (fuel : nat) (name : string) (d : dict) :
  contains "." name = false ->
  Dict.get d (KStr name) = Some (VStr (String "$" name)) ->
  resolve_variable fuel (name ++ ".." ++ alpha) (VDict d) false = Diverge.
Proof.
  intros Hname Hget.
  assert (Hp : contains ".." name = false).
  { clear -Hname. induction name as [|c n IH]; [reflexivity|].
    pose proof (contains_tail _ _ _ Hname) as Ht.
    rewrite contains_char_cons in Hname. apply Bool.orb_false_elim in Hname.
    destruct Hname as [Hc _].
    cbn [contains prefix]. rewrite (IH Ht).
    destruct (ascii_dec "." c) as [<-|]; [discriminate Hc|]. reflexivity. }
  rewrite (resolve_variable_alpha fuel name (VDict d) Hp).
  assert (Hres : resolve_plain name (VDict d) = VStr (String "$" name)).
  { rewrite resolve_plain_top by (apply split_on_plain; exact Hname).
    rewrite Hget. reflexivity. }
  rewrite Hres.
  assert (Hloop : follow_refs fuel (VDict d) (VStr (String "$" name)) = Diverge).
  { assert (Hstart : startswith "$" (String "$" name) = true).
    { unfold startswith. cbn [prefix]. destruct (ascii_dec "$" "$"); [|congruence].
      destruct name; reflexivity. }
    induction fuel as [|fuel IH]; cbn [follow_refs]; rewrite Hstart; [reflexivity|].
    cbn [drop]. rewrite Hres. exact IH. }
  rewrite Hloop. reflexivity.
Qed.

End AlphaToken.

Lemma alpha_is_appended_once_witness :
  resolve_variable 0 ("colors.accent" ++ ".." ++ "80")
    (VDict [(KStr "colors", VDict [(KStr "accent", VStr "#ff0000")])]) false
  = Ret (VStr "#ff000080").
Proof.
  apply (alpha_is_appended_once "8" "0" eq_refl eq_refl 0 "colors.accent" "#ff0000"
           (VDict [(KStr "colors", VDict [(KStr "accent", VStr "#ff0000")])]));
    reflexivity.
Defined.

Lemma alpha_on_nothing_is_none_witness :
  resolve_variable 0 ("colors.missing" ++ ".." ++ "80")
    (VDict [(KStr "colors", VDict [(KStr "accent", VStr "#ff0000")])]) false
  = Ret VNone.
Proof.
  apply (alpha_on_nothing_is_none "8" "0" eq_refl eq_refl 0 "colors.missing"
           (VDict [(KStr "colors", VDict [(KStr "accent", VStr "#ff0000")])]));
    reflexivity.
Defined.

Lemma self_reference_diverges_witness :
  resolve_variable 1000 ("bg" ++ ".." ++ "80") (VDict [(KStr "bg", VStr "$bg")]) false
  = Diverge.
Proof.
  apply (self_reference_diverges "8" "0" eq_refl eq_refl 1000 "bg" [(KStr "bg", VStr "$bg")]);
    reflexivity.
Defined.

(** ** The materializer: literal text and fallback chains *)

Lemma no_dollar_no_match (s : string) :
  contains "$" s = false -> REC_PATTERN s = None /\ FILE_PATTERN s = None.
Proof.
  intros H. destruct s as [|c s]; [split; reflexivity|].
  pose proof (contains_tail _ _ _ H) as Ht.
  rewrite contains_char_cons in H. apply Bool.orb_false_elim in H. destruct H as [Hc _].
  rewrite Ascii.eqb_sym in Hc. split.
  - unfold REC_PATTERN, match_names, match_name. rewrite Hc. reflexivity.
  - unfold FILE_PATTERN. destruct (Ascii.eqb c dquote); [|reflexivity].
    destruct s as [|c2 s]; [reflexivity|].
    rewrite contains_char_cons in Ht. apply Bool.orb_false_elim in Ht. destruct Ht as [Hc2 _].
    rewrite Ascii.eqb_sym in Hc2.
    unfold match_names, match_name. rewrite Hc2. reflexivity.
Qed.

(** X5. A text without a dollar sign is returned as it is, whatever the
    bindings: no pattern matches in it and nothing is resolved. *)
Theorem literal_text_is_unchanged (float_repr : float -> string) (fuel : nat)
    (text : string) (toml_data : value) (recursive quotes : bool) :
  contains "$" text = false ->
  substitute_variables float_repr (S fuel) text toml_data recursive quotes = Ret text.
Proof.
  intros H. cbn [substitute_variables]. unfold re_sub.
  set (pattern := if recursive then REC_PATTERN else FILE_PATTERN).
  set (repl := replacer _ _ _ _ _).
  assert (Hpat : forall s, contains "$" s = false -> pattern s = None).
  { intros s Hs. unfold pattern. destruct recursive; apply no_dollar_no_match; exact Hs. }
  clearbody pattern repl. induction text as [|c text IH]; [reflexivity|].
  cbn [re_sub_from]. rewrite (Hpat _ H).
  rewrite (IH (contains_tail _ _ _ H)). reflexivity.
Qed.

Lemma literal_text_is_unchanged_witness :
  substitute_variables no_float_text 1 "{ name: Gruvbox, appearance: dark }"
    (VDict []) false true
  = Ret "{ name: Gruvbox, appearance: dark }".
Proof.
  apply (literal_text_is_unchanged no_float_text 0 "{ name: Gruvbox, appearance: dark }").
  reflexivity.
Defined.

Lemma startswith_dollar (n : string) : startswith "$" (String "$" n) = true.
Proof.
  unfold startswith. cbn [prefix]. destruct (ascii_dec "$" "$"); [|congruence].
  destruct n; reflexivity.
Qed.

Lemma not_the_last (n last : string) :
  startswith "$" n = false -> startswith "$" last = true -> String.eqb n last = false.
Proof.
  intros Hn Hl. destruct (String.eqb_spec n last) as [->|]; [congruence | reflexivity].
Qed.

Section Candidates.

Variable float_repr : float -> string.
Variable self : string -> bool -> outcome string.
Variables (fuel : nat) (toml_data : value) (quotes : bool) (last : string).
Hypothesis Hlast : startswith "$" last = true.

(** One round of the loop for a candidate that is passed over. *)
Lemma candidate_passed_over (n : string) (v : value) (others : list string) :
  startswith "$" n = false ->
  resolve_variable fuel n toml_data false = Ret v ->
  passed_over v = true ->
  try_candidates float_repr self fuel toml_data quotes last (String "$" n :: others)
  = try_candidates float_repr self fuel toml_data quotes last others.
Proof.
  intros Hn Hres Hv. cbn [try_candidates].
  rewrite startswith_dollar. cbn [drop]. rewrite Hres. cbn [bind].
  rewrite (not_the_last n last Hn Hlast), Bool.andb_false_r. cbn [bind].
  destruct v; try discriminate Hv; reflexivity.
Qed.

Lemma candidates_all_passed_over (names : list string) :
  Forall (fun n => startswith "$" n = false /\
                   exists v, resolve_variable fuel n toml_data false = Ret v /\
                             passed_over v = true) names ->
  try_candidates float_repr self fuel toml_data quotes last (map (String "$") names)
  = Ret "null".
Proof.
  induction 1 as [|n names [Hn [v [Hres Hv]]] _ IH]; [reflexivity|].
  cbn [map]. rewrite (candidate_passed_over n v _ Hn Hres Hv). exact IH.
Qed.

Lemma candidates_first_text (pre post : list string) (n s : string) :
  Forall (fun n => startswith "$" n = false /\
                   exists v, resolve_variable fuel n toml_data false = Ret v /\
                             passed_over v = true) pre ->
  startswith "$" n = false ->
  resolve_variable fuel n toml_data false = Ret (VStr s) ->
  contains "$" s = false ->
  try_candidates float_repr self fuel toml_data quotes last
    (map (String "$") (pre ++ n :: post))
  = Ret (if quotes then Json.dumps_str s else s).
Proof.
  intros Hpre Hn Hres Hs.
  induction Hpre as [|m pre [Hm [v [Hmres Hv]]] _ IH].
  - cbn [app map try_candidates].
    rewrite startswith_dollar. cbn [drop]. rewrite Hres. cbn [bind].
    rewrite (not_the_last n last Hn Hlast), Bool.andb_false_r. cbn [bind].
    rewrite Hs. reflexivity.
  - cbn [app map]. rewrite (candidate_passed_over m v _ Hm Hmres Hv). exact IH.
Qed.

End Candidates.

Lemma name_char_is_plain (c : ascii) :
  is_name_char c = true ->
  is_space c = false /\ Ascii.eqb c "," = false /\ Ascii.eqb c "$" = false /\
  Ascii.eqb c dquote = false.
Proof.
  destruct c as [b0 b1 b2 b3 b4 b5 b6 b7].
  destruct b0, b1, b2, b3, b4, b5, b6, b7; vm_compute; intros H;
    try discriminate H; repeat split.
Qed.

Lemma all_chars_impl (p q : ascii -> bool) (s : string) :
  (forall c, p c = true -> q c = true) -> all_chars p s = true -> all_chars q s = true.
Proof.
  intros Hpq. induction s as [|c s IH]; cbn [all_chars]; [reflexivity|].
  intros H. apply andb_prop in H. destruct H as [Hc Hs].
  rewrite (Hpq c Hc), (IH Hs). reflexivity.
Qed.

Lemma all_chars_no_sep (p : ascii -> bool) (sep : ascii) (s : string) :
  (forall c, p c = true -> Ascii.eqb c sep = false) ->
  all_chars p s = true -> contains (String sep EmptyString) s = false.
Proof.
  intros Hp. induction s as [|c s IH]; cbn [all_chars]; [reflexivity|].
  intros H. apply andb_prop in H. destruct H as [Hc Hs].
  rewrite contains_char_cons, Ascii.eqb_sym, (Hp c Hc), (IH Hs). reflexivity.
Qed.

Lemma span_app (p : ascii -> bool) (n rest : string) :
  all_chars p n = true -> span p (n ++ rest) = (String.length n + span p rest)%nat.
Proof.
  induction n as [|c n IH]; cbn [all_chars String.append span String.length]; [reflexivity|].
  intros H. apply andb_prop in H. destruct H as [Hc Hs]. rewrite Hc, (IH Hs). reflexivity.
Qed.

Lemma drop_app (n rest : string) : drop (String.length n) (n ++ rest) = rest.
Proof. induction n as [|c n IH]; cbn; [destruct rest|]; auto. Qed.

Lemma take_app (n rest : string) : take (String.length n) (n ++ rest) = n.
Proof.
  unfold take. induction n as [|c n IH]; cbn; [destruct rest; reflexivity|].
  rewrite IH. reflexivity.
Qed.

Lemma length_append (a b : string) :
  String.length (a ++ b) = (String.length a + String.length b)%nat.
Proof. induction a as [|c a IH]; cbn; [|rewrite IH]; reflexivity. Qed.

Lemma rstrip_plain (s : string) :
  all_chars (fun c => negb (is_space c)) s = true -> rstrip s = s.
Proof.
  induction s as [|c s IH]; cbn [all_chars rstrip]; [reflexivity|].
  intros H. apply andb_prop in H. destruct H as [Hc Hs].
  rewrite (IH Hs). apply Bool.negb_true_iff in Hc. rewrite Hc. reflexivity.
Qed.

Lemma is_name_parts (n : string) :
  is_name n = true ->
  all_chars is_name_char n = true /\ exists k, String.length n = S k.
Proof.
  unfold is_name. intros H. apply andb_prop in H. destruct H as [Hne Hall].
  split; [exact Hall|]. destruct n; [discriminate Hne | eexists; reflexivity].
Qed.

Lemma is_name_no_dollar (n : string) : is_name n = true -> startswith "$" n = false.
Proof.
  intros H. destruct (is_name_parts n H) as [Hall _].
  destruct n as [|c n]; [reflexivity|].
  cbn [all_chars] in Hall. apply andb_prop in Hall. destruct Hall as [Hc _].
  destruct (name_char_is_plain c Hc) as [_ [_ [Hd _]]].
  unfold startswith. cbn [prefix]. destruct (ascii_dec "$" c) as [<-|]; [discriminate Hd|].
  reflexivity.
Qed.

Lemma match_name_of (n rest : string) :
  is_name n = true -> stops_name rest ->
  match_name (String "$" (n ++ rest)) = Some (S (String.length n)).
Proof.
  intros Hn Hrest. destruct (is_name_parts n Hn) as [Hall [k Hk]].
  unfold match_name. rewrite Ascii.eqb_refl.
  rewrite (span_app _ _ _ Hall).
  assert (Hz : span is_name_char rest = 0%nat).
  { destruct rest as [|c rest]; [reflexivity|]. cbn in Hrest |- *. rewrite Hrest. reflexivity. }
  rewrite Hz, Nat.add_0_r, Hk. reflexivity.
Qed.

Lemma chain_rest_stops (others : list string) (rest : string) :
  stops_name rest -> stops_name (chain_rest others ++ rest).
Proof.
  intros H. destruct others as [|m others]; [exact H | reflexivity].
Qed.

Lemma match_more_of (m : string) (others : list string) (rest : string) :
  is_name m = true -> stops_name rest ->
  match_more (chain_rest (m :: others) ++ rest) = Some (String.length m + 3)%nat /\
  drop (String.length m + 3) (chain_rest (m :: others) ++ rest) = (chain_rest others ++ rest)%string.
Proof.
  intros Hm Hrest.
  assert (E : (chain_rest (m :: others) ++ rest)%string
              = String "," (String " " (String "$" (m ++ (chain_rest others ++ rest))))).
  { cbn [chain_rest String.append]. rewrite append_assoc. reflexivity. }
  rewrite E. split.
  - unfold match_more.
    set (body := (m ++ (chain_rest others ++ rest))%string).
    assert (H1 : span is_space (String "," (String " " (String "$" body))) = 0%nat)
      by reflexivity.
    assert (H2 : span is_space (String " " (String "$" body)) = 1%nat) by reflexivity.
    rewrite H1. cbn [drop]. change (Ascii.eqb "," ",") with true. cbv iota.
    rewrite H2. cbn [drop]. unfold body.
    rewrite (match_name_of m _ Hm (chain_rest_stops others rest Hrest)).
    f_equal. lia.
  - replace (String.length m + 3)%nat with (S (S (S (String.length m)))) by lia.
    cbn [drop]. apply drop_app.
Qed.

Lemma match_rest_of (others : list string) (rest : string) :
  Forall (fun m => is_name m = true) others ->
  stops_name rest -> match_more rest = None ->
  forall rounds, (List.length others <= rounds)%nat ->
    match_rest rounds (chain_rest others ++ rest) = String.length (chain_rest others).
Proof.
  intros Hall Hrest Hnone. induction Hall as [|m others Hm _ IH]; intros rounds Hr.
  - cbn [chain_rest String.append String.length]. destruct rounds; [reflexivity|].
    cbn [match_rest]. rewrite Hnone. reflexivity.
  - destruct rounds as [|rounds]; [cbn in Hr; lia|]. cbn [match_rest].
    destruct (match_more_of m others rest Hm Hrest) as [Hmore Hdrop].
    rewrite Hmore, Hdrop. rewrite IH by (cbn in Hr; lia).
    cbn [chain_rest]. rewrite !length_append. cbn [String.length]. lia.
Qed.

Lemma chain_rest_length (others : list string) :
  (List.length others <= String.length (chain_rest others))%nat.
Proof.
  induction others as [|m others IH]; [cbn; lia|].
  cbn [chain_rest List.length]. rewrite !length_append. cbn [String.length]. lia.
Qed.

(** A quoted chain of names is one match of [FILE_PATTERN], and its group
    is the chain. *)
Lemma FILE_PATTERN_chain (first : string) (others : list string) :
  is_name first = true -> Forall (fun m => is_name m = true) others ->
  FILE_PATTERN (quoted (chain first others))
  = Some (chain first others, S (S (String.length (chain first others)))).
Proof.
  intros Hf Ho. unfold quoted, FILE_PATTERN. rewrite Ascii.eqb_refl.
  set (q := String dquote EmptyString).
  assert (Hq : stops_name q) by reflexivity.
  assert (Hnames : match_names (chain first others ++ q)
                   = Some (String.length (chain first others))).
  { unfold match_names, chain.
    change ("$" ++ first ++ chain_rest others)%string
      with (String "$" (first ++ chain_rest others)).
    cbn [String.append]. rewrite append_assoc.
    rewrite (match_name_of first _ Hf (chain_rest_stops others q Hq)).
    change (drop (S (String.length first)) (String "$" (first ++ chain_rest others ++ q)))
      with (drop (String.length first) (first ++ chain_rest others ++ q)).
    rewrite drop_app.
    rewrite (match_rest_of others q Ho Hq eq_refl).
    - cbn [String.length]. rewrite length_append. f_equal.
    - pose proof (chain_rest_length others). cbn [String.length].
      rewrite !length_append. lia. }
  rewrite Hnames, drop_app, take_app. reflexivity.
Qed.

Lemma split_chain_rest (x : string) (others : list string) :
  contains "," x = false ->
  Forall (fun m => is_name m = true) others ->
  split_on "," (x ++ chain_rest others) = x :: map (fun m => " $" ++ m)%string others.
Proof.
  intros Hx Ho. revert x Hx. induction Ho as [|m others Hm _ IH]; intros x Hx.
  - cbn [chain_rest map]. rewrite append_empty_r. apply split_on_plain. exact Hx.
  - cbn [chain_rest map].
    change (", $" ++ m ++ chain_rest others)%string
      with (String "," ((" $" ++ m) ++ chain_rest others))%string.
    rewrite split_on_app, (split_on_plain _ _ Hx). cbn [app]. f_equal.
    apply IH. destruct (is_name_parts m Hm) as [Hall _].
    cbn [String.append contains prefix].
    destruct (ascii_dec "," " "); [discriminate|]. destruct (ascii_dec "," "$"); [discriminate|].
    cbn [orb].
    apply (all_chars_no_sep is_name_char); [|exact Hall].
    intros c Hc. apply (name_char_is_plain c Hc).
Qed.

Lemma strip_candidate (m : string) :
  is_name m = true ->
  strip (String "$" m) = String "$" m /\ strip (" $" ++ m) = String "$" m.
Proof.
  intros Hm. destruct (is_name_parts m Hm) as [Hall _].
  assert (Hr : rstrip (String "$" m) = String "$" m).
  { apply rstrip_plain. cbn [all_chars]. change (is_space "$") with false. cbn [negb andb].
    apply (all_chars_impl is_name_char); [|exact Hall].
    intros c Hc. destruct (name_char_is_plain c Hc) as [Hs _]. rewrite Hs. reflexivity. }
  unfold strip. cbn [String.append lstrip].
  change (is_space "$") with false. change (is_space " ") with true. cbn [lstrip].
  change (is_space "$") with false. cbv iota. split; exact Hr.
Qed.

(** What [replacer] makes of the group of a chain: the candidates, each with
    its dollar. *)
Lemma candidates_of_chain (first : string) (others : list string) :
  is_name first = true -> Forall (fun m => is_name m = true) others ->
  map strip (split_on "," (chain first others)) = map (String "$") (first :: others).
Proof.
  intros Hf Ho. unfold chain.
  change ("$" ++ first ++ chain_rest others)%string
    with (String "$" first ++ chain_rest others)%string.
  rewrite split_chain_rest; [|
    destruct (is_name_parts first Hf) as [Hall _];
    cbn [contains prefix]; destruct (ascii_dec "," "$"); [discriminate|]; cbn [orb];
    apply (all_chars_no_sep is_name_char); [|exact Hall];
    intros c Hc; apply (name_char_is_plain c Hc) | exact Ho].
  cbn [map]. rewrite (proj1 (strip_candidate first Hf)). f_equal.
  rewrite map_map. apply map_ext_in. intros m Hm.
  rewrite Forall_forall in Ho. apply (strip_candidate m (Ho m Hm)).
Qed.

Lemma last_candidate_has_dollar (names : list string) :
  names <> [] -> startswith "$" (last (map (String "$") names) EmptyString) = true.
Proof.
  induction names as [|n names IH]; [congruence|]. intros _.
  destruct names as [|m names]; [apply startswith_dollar|].
  change (last (map (String "$") (n :: m :: names)) EmptyString)
    with (last (map (String "$") (m :: names)) EmptyString).
  apply IH. discriminate.
Qed.

(** The substitution of one quoted chain is the loop of [replacer] over its
    candidates. *)
Lemma substitute_chain (float_repr : float -> string) (fuel : nat) (toml_data : value)
    (first : string) (others : list string) :
  is_name first = true -> Forall (fun m => is_name m = true) others ->
  substitute_variables float_repr (S fuel) (quoted (chain first others)) toml_data false true
  = try_candidates float_repr
      (fun t q => substitute_variables float_repr fuel t toml_data true q)
      fuel toml_data true
      (last (map (String "$") (first :: others)) EmptyString)
      (map (String "$") (first :: others)).
Proof.
  intros Hf Ho. cbn [substitute_variables].
  rewrite (re_sub_one_token _ _ (FILE_PATTERN_chain first others Hf Ho)).
  unfold replacer. rewrite (candidates_of_chain first others Hf Ho).
  destruct (try_candidates _ _ _ _ _ _ _); reflexivity.
Qed.

(** X6. A fallback chain in which every candidate resolves to nothing
    usable ([None], a boolean or a table) is replaced by [null]. *)
Theorem chain_without_value_is_null (float_repr : float -> string) (fuel : nat)
    (toml_data : value) (first : string) (others : list string) :
  Forall (fun n => is_name n = true) (first :: others) ->
  Forall (fun n => exists v, resolve_variable fuel n toml_data false = Ret v /\
                             passed_over v = true) (first :: others) ->
  substitute_variables float_repr (S fuel) (quoted (chain first others)) toml_data false true
  = Ret "null".
Proof.
  intros Hnames Hres. inversion Hnames as [|? ? Hf Ho]; subst.
  rewrite (substitute_chain float_repr fuel toml_data first others Hf Ho).
  apply candidates_all_passed_over.
  - apply last_candidate_has_dollar. discriminate.
  - rewrite Forall_forall in *. intros n Hn. split; [|apply Hres; exact Hn].
    apply is_name_no_dollar. apply Hnames. exact Hn.
Qed.

(** X7. In a fallback chain the first candidate that resolves to a text
    wins: when the candidates before it resolve to nothing usable and the
    text holds no placeholder, the chain is replaced by that text as a JSON
    string, whatever the later candidates are bound to. *)
Theorem chain_takes_first_text (float_repr : float -> string) (fuel : nat)
    (toml_data : value) (first : string) (others pre post : list string) (n s : string) :
  Forall (fun n => is_name n = true) (first :: others) ->
  first :: others = pre ++ n :: post ->
  Forall (fun m => exists v, resolve_variable fuel m toml_data false = Ret v /\
                             passed_over v = true) pre ->
  resolve_variable fuel n toml_data false = Ret (VStr s) ->
  contains "$" s = false ->
  substitute_variables float_repr (S fuel) (quoted (chain first others)) toml_data false true
  = Ret (Json.dumps_str s).
Proof.
  intros Hnames Hsplit Hpre Hres Hs. inversion Hnames as [|? ? Hf Ho]; subst.
  rewrite (substitute_chain float_repr fuel toml_data first others Hf Ho).
  rewrite Hsplit.
  rewrite Forall_forall in Hnames. rewrite Hsplit in Hnames.
  apply (candidates_first_text float_repr _ fuel toml_data true _
           (last_candidate_has_dollar (pre ++ n :: post) ltac:(destruct pre; discriminate))
           pre post n s).
  - rewrite Forall_forall in *. intros m Hm. split; [|apply Hpre; exact Hm].
    apply is_name_no_dollar. apply Hnames. apply in_or_app. left. exact Hm.
  - apply is_name_no_dollar. apply Hnames. apply in_or_app. right. left. reflexivity.
  - exact Hres.
  - exact Hs.
Qed.

Lemma chain_without_value_is_null_witness :
  substitute_variables no_float_text 1 (quoted "$editor.bg, $flag, $missing")
    (VDict [(KStr "flag", VBool true); (KStr "editor", VDict [])]) false true
  = Ret "null".
Proof.
  apply (chain_without_value_is_null no_float_text 0
           (VDict [(KStr "flag", VBool true); (KStr "editor", VDict [])])
           "editor.bg" ["flag"; "missing"]).
  - repeat constructor.
  - repeat constructor; eexists; split; reflexivity.
Defined.

Lemma chain_takes_first_text_witness :
  substitute_variables no_float_text 1 (quoted "$missing.path, $fallback, $other")
    (VDict [(KStr "fallback", VStr "#112233"); (KStr "other", VStr "#445566")]) false true
  = Ret (Json.dumps_str "#112233").
Proof.
  apply (chain_takes_first_text no_float_text 0
           (VDict [(KStr "fallback", VStr "#112233"); (KStr "other", VStr "#445566")])
           "missing.path" ["fallback"; "other"] ["missing.path"] ["other"]
           "fallback" "#112233").
  - repeat constructor.
  - reflexivity.
  - repeat constructor. eexists; split; reflexivity.
  - reflexivity.
  - reflexivity.
Defined.

(** ** Paths *)

Lemma plain_segment_parts (p : string) :
  plain_segment p = true ->
  startswith "[" p = false /\ isdigit p = false /\ contains "." p = false.
Proof.
  unfold plain_segment. intros H.
  apply andb_prop in H. destruct H as [H H3]. apply andb_prop in H. destruct H as [H1 H2].
  rewrite Bool.negb_true_iff in *. auto.
Qed.

Lemma parse_parts_plain (segments : list string) :
  Forall (fun p => plain_segment p = true) segments ->
  parse_parts None segments = Ret (map KStr segments).
Proof.
  induction 1 as [|p segments Hp _ IH]; [reflexivity|].
  destruct (plain_segment_parts p Hp) as [H1 [H2 _]].
  cbn [parse_parts map]. rewrite H1, H2, IH. reflexivity.
Qed.

Lemma split_join (segments : list string) :
  segments <> [] ->
  Forall (fun p => contains "." p = false) segments ->
  split_on "." (join "." segments) = segments.
Proof.
  intros Hne Hall. induction Hall as [|p segments Hp Hall IH]; [congruence|].
  destruct segments as [|q segments].
  - cbn [join]. apply split_on_plain. exact Hp.
  - change (join "." (p :: q :: segments)) with (p ++ String "." (join "." (q :: segments)))%string.
    rewrite split_on_app, (split_on_plain _ _ Hp), IH by discriminate. reflexivity.
Qed.

(** X8. A path of plain segments joined by dots is parsed into those
    segments, in order. *)
Theorem parse_full_key_plain (segments : list string) :
  segments <> [] ->
  Forall (fun p => plain_segment p = true) segments ->
  parse_full_key (join "." segments) = Ret (map KStr segments).
Proof.
  intros Hne Hall. unfold parse_full_key.
  rewrite split_join; [apply parse_parts_plain; exact Hall | exact Hne |].
  apply (Forall_impl _ (P := fun p => plain_segment p = true)); [|exact Hall].
  intros p Hp. apply (plain_segment_parts p Hp).
Qed.

Lemma parse_full_key_plain_witness :
  parse_full_key (join "." ["style"; "syntax"; "comment"])
  = Ret [KStr "style"; KStr "syntax"; KStr "comment"].
Proof.
  apply (parse_full_key_plain ["style"; "syntax"; "comment"]).
  - discriminate.
  - repeat constructor.
Defined.

Lemma endswith_char_app (c : ascii) (a b : string) :
  b <> EmptyString -> endswith_char c (a ++ b) = endswith_char c b.
Proof.
  intros Hb. induction a as [|x a IH]; [reflexivity|].
  cbn [String.append endswith_char]. rewrite IH.
  destruct (a ++ b)%string eqn:E; [|reflexivity].
  destruct a; cbn in E; [contradiction | discriminate].
Qed.

Lemma endswith_char_dot (a p : string) :
  endswith_char "]" (a ++ "." ++ p) = endswith_char "]" p.
Proof.
  destruct p as [|c p].
  - rewrite endswith_char_app by discriminate. reflexivity.
  - change (a ++ "." ++ String c p)%string with (a ++ (String "." (String c p)))%string.
    rewrite endswith_char_app by discriminate. reflexivity.
Qed.

Lemma inside_bracket (k : string) : inside ("[" ++ k ++ "]") = k.
Proof.
  unfold inside. cbn [String.append String.length drop].
  rewrite length_append. cbn [String.length].
  replace (S (String.length k + 1) - 2)%nat with (String.length k) by lia.
  apply take_app.
Qed.

Lemma dot_split (r : string) :
  contains "." r = false \/
  exists r1 r', r = (r1 ++ String "." r')%string /\ contains "." r1 = false /\
                (String.length r' < String.length r)%nat.
Proof.
  induction r as [|c r IH]; [left; reflexivity|].
  destruct (Ascii.eqb_spec "." c) as [<-|Hc].
  - right. exists EmptyString, r. repeat split. cbn. lia.
  - destruct IH as [Hno|[r1 [r' [-> [H1 Hlen]]]]].
    + left. rewrite contains_char_cons, Hno.
      destruct (Ascii.eqb_spec "." c); [contradiction | reflexivity].
    + right. exists (String c r1), r'. repeat split.
      * rewrite contains_char_cons, H1.
        destruct (Ascii.eqb_spec "." c); [contradiction | reflexivity].
      * cbn [String.length String.append]. lia.
Qed.

Lemma no_bracket_dot (r1 r' : string) :
  contains "]." (r1 ++ String "." r') = false ->
  endswith_char "]" r1 = false /\ contains "]." r' = false.
Proof.
  induction r1 as [|c r1 IH]; cbn [String.append]; intros H.
  - split; [reflexivity | exact (contains_tail _ _ _ H)].
  - destruct (IH (contains_tail _ _ _ H)) as [He Hr]. split; [|exact Hr].
    cbn [endswith_char]. destruct r1 as [|c2 r1]; [|exact He].
    apply contains_head in H. cbn [String.append prefix] in H.
    destruct (ascii_dec "]" c) as [<-|Hc].
    + destruct (ascii_dec "." "."); [destruct r'; discriminate H | congruence].
    + destruct (Ascii.eqb_spec "]" c); [contradiction | reflexivity].
Qed.

Lemma no_dot_with_bracket (r : string) :
  contains "." r = false -> contains "." (r ++ "]") = false.
Proof.
  induction r as [|c r IH]; [reflexivity|]. intros H.
  pose proof (contains_tail _ _ _ H) as Ht.
  rewrite contains_char_cons in H. apply Bool.orb_false_elim in H. destruct H as [Hc _].
  cbn [String.append]. rewrite contains_char_cons, Hc, (IH Ht). reflexivity.
Qed.

(** A bracket that was opened is closed by the bracket that ends the
    text, when no part before ends with one. *)
Lemma open_bracket_closes (n : nat) :
  forall (r acc : string),
    (String.length r < n)%nat ->
    contains "]." r = false ->
    parse_parts (Some acc) (split_on "." (r ++ "]"))
    = Ret [KStr (inside (acc ++ "." ++ r ++ "]"))].
Proof.
  induction n as [|n IH]; intros r acc Hlen Hr; [lia|].
  destruct (dot_split r) as [Hno|[r1 [r' [-> [H1 Hl]]]]].
  - rewrite (split_on_plain _ _ (no_dot_with_bracket r Hno)).
    cbn [parse_parts]. rewrite endswith_char_dot.
    rewrite endswith_char_app by discriminate. reflexivity.
  - destruct (no_bracket_dot r1 r' Hr) as [He Hr'].
    rewrite append_assoc. change (String "." r' ++ "]")%string with (String "." (r' ++ "]")).
    rewrite split_on_app, (split_on_plain _ _ H1). cbn [app parse_parts].
    rewrite endswith_char_dot, He.
    rewrite (IH r' _ ltac:(cbn [String.length] in *; rewrite length_append in Hlen; cbn [String.length] in Hlen; lia) Hr').
    do 3 f_equal.
    rewrite !append_assoc. reflexivity.
Qed.

(** A key in brackets is read as that key, dots included. *)
Lemma parse_bracketed (k : string) :
  contains "]." k = false ->
  parse_parts None (split_on "." ("[" ++ k ++ "]")) = Ret [KStr k].
Proof.
  intros Hk.
  assert (Hstart : forall t, startswith "[" (String "[" t) = true).
  { intros t. unfold startswith. cbn [prefix].
    destruct (ascii_dec "[" "["); [|congruence]. destruct t; reflexivity. }
  destruct (dot_split k) as [Hno|[k1 [k' [-> [H1 Hl]]]]].
  - assert (Hplain : contains "." ("[" ++ k ++ "]") = false).
    { change ("[" ++ k ++ "]")%string with (String "[" (k ++ "]")).
      rewrite contains_char_cons, (no_dot_with_bracket k Hno). reflexivity. }
    rewrite (split_on_plain _ _ Hplain). cbn [parse_parts].
    assert (He : endswith_char "]" ("[" ++ k ++ "]") = true).
    { rewrite endswith_char_app by (destruct k; discriminate).
      rewrite endswith_char_app by discriminate. reflexivity. }
    rewrite He, inside_bracket.
    change ("[" ++ k ++ "]")%string with (String "[" (k ++ "]")).
    rewrite Hstart. reflexivity.
  - destruct (no_bracket_dot k1 k' Hk) as [He Hk'].
    assert (E : ("[" ++ (k1 ++ String "." k') ++ "]")%string
                = (String "[" k1 ++ String "." (k' ++ "]"))%string).
    { cbn [String.append]. rewrite append_assoc. reflexivity. }
    rewrite E, split_on_app.
    assert (H1' : contains "." (String "[" k1) = false).
    { rewrite contains_char_cons, H1. reflexivity. }
    rewrite (split_on_plain _ _ H1'). cbn [app parse_parts].
    assert (He' : endswith_char "]" (String "[" k1) = false).
    { cbn [endswith_char]. destruct k1; [reflexivity | exact He]. }
    rewrite Hstart, He'.
    rewrite (open_bracket_closes (S (String.length k')) k' _ ltac:(lia) Hk').
    do 3 f_equal.
    change (String "[" k1 ++ "." ++ k' ++ "]")%string
      with ("[" ++ (k1 ++ String "." (k' ++ "]")))%string.
    assert (E2 : (k1 ++ String "." (k' ++ "]"))%string = ((k1 ++ String "." k') ++ "]")%string).
    { rewrite append_assoc. reflexivity. }
    rewrite E2. apply inside_bracket.
Qed.

Lemma parse_parts_app (l1 : list string) :
  forall (open : option string) (keys1 : list key) (l2 : list string),
    parse_parts open l1 = Ret keys1 ->
    parse_parts open (l1 ++ l2) = (keys <- parse_parts None l2 ;; Ret (keys1 ++ keys)).
Proof.
  induction l1 as [|p l1 IH]; intros open keys1 l2 H.
  - destruct open; cbn in H; [discriminate|]. injection H as <-.
    cbn [app]. destruct (parse_parts None l2); reflexivity.
  - cbn [app parse_parts] in *.
    assert (Hcons : forall k,
               (keys <- parse_parts None l1 ;; Ret (k :: keys)) = Ret keys1 ->
               (keys <- parse_parts None (l1 ++ l2) ;; Ret (k :: keys))
               = (keys <- parse_parts None l2 ;; Ret (keys1 ++ keys))).
    { intros k Hk. bind_ret Hk. injection Hk as <-.
      rewrite (IH None x l2 E). destruct (parse_parts None l2); reflexivity. }
    destruct open as [part|].
    + destruct (endswith_char "]" (part ++ "." ++ p)); [apply Hcons | apply IH]; exact H.
    + destruct (startswith "[" p).
      * destruct (endswith_char "]" p); [apply Hcons | apply IH]; exact H.
      * destruct (isdigit p); apply Hcons; exact H.
Qed.

(** X9. Round trip of a nested path.  The path that the deletion scan
    writes for a key under a prefix is read by [parse_full_key] as the
    segments of the prefix followed by the key itself, for every key that is
    readable: a key with dots is written in brackets and read as one
    segment. *)
Theorem scanned_path_reads_back (prefix k : string) (keys : list key) :
  is_empty prefix = false ->
  parse_full_key prefix = Ret keys ->
  readable_key k = true ->
  parse_full_key (full_key_of prefix k) = Ret (keys ++ [KStr k]).
Proof.
  intros Hne Hprefix Hk. unfold parse_full_key, full_key_of in *. rewrite Hne.
  change (prefix ++ "." ++ bracketed k)%string with (prefix ++ String "." (bracketed k))%string.
  rewrite split_on_app, (parse_parts_app _ _ _ _ Hprefix).
  assert (Hkey : parse_parts None (split_on "." (bracketed k)) = Ret [KStr k]).
  { unfold bracketed, readable_key in *. destruct (contains "." k) eqn:Hdot.
    - apply parse_bracketed. apply Bool.negb_true_iff. exact Hk.
    - rewrite (split_on_plain _ _ Hdot). apply andb_prop in Hk. destruct Hk as [H1 H2].
      apply Bool.negb_true_iff in H1, H2. cbn [parse_parts]. rewrite H1, H2. reflexivity. }
  rewrite Hkey. reflexivity.
Qed.

Lemma scanned_path_reads_back_witness :
  parse_full_key (full_key_of "style.players.0" "terminal.ansi.white")
  = Ret ([KStr "style"; KStr "players"; KInt 0] ++ [KStr "terminal.ansi.white"]).
Proof.
  apply (scanned_path_reads_back "style.players.0" "terminal.ansi.white"
           [KStr "style"; KStr "players"; KInt 0]); reflexivity.
Defined.

(** X10. At the top level the scan writes the key as it is, without
    brackets, so a key with a dot is read back as two segments and not as
    the key. *)
Theorem top_level_key_is_not_bracketed (a b : string) :
  plain_segment a = true ->
  plain_segment b = true ->
  full_key_of "" (a ++ "." ++ b) = (a ++ "." ++ b)%string /\
  parse_full_key (full_key_of "" (a ++ "." ++ b)) = Ret [KStr a; KStr b].
Proof.
  intros Ha Hb. split; [reflexivity|].
  change (full_key_of "" (a ++ "." ++ b)) with (join "." [a; b]).
  destruct (plain_segment_parts a Ha) as [_ [_ Ha']].
  destruct (plain_segment_parts b Hb) as [_ [_ Hb']].
  unfold parse_full_key.
  rewrite split_join by (try discriminate; repeat constructor; assumption).
  apply parse_parts_plain. repeat constructor; assumption.
Qed.

Lemma top_level_key_is_not_bracketed_witness :
  full_key_of "" ("editor" ++ "." ++ "background") = "editor.background" /\
  parse_full_key (full_key_of "" ("editor" ++ "." ++ "background"))
  = Ret [KStr "editor"; KStr "background"].
Proof.
  apply (top_level_key_is_not_bracketed "editor" "background"); reflexivity.
Defined.

Lemma never_closed (l : list string) :
  Forall (fun p => endswith_char "]" p = false) l ->
  forall acc, parse_parts (Some acc) l = Raise IndexError.
Proof.
  induction 1 as [|p l Hp _ IH]; intros acc; [reflexivity|].
  cbn [parse_parts]. rewrite endswith_char_dot, Hp. apply IH.
Qed.

(** X11. A path that opens a bracket and never closes it makes
    [parse_full_key] raise [IndexError]: the loop that joins the parts runs
    past the last one. *)
Theorem unclosed_bracket_raises (full_key : string) :
  startswith "[" full_key = true ->
  Forall (fun p => endswith_char "]" p = false) (split_on "." full_key) ->
  parse_full_key full_key = Raise IndexError.
Proof.
  intros Hs Hall. unfold parse_full_key.
  destruct (split_on "." full_key) as [|p l] eqn:E;
    [exfalso; exact (split_on_nonempty _ _ E)|].
  assert (Hp : startswith "[" p = true).
  { destruct full_key as [|c s]; [discriminate Hs|].
    unfold startswith in *. cbn [prefix] in Hs.
    destruct (ascii_dec "[" c) as [<-|]; [|discriminate Hs].
    cbn [split_on] in E. change (Ascii.eqb "[" ".") with false in E. cbv iota in E.
    destruct (split_on "." s) as [|h t]; injection E as <- _; cbn [prefix];
      (destruct (ascii_dec "[" "[") as [_|Hn]; [|congruence]).
    - reflexivity.
    - destruct h; reflexivity. }
  inversion Hall as [|? ? He Hl]; subst.
  cbn [parse_parts]. rewrite Hp, He. apply never_closed. exact Hl.
Qed.

Lemma unclosed_bracket_raises_witness :
  parse_full_key "[terminal.ansi.white" = Raise IndexError.
Proof.
  apply (unclosed_bracket_raises "[terminal.ansi.white").
  - reflexivity.
  - repeat constructor.
Defined.

(** ** Deletions along a path *)

Lemma has_get (d : dict) (k : key) :
  Dict.has d k = true -> exists v, Dict.get d k = Some v.
Proof. unfold Dict.has. destruct (Dict.get d k) as [v|]; [eauto | discriminate]. Qed.

Lemma set_get_same (d : dict) (k : key) (v : value) :
  Dict.get d k = Some v -> Dict.set d k v = d.
Proof.
  induction d as [|[k' v'] d IH]; cbn; [discriminate|].
  destruct (key_eqb k k'); intros H.
  - injection H as ->. reflexivity.
  - rewrite (IH H). reflexivity.
Qed.

Lemma getitem_str_key (val : value) (s : string) (child : value) :
  getitem val (KStr s) = Ret child ->
  exists d, val = VDict d /\ Dict.get d (KStr s) = Some child.
Proof.
  destruct val as [| | | | |l|d]; cbn; try discriminate.
  destruct (Dict.get d (KStr s)) as [v|] eqn:G; [|discriminate].
  intros H. injection H as <-. eauto.
Qed.

Lemma follow_name (a : string) (rest : list key) (theme sub : value) :
  follow (KStr a :: rest) theme = Some sub ->
  exists d child,
    theme = VDict d /\ Dict.get d (KStr a) = Some child /\ follow rest child = Some sub.
Proof.
  cbn [follow]. destruct (is_container theme); [|discriminate].
  destruct (getitem theme (KStr a)) as [child| |] eqn:G; try discriminate.
  destruct (getitem_str_key _ _ _ G) as [d [-> Hget]]. eauto.
Qed.

Lemma delete_walk_cons (k : key) (rest : list key) (val : value) :
  rest <> [] ->
  delete_walk (k :: rest) val
  = (present <- contains_key k val ;;
     if negb present then delete_walk rest val
     else
       child <- getitem val k ;;
       child' <- delete_walk rest child ;;
       Ret (with_child val k child')).
Proof. destruct rest; [congruence | reflexivity]. Qed.

(** The walk below a path of names that exists is the walk from the value at
    the end of the path. *)
Lemma delete_walk_under (keys : list string) :
  forall (theme sub sub' : value) (rest : list key),
    rest <> [] ->
    follow (map KStr keys) theme = Some sub ->
    delete_walk rest sub = Ret sub' ->
    delete_walk (map KStr keys ++ rest) theme = Ret (put (map KStr keys) theme sub').
Proof.
  induction keys as [|a keys IH]; intros theme sub sub' rest Hne Hf Hd.
  - cbn in *. injection Hf as <-. exact Hd.
  - cbn [map app put] in *.
    destruct (follow_name _ _ _ _ Hf) as [d [child [-> [Hget Hrest]]]].
    assert (G : getitem (VDict d) (KStr a) = Ret child) by (cbn; rewrite Hget; reflexivity).
    rewrite delete_walk_cons by (intros E; apply app_eq_nil in E; destruct E; contradiction).
    cbn [contains_key bind]. unfold Dict.has. rewrite Hget. cbn [negb].
    rewrite G. cbn [bind]. rewrite (IH child sub sub' rest Hne Hrest Hd). reflexivity.
Qed.

Lemma follow_put (keys : list string) :
  forall (theme sub new : value),
    follow (map KStr keys) theme = Some sub ->
    follow (map KStr keys) (put (map KStr keys) theme new) = Some new.
Proof.
  induction keys as [|a keys IH]; intros theme sub new Hf; [reflexivity|].
  cbn [map] in *.
  destruct (follow_name _ _ _ _ Hf) as [d [child [-> [Hget Hrest]]]].
  cbn [follow put is_container getitem]. rewrite Hget.
  cbn [with_child setitem getitem is_container]. rewrite get_set_same.
  apply (IH child sub new Hrest).
Qed.

Lemma put_same (keys : list string) :
  forall (theme sub : value),
    follow (map KStr keys) theme = Some sub ->
    put (map KStr keys) theme sub = theme.
Proof.
  induction keys as [|a keys IH]; intros theme sub Hf.
  - cbn in *. congruence.
  - cbn [map] in *.
    destruct (follow_name _ _ _ _ Hf) as [d [child [-> [Hget Hrest]]]].
    cbn [put getitem]. rewrite Hget.
    rewrite (IH child sub Hrest). cbn [with_child setitem].
    rewrite (set_get_same _ _ _ Hget). reflexivity.
Qed.

(** X12. A deletion whose path names tables that exist, down to a table that
    holds the last segment, removes that entry from that table and leaves
    the rest of the theme as it was. *)
Theorem deletion_removes_nested_key (full_key : string) (keys : list string) (k : key)
    (theme : value) (d : dict) :
  parse_full_key full_key = Ret (map KStr keys ++ [k]) ->
  follow (map KStr keys) theme = Some (VDict d) ->
  Dict.has d k = true ->
  apply_deletion theme (VStr full_key)
  = Ret (put (map KStr keys) theme (VDict (Dict.del d k))) /\
  follow (map KStr keys) (put (map KStr keys) theme (VDict (Dict.del d k)))
  = Some (VDict (Dict.del d k)).
Proof.
  intros Hparse Hf Hk. split; [|apply (follow_put keys theme (VDict d)); exact Hf].
  unfold apply_deletion. rewrite Hparse. cbn [bind].
  apply (delete_walk_under keys theme (VDict d)); [discriminate | exact Hf |].
  cbn [delete_walk contains_key bind delitem]. rewrite Hk. reflexivity.
Qed.

Lemma deletion_removes_nested_key_witness :
  apply_deletion
    (VDict [(KStr "style", VDict [(KStr "syntax", VDict [(KStr "comment", VInt 1);
                                                         (KStr "string", VInt 2)])])])
    (VStr "style.syntax.comment")
  = Ret (put (map KStr ["style"; "syntax"])
           (VDict [(KStr "style", VDict [(KStr "syntax", VDict [(KStr "comment", VInt 1);
                                                                (KStr "string", VInt 2)])])])
           (VDict (Dict.del [(KStr "comment", VInt 1); (KStr "string", VInt 2)]
                     (KStr "comment")))) /\
  follow (map KStr ["style"; "syntax"])
    (put (map KStr ["style"; "syntax"])
       (VDict [(KStr "style", VDict [(KStr "syntax", VDict [(KStr "comment", VInt 1);
                                                            (KStr "string", VInt 2)])])])
       (VDict (Dict.del [(KStr "comment", VInt 1); (KStr "string", VInt 2)]
                 (KStr "comment"))))
  = Some (VDict (Dict.del [(KStr "comment", VInt 1); (KStr "string", VInt 2)]
                   (KStr "comment"))).
Proof.
  apply (deletion_removes_nested_key "style.syntax.comment" ["style"; "syntax"]
           (KStr "comment")); reflexivity.
Defined.

Lemma not_among_tables (k : key) (l : list value) :
  forallb is_table l = true -> existsb (key_equals k) l = false.
Proof.
  induction l as [|v l IH]; [reflexivity|]. cbn [forallb existsb]. intros H.
  apply andb_prop in H. destruct H as [Hv Hl]. rewrite (IH Hl).
  destruct v; try discriminate Hv. destruct k; reflexivity.
Qed.

Lemma delete_walk_in_tables (rest : list key) (l : list value) :
  forallb is_table l = true -> delete_walk rest (VList l) = Ret (VList l).
Proof.
  intros Hl. induction rest as [|k rest IH]; [reflexivity|].
  destruct rest as [|k2 rest].
  - cbn [delete_walk contains_key bind]. rewrite (not_among_tables k l Hl). reflexivity.
  - rewrite delete_walk_cons by discriminate.
    cbn [contains_key bind]. rewrite (not_among_tables k l Hl). exact IH.
Qed.

(** X13. A deletion path that goes through a position of a list of tables
    deletes nothing: the walk asks whether the number is an element of the
    list, not whether the list is that long, and then looks for the
    remaining segments among the elements of the list. *)
Theorem deletion_below_list_index_is_lost (full_key : string) (keys : list string)
    (n : Z) (rest : list key) (theme : value) (l : list value) :
  parse_full_key full_key = Ret (map KStr keys ++ KInt n :: rest) ->
  follow (map KStr keys) theme = Some (VList l) ->
  forallb is_table l = true ->
  apply_deletion theme (VStr full_key) = Ret theme.
Proof.
  intros Hparse Hf Hl. unfold apply_deletion. rewrite Hparse. cbn [bind].
  rewrite (delete_walk_under keys theme (VList l) (VList l));
    [rewrite (put_same keys theme _ Hf); reflexivity | discriminate | exact Hf |].
  apply delete_walk_in_tables. exact Hl.
Qed.

Lemma deletion_below_list_index_is_lost_witness :
  apply_deletion
    (VDict [(KStr "players", VList [VDict [(KStr "cursor", VStr "#ffffff")]])])
    (VStr "players.0.cursor")
  = Ret (VDict [(KStr "players", VList [VDict [(KStr "cursor", VStr "#ffffff")]])]).
Proof.
  apply (deletion_below_list_index_is_lost "players.0.cursor" ["players"] 0
           [KStr "cursor"]
           (VDict [(KStr "players", VList [VDict [(KStr "cursor", VStr "#ffffff")]])])
           [VDict [(KStr "cursor", VStr "#ffffff")]]); reflexivity.
Defined.

(** ** Direct overrides along a path *)

Lemma follow_cons (k : key) (rest : list key) (val sub : value) :
  follow (k :: rest) val = Some sub ->
  is_container val = true /\
  exists child, getitem val k = Ret child /\ follow rest child = Some sub.
Proof.
  cbn [follow]. destruct (is_container val); [|discriminate].
  destruct (getitem val k) as [child| |]; try discriminate. eauto.
Qed.

Lemma position_below (len : nat) (n : Z) (i : nat) :
  position len n = Some i ->
  (i < len)%nat /\ (Z.of_nat len <=? n) = false /\ (Z.of_nat len <? n) = false.
Proof.
  unfold position. intros H.
  set (j := if n <? 0 then n + Z.of_nat len else n) in *.
  destruct ((0 <=? j) && (j <? Z.of_nat len))%bool eqn:E; [|discriminate].
  injection H as <-. apply andb_prop in E. destruct E as [E1 E2].
  apply Z.leb_le in E1. apply Z.ltb_lt in E2.
  assert (n < Z.of_nat len) by (subst j; destruct (Z.ltb_spec n 0); lia).
  repeat split.
  - lia.
  - apply Z.leb_gt. lia.
  - apply Z.ltb_ge. lia.
Qed.

(** A segment that is there needs no room made for it. *)
Lemma make_room_present (v : value) (k : key) (rest : list key) (val child : value) :
  is_container val = true ->
  getitem val k = Ret child ->
  make_room v k rest val = Ret val.
Proof.
  destruct val as [| | | | |l|d]; try discriminate; intros _ G; cbn in G |- *.
  - destruct k as [s|n]; [discriminate|].
    destruct (position (List.length l) n) as [i|] eqn:P; [|discriminate].
    destruct (position_below _ _ _ P) as [_ [-> _]]. reflexivity.
  - unfold Dict.has. destruct (Dict.get d k); [reflexivity | discriminate].
Qed.

Lemma assign_final_present (v : value) (k : key) (val child : value) :
  is_container val = true ->
  getitem val k = Ret child ->
  match val with VList _ => true | _ => key_truthy k end = true ->
  assign_final v k val = Ret (with_child val k (stored v)).
Proof.
  unfold assign_final. fold (stored v).
  destruct val as [| | | | |l|d]; try discriminate; intros _ G Hk.
  - destruct k as [s|n]; [discriminate G|]. cbn in G.
    destruct (position (List.length l) n) as [i|] eqn:P; [|discriminate].
    destruct (position_below _ _ _ P) as [_ [_ Hlt]].
    unfold with_child. cbn [setitem]. rewrite P, Hlt.
    destruct (key_truthy (KInt n)); cbn [bind contains_key];
      [destruct (existsb (key_equals (KInt n)) l)|]; reflexivity.
  - rewrite Hk. cbn in G |- *. unfold Dict.has.
    destruct (Dict.get d k); [reflexivity | discriminate].
Qed.

Lemma follow_container (k : key) (rest : list key) (val sub : value) :
  follow (k :: rest) val = Some sub -> is_container val = true.
Proof. intros H. apply (follow_cons _ _ _ _ H). Qed.

(** The walk of a direct override along a path that exists down to a value
    that is neither a table nor a list: the value is replaced, whatever
    segments follow. *)
Lemma direct_walk_to_leaf (v : value) (path : list key) :
  forall (theme leaf : value) (extra : list key),
    follow path theme = Some leaf ->
    is_container leaf = false ->
    assignable path theme = true ->
    direct_walk v (path ++ extra) theme = Ret (put path theme (stored v)).
Proof.
  induction path as [|k rest IH]; intros theme leaf extra Hf Hleaf Ha; [discriminate Ha|].
  destruct (follow_cons _ _ _ _ Hf) as [Hc [child [G Hrest]]].
  cbn [app direct_walk put]. rewrite (make_room_present v k _ theme child Hc G).
  cbn [bind]. rewrite G. cbn [bind].
  destruct rest as [|k2 rest].
  - cbn in Hrest. injection Hrest as ->. rewrite Hleaf. cbn [put].
    apply (assign_final_present v k theme leaf Hc G). exact Ha.
  - rewrite (follow_container _ _ _ _ Hrest). cbn [app].
    assert (Ha' : assignable (k2 :: rest) child = true).
    { change (assignable (k :: k2 :: rest) theme)
        with (match getitem theme k with
              | Ret c => assignable (k2 :: rest) c
              | _ => false
              end) in Ha.
      rewrite G in Ha. exact Ha. }
    change (k2 :: rest ++ extra) with ((k2 :: rest) ++ extra).
    rewrite (IH child leaf extra Hrest Hleaf Ha'). reflexivity.
Qed.

Lemma apply_direct_override_dotted (fuel : nat) (toml_data theme : value) (k : string)
    (v : value) (parts : list key) :
  contains "." k = true ->
  literal v = true ->
  parse_full_key k = Ret parts ->
  parts <> [] ->
  apply_direct_override fuel toml_data theme (KStr k, v) = direct_walk v parts theme.
Proof.
  intros Hk Hv Hparse Hne. unfold apply_direct_override.
  assert (E : match v with
              | VStr s =>
                  if contains "$" s then resolve_variable fuel (drop 1 s) toml_data false
                  else Ret v
              | _ => Ret v
              end = Ret v).
  { destruct v; try reflexivity. cbn in Hv. apply Bool.negb_true_iff in Hv.
    rewrite Hv. reflexivity. }
  rewrite E. cbn [bind]. rewrite Hk, Hparse. cbn [negb bind].
  destruct parts; [congruence | reflexivity].
Qed.

Lemma nth_list_set (l : list value) (i : nat) (v : value) :
  (i < List.length l)%nat -> nth i (list_set l i v) VNone = v.
Proof.
  revert i. induction l as [|x l IH]; intros [|i] H; cbn in *; try lia; [reflexivity|].
  apply IH. lia.
Qed.

Lemma list_set_nth (l : list value) (i : nat) :
  list_set l i (nth i l VNone) = l.
Proof.
  revert i. induction l as [|x l IH]; intros [|i]; cbn; try reflexivity.
  rewrite IH. reflexivity.
Qed.

Lemma getitem_with_child (val : value) (k : key) (child new : value) :
  is_container val = true ->
  getitem val k = Ret child ->
  is_container (with_child val k new) = true /\
  getitem (with_child val k new) k = Ret new.
Proof.
  destruct val as [| | | | |l|d]; try discriminate; intros _ G; cbn in G.
  - destruct k as [s|n]; [discriminate|].
    destruct (position (List.length l) n) as [i|] eqn:P; [|discriminate].
    unfold with_child. cbn [setitem]. rewrite P. cbn [getitem is_container].
    rewrite list_set_length, P.
    rewrite nth_list_set by apply (position_below _ _ _ P). auto.
  - unfold with_child. cbn. rewrite get_set_same. auto.
Qed.

Lemma with_child_same (val : value) (k : key) (child : value) :
  getitem val k = Ret child -> with_child val k child = val.
Proof.
  destruct val as [| | | | s|l|d]; try reflexivity; intros G; cbn in G.
  - destruct k as [s|n]; [reflexivity|].
    destruct (position (List.length l) n) as [i|] eqn:P; [|discriminate].
    injection G as <-. unfold with_child. cbn [setitem]. rewrite P, list_set_nth. reflexivity.
  - destruct (Dict.get d k) as [c|] eqn:Hget; [|discriminate]. injection G as ->.
    unfold with_child. cbn [setitem]. rewrite (set_get_same _ _ _ Hget). reflexivity.
Qed.

Lemma follow_put_any (path : list key) :
  forall (theme sub new : value),
    follow path theme = Some sub ->
    follow path (put path theme new) = Some new.
Proof.
  induction path as [|k rest IH]; intros theme sub new Hf; [reflexivity|].
  destruct (follow_cons _ _ _ _ Hf) as [Hc [child [G Hrest]]].
  cbn [put follow]. rewrite G.
  destruct (getitem_with_child theme k child (put rest child new) Hc G) as [-> ->].
  apply (IH child sub new Hrest).
Qed.

(** X14. A direct override whose dotted key leads, through tables and
    lists that exist, to a value that is neither a table nor a list, replaces
    that value ([False] is stored as [None]) and changes nothing else.
    Segments that follow the one that reaches such a value are not looked
    at: nothing is created below it. *)
Theorem direct_override_replaces_leaf (fuel : nat) (toml_data theme leaf : value)
    (k : string) (v : value) (path extra : list key) :
  contains "." k = true ->
  literal v = true ->
  parse_full_key k = Ret (path ++ extra) ->
  follow path theme = Some leaf ->
  is_container leaf = false ->
  assignable path theme = true ->
  apply_direct_override fuel toml_data theme (KStr k, v)
  = Ret (put path theme (stored v)) /\
  follow path (put path theme (stored v)) = Some (stored v).
Proof.
  intros Hk Hv Hparse Hf Hleaf Ha. split; [|apply (follow_put_any path theme leaf); exact Hf].
  rewrite (apply_direct_override_dotted fuel toml_data theme k v _ Hk Hv Hparse).
  - apply (direct_walk_to_leaf v path theme leaf extra Hf Hleaf Ha).
  - destruct path; [discriminate Ha | discriminate].
Qed.

Lemma direct_override_replaces_leaf_witness :
  apply_direct_override 1 (VDict [])
    (VDict [(KStr "players", VList [VDict [(KStr "cursor", VStr "#000000")]])])
    (KStr "players.0.cursor.alpha", VBool false)
  = Ret (put [KStr "players"; KInt 0; KStr "cursor"]
           (VDict [(KStr "players", VList [VDict [(KStr "cursor", VStr "#000000")]])])
           (stored (VBool false))) /\
  follow [KStr "players"; KInt 0; KStr "cursor"]
    (put [KStr "players"; KInt 0; KStr "cursor"]
       (VDict [(KStr "players", VList [VDict [(KStr "cursor", VStr "#000000")]])])
       (stored (VBool false)))
  = Some (stored (VBool false)).
Proof.
  apply (direct_override_replaces_leaf 1 (VDict [])
           (VDict [(KStr "players", VList [VDict [(KStr "cursor", VStr "#000000")]])])
           (VStr "#000000") "players.0.cursor.alpha" (VBool false)
           [KStr "players"; KInt 0; KStr "cursor"] [KStr "alpha"]); reflexivity.
Defined.

Lemma bind_ret_r {A : Type} (c : outcome A) : (x <- c ;; Ret x) = c.
Proof. destruct c; reflexivity. Qed.

Lemma put_same_any (path : list key) :
  forall (theme sub : value), follow path theme = Some sub -> put path theme sub = theme.
Proof.
  induction path as [|k rest IH]; intros theme sub Hf.
  - cbn in *. congruence.
  - destruct (follow_cons _ _ _ _ Hf) as [_ [child [G Hrest]]].
    cbn [put]. rewrite G, (IH child sub Hrest). apply with_child_same. exact G.
Qed.

(** Below a path of tables and lists that exist, the walk of a direct
    override is the walk from the container at the end of the path. *)
Lemma direct_walk_under (v : value) (path : list key) :
  forall (theme sub : value) (rest : list key),
    follow path theme = Some sub ->
    is_container sub = true ->
    rest <> [] ->
    direct_walk v (path ++ rest) theme
    = (sub' <- direct_walk v rest sub ;; Ret (put path theme sub')).
Proof.
  induction path as [|k path IH]; intros theme sub rest Hf Hsub Hne.
  - cbn in Hf. injection Hf as <-. cbn [app put]. symmetry. apply bind_ret_r.
  - destruct (follow_cons _ _ _ _ Hf) as [Hc [child [G Hrest]]].
    assert (Hchild : is_container child = true).
    { destruct path; [cbn in Hrest; congruence | exact (follow_container _ _ _ _ Hrest)]. }
    cbn [app direct_walk put]. rewrite (make_room_present v k _ theme child Hc G).
    cbn [bind]. rewrite G. cbn [bind]. rewrite Hchild.
    destruct (path ++ rest) as [|k2 more] eqn:E;
      [apply app_eq_nil in E; destruct E; contradiction|].
    rewrite <- E, (IH child sub rest Hrest Hsub Hne).
    destruct (direct_walk v rest sub); reflexivity.
Qed.

(** X15. A direct override whose dotted key ends at a table or a list is
    dropped, unless the container itself holds the last segment: the walk
    steps into the container and then looks for the segment there.  The
    theme is returned as it was. *)
Theorem direct_override_of_container_is_dropped (fuel : nat)
    (toml_data theme sub held : value) (k s : string) (v : value) (path : list key) :
  contains "." k = true ->
  literal v = true ->
  parse_full_key k = Ret (path ++ [KStr s]) ->
  follow path theme = Some sub ->
  follow [KStr s] sub = Some held ->
  is_container held = true ->
  contains_key (KStr s) held = Ret false ->
  apply_direct_override fuel toml_data theme (KStr k, v) = Ret theme.
Proof.
  intros Hk Hv Hparse Hf Hs Hheld Hin.
  destruct (follow_cons _ _ _ _ Hs) as [Hsub [child [G Hc]]].
  cbn in Hc. injection Hc as ->.
  rewrite (apply_direct_override_dotted fuel toml_data theme k v _ Hk Hv Hparse)
    by (intros E; apply app_eq_nil in E; destruct E; discriminate).
  rewrite (direct_walk_under v path theme sub [KStr s] Hf Hsub) by discriminate.
  assert (Hwalk : direct_walk v [KStr s] sub = Ret sub).
  { cbn [direct_walk]. rewrite (make_room_present v (KStr s) _ sub held Hsub G).
    cbn [bind]. rewrite G. cbn [bind]. rewrite Hheld.
    unfold assign_final.
    assert (E : (if key_truthy (KStr s) then contains_key (KStr s) held else Ret false)
                = Ret false) by (destruct (key_truthy (KStr s)); [exact Hin | reflexivity]).
    rewrite E. cbn [bind].
    destruct held; try discriminate Hheld; cbn [bind];
      rewrite (with_child_same sub (KStr s) _ G); reflexivity. }
  rewrite Hwalk. cbn [bind]. rewrite (put_same_any path theme sub Hf). reflexivity.
Qed.

Lemma direct_override_of_container_is_dropped_witness :
  apply_direct_override 1 (VDict [])
    (VDict [(KStr "style", VDict [(KStr "syntax", VDict [(KStr "comment", VInt 1)])])])
    (KStr "style.syntax", VStr "none")
  = Ret (VDict [(KStr "style", VDict [(KStr "syntax", VDict [(KStr "comment", VInt 1)])])]).
Proof.
  apply (direct_override_of_container_is_dropped 1 (VDict [])
           (VDict [(KStr "style", VDict [(KStr "syntax", VDict [(KStr "comment", VInt 1)])])])
           (VDict [(KStr "syntax", VDict [(KStr "comment", VInt 1)])])
           (VDict [(KStr "comment", VInt 1)])
           "style.syntax" "syntax" (VStr "none") [KStr "style"]); reflexivity.
Defined.

Lemma set_set (d : dict) (k : key) (v w : value) :
  Dict.set (Dict.set d k v) k w = Dict.set d k w.
Proof.
  induction d as [|[k' v'] d IH]; cbn.
  - rewrite key_eqb_refl. reflexivity.
  - destruct (key_eqb k k') eqn:E; cbn; rewrite E; [reflexivity | rewrite IH; reflexivity].
Qed.

Lemma has_set (d : dict) (k : key) (v : value) : Dict.has (Dict.set d k v) k = true.
Proof. unfold Dict.has. rewrite get_set_same. reflexivity. Qed.

Lemma last_default {A : Type} (l : list A) :
  forall (x d d' : A), last (x :: l) d = last (x :: l) d'.
Proof.
  induction l as [|y l IH]; intros x d d'; [reflexivity|].
  change (last (x :: y :: l) d) with (last (y :: l) d).
  change (last (x :: y :: l) d') with (last (y :: l) d').
  apply IH.
Qed.

Lemma last_cons {A : Type} (b : A) (rest : list A) (a : A) :
  last (b :: rest) a = last rest b.
Proof.
  destruct rest as [|c rest]; [reflexivity|].
  change (last (b :: c :: rest) a) with (last (c :: rest) a).
  apply last_default.
Qed.

Lemma direct_walk_cons (v : value) (k k2 : key) (rest : list key) (cur : value) :
  direct_walk v (k :: k2 :: rest) cur
  = (current <- make_room v k (k2 :: rest) cur ;;
     next <- getitem current k ;;
     if is_container next then
       child <- direct_walk v (k2 :: rest) next ;;
       Ret (with_child current k child)
     else assign_final v k current).
Proof. reflexivity. Qed.

(** The walk from a table that lacks the first segment: a table is created
    for each segment but the last, which holds the value. *)
Lemma direct_walk_fresh (v : value) (rest : list string) :
  forall (a : string) (d : dict),
    Dict.has d (KStr a) = false ->
    Forall (fun p => isdigit p = false) rest ->
    is_empty (last rest a) = false ->
    direct_walk v (KStr a :: map KStr rest) (VDict d)
    = Ret (VDict (Dict.set d (KStr a) (nest (map KStr rest) (stored v)))).
Proof.
  induction rest as [|b rest IH]; intros a d Ha Hdig Hlast.
  - cbn [map direct_walk make_room nest]. rewrite Ha. cbn [bind getitem].
    rewrite get_set_same. cbn [is_container].
    unfold assign_final. fold (stored v). cbn [key_truthy] in *. cbn [last] in Hlast.
    rewrite Hlast. cbn [negb contains_key bind]. rewrite has_set. cbn [setitem].
    rewrite set_set. reflexivity.
  - inversion Hdig as [|? ? Hb Hrest]; subst.
    cbn [map nest]. rewrite direct_walk_cons.
    cbn [make_room key_isdigit]. rewrite Ha, Hb. cbn [bind getitem].
    rewrite get_set_same. cbn [bind is_container].
    rewrite (IH b [] eq_refl Hrest) by (rewrite <- (last_cons b rest a); exact Hlast).
    cbn [bind with_child setitem Dict.set]. rewrite set_set. reflexivity.
Qed.

(** X16. A direct override whose dotted key leaves the theme at a table
    that lacks the next segment creates one table for each further segment
    but the last, and stores the value there: the path is made, not
    refused. *)
Theorem direct_override_creates_tables (fuel : nat) (toml_data theme : value)
    (k a : string) (rest : list string) (v : value) (path : list key) (d : dict) :
  contains "." k = true ->
  literal v = true ->
  parse_full_key k = Ret (path ++ KStr a :: map KStr rest) ->
  follow path theme = Some (VDict d) ->
  Dict.has d (KStr a) = false ->
  Forall (fun p => isdigit p = false) rest ->
  is_empty (last rest a) = false ->
  apply_direct_override fuel toml_data theme (KStr k, v)
  = Ret (put path theme
           (VDict (Dict.set d (KStr a) (nest (map KStr rest) (stored v))))).
Proof.
  intros Hk Hv Hparse Hf Ha Hdig Hlast.
  rewrite (apply_direct_override_dotted fuel toml_data theme k v _ Hk Hv Hparse)
    by (intros E; apply app_eq_nil in E; destruct E; discriminate).
  rewrite (direct_walk_under v path theme (VDict d) _ Hf eq_refl) by discriminate.
  rewrite (direct_walk_fresh v rest a d Ha Hdig Hlast). reflexivity.
Qed.

Lemma direct_override_creates_tables_witness :
  apply_direct_override 1 (VDict []) (VDict [(KStr "style", VDict [])])
    (KStr "style.syntax.comment.color", VStr "#ff0000")
  = Ret (put [KStr "style"] (VDict [(KStr "style", VDict [])])
           (VDict (Dict.set [] (KStr "syntax")
                     (nest (map KStr ["comment"; "color"]) (stored (VStr "#ff0000")))))).
Proof.
  apply (direct_override_creates_tables 1 (VDict []) (VDict [(KStr "style", VDict [])])
           "style.syntax.comment.color" "syntax" ["comment"; "color"] (VStr "#ff0000")
           [KStr "style"] []); try reflexivity.
  repeat constructor.
Defined.

(** X17. A direct override cannot create a list: when the theme lacks a
    segment and the next segment is a number, the test [next.isdigit()] is
    made on the integer that [parse_full_key] produced, and the call raises
    [AttributeError]. *)
Theorem number_after_missing_segment_raises (fuel : nat) (toml_data theme : value)
    (k a : string) (n : Z) (rest : list key) (v : value) (path : list key) (d : dict) :
  contains "." k = true ->
  literal v = true ->
  parse_full_key k = Ret (path ++ KStr a :: KInt n :: rest) ->
  follow path theme = Some (VDict d) ->
  Dict.has d (KStr a) = false ->
  apply_direct_override fuel toml_data theme (KStr k, v) = Raise AttributeError.
Proof.
  intros Hk Hv Hparse Hf Ha.
  rewrite (apply_direct_override_dotted fuel toml_data theme k v _ Hk Hv Hparse)
    by (intros E; apply app_eq_nil in E; destruct E; discriminate).
  rewrite (direct_walk_under v path theme (VDict d) _ Hf eq_refl) by discriminate.
  cbn [direct_walk make_room]. rewrite Ha. reflexivity.
Qed.

Lemma number_after_missing_segment_raises_witness :
  apply_direct_override 1 (VDict []) (VDict [(KStr "style", VDict [])])
    (KStr "style.players.0.cursor", VStr "#ff0000")
  = Raise AttributeError.
Proof.
  apply (number_after_missing_segment_raises 1 (VDict []) (VDict [(KStr "style", VDict [])])
           "style.players.0.cursor" "players" 0 [KStr "cursor"] (VStr "#ff0000")
           [KStr "style"] []); reflexivity.
Defined.

(** ** Wildcard patterns without a star *)

Lemma prefix_char (a c : ascii) (s : string) :
  prefix (String a EmptyString) (String c s) = Ascii.eqb a c.
Proof.
  cbn [prefix]. destruct (ascii_dec a c) as [E|E].
  - subst. rewrite Ascii.eqb_refl. destruct s; reflexivity.
  - destruct (Ascii.eqb_spec a c); [contradiction | reflexivity].
Qed.

Lemma prefix_two (a b c : ascii) (s : string) :
  prefix (String a (String b EmptyString)) (String c s)
  = (Ascii.eqb a c && prefix (String b EmptyString) s)%bool.
Proof.
  cbn [prefix]. destruct (ascii_dec a c) as [E|E].
  - subst. rewrite Ascii.eqb_refl. reflexivity.
  - destruct (Ascii.eqb_spec a c); [contradiction | reflexivity].
Qed.

Lemma prefix_part (a b : string) :
  forall s, prefix (a ++ b) s = true -> prefix a s = true.
Proof.
  induction a as [|c a IH]; intros s H; [destruct s; reflexivity|].
  destruct s as [|d s]; [discriminate H|]. cbn [String.append prefix] in *.
  destruct (ascii_dec c d); [apply IH; exact H | discriminate H].
Qed.

Lemma prefix_contains (sub s : string) : prefix sub s = true -> contains sub s = true.
Proof. intros H. destruct s; cbn [contains]; rewrite H; reflexivity. Qed.

Lemma contains_cons (sub : string) (c : ascii) (s : string) :
  contains sub s = true -> contains sub (String c s) = true.
Proof. intros H. cbn [contains]. rewrite H. apply Bool.orb_true_r. Qed.

Lemma contains_first_part (a b s : string) :
  contains a s = false -> contains (a ++ b) s = false.
Proof.
  induction s as [|c s IH]; intros H.
  - cbn [contains] in *. apply Bool.orb_false_elim in H. destruct H as [H _].
    rewrite Bool.orb_false_r. destruct (prefix (a ++ b) "") eqn:E; [|reflexivity].
    rewrite (prefix_part a b _ E) in H. discriminate.
  - pose proof (contains_head _ _ H) as Hp. pose proof (contains_tail _ _ _ H) as Ht.
    cbn [contains]. rewrite (IH Ht), Bool.orb_false_r.
    destruct (prefix (a ++ b) (String c s)) eqn:E; [|reflexivity].
    rewrite (prefix_part a b _ E) in Hp. discriminate.
Qed.

Lemma prefix_later_part (a b : string) :
  forall s, prefix (a ++ b) s = true -> contains b s = true.
Proof.
  induction a as [|c a IH]; intros s H; [apply prefix_contains; exact H|].
  destruct s as [|d s]; [discriminate H|]. cbn [String.append prefix] in H.
  destruct (ascii_dec c d); [|discriminate H].
  apply contains_cons, IH. exact H.
Qed.

Lemma contains_later_part (a b s : string) :
  contains b s = false -> contains (a ++ b) s = false.
Proof.
  induction s as [|c s IH]; intros H.
  - destruct (contains (a ++ b) "") eqn:E; [|reflexivity].
    cbn [contains] in E. rewrite Bool.orb_false_r in E.
    rewrite (prefix_later_part a b _ E) in H. discriminate.
  - pose proof (contains_tail _ _ _ H) as Ht.
    cbn [contains]. rewrite (IH Ht), Bool.orb_false_r.
    destruct (prefix (a ++ b) (String c s)) eqn:E; [|reflexivity].
    rewrite (prefix_later_part a b _ E) in H. discriminate.
Qed.

(** What [re.escape] and the expression reader make of one character. *)
Lemma special_char (c : ascii) :
  is_special c = true ->
  Ascii.eqb c "*" = true \/ Regex.escaped_atom c = Some (Regex.Lit c).
Proof.
  destruct c as [[] [] [] [] [] [] [] []]; intros H; try discriminate H;
    (left; reflexivity) || (right; reflexivity).
Qed.

Lemma ordinary_char (c : ascii) :
  is_special c = false ->
  Regex.plain_atom c = Some (Regex.Lit c) /\
  Ascii.eqb c "$" = false /\ Ascii.eqb c "\" = false /\ Ascii.eqb c "*" = false.
Proof.
  destruct c as [[] [] [] [] [] [] [] []]; intros H; try discriminate H;
    repeat split; reflexivity.
Qed.

Lemma backslash_is_special : is_special "\" = true.
Proof. reflexivity. Qed.

(** The escaped text never starts with a star. *)
Lemma escape_head (p rest : string) :
  rest = "$"%string \/ rest = EmptyString ->
  (re_escape p ++ rest)%string = rest \/
  exists q s, (re_escape p ++ rest)%string = String q s /\ Ascii.eqb q "*" = false.
Proof.
  intros Hrest. destruct p as [|c p]; [left; reflexivity|]. right.
  cbn [re_escape]. destruct (is_special c) eqn:E.
  - exists "\"%char, (String c (re_escape p) ++ rest)%string. split; reflexivity.
  - exists c, (re_escape p ++ rest)%string. split; [reflexivity|].
    apply (ordinary_char c E).
Qed.

Lemma escape_no_star_head (p : string) : prefix "*" (re_escape p) = false.
Proof.
  destruct (escape_head p EmptyString (or_intror eq_refl)) as [H|[q [s [H Hq]]]];
    rewrite append_empty_r in H; rewrite H; [reflexivity|].
  rewrite prefix_char. destruct (Ascii.eqb_spec "*" q) as [<-|]; [discriminate Hq | reflexivity].
Qed.

Lemma escape_no_escaped_star (p : string) :
  contains "*" p = false -> contains "\*" (re_escape p) = false.
Proof.
  induction p as [|c p IH]; intros H; [reflexivity|].
  pose proof (contains_tail _ _ _ H) as Ht.
  rewrite contains_char_cons in H. apply Bool.orb_false_elim in H. destruct H as [Hc _].
  specialize (IH Ht). cbn [re_escape]. destruct (is_special c) eqn:E.
  - cbn [contains]. rewrite IH, !prefix_two, prefix_char, Hc, escape_no_star_head.
    rewrite !Bool.andb_false_r. reflexivity.
  - cbn [contains]. rewrite IH, prefix_two.
    destruct (Ascii.eqb_spec "\" c) as [<-|]; [discriminate E | reflexivity].
Qed.

Lemma wildcard_to_regex_plain (p : string) :
  contains "*" p = false ->
  wildcard_to_regex p = ("^" ++ re_escape p ++ "$")%string.
Proof.
  intros H. pose proof (escape_no_escaped_star p H) as He. unfold wildcard_to_regex.
  rewrite (replace_absent "\*\*\*" _ _ (contains_first_part "\*" "\*\*" _ He)).
  rewrite (replace_absent "\.\*\*" _ _
             (contains_later_part "\." "\*\*" _ (contains_first_part "\*" "\*" _ He))).
  rewrite (replace_absent "\*\*\." _ _ (contains_first_part "\*" "\*\." _ He)).
  rewrite (replace_absent "\*" _ _ He). reflexivity.
Qed.

Lemma parse_escaped (p : string) :
  contains "*" p = false ->
  Regex.parse (re_escape p ++ "$") = Some (literal_pieces p, true).
Proof.
  induction p as [|c p IH]; intros H; [reflexivity|].
  pose proof (contains_tail _ _ _ H) as Ht.
  rewrite contains_char_cons in H. apply Bool.orb_false_elim in H. destruct H as [Hc _].
  specialize (IH Ht).
  assert (Hnext : exists q s, (re_escape p ++ "$")%string = String q s /\
                              Ascii.eqb q "*" = false).
  { destruct (escape_head p "$" (or_introl eq_refl)) as [E|E]; [|exact E].
    exists "$"%char, EmptyString. rewrite E. split; reflexivity. }
  destruct Hnext as [q [s [Hqs Hq]]].
  unfold literal_pieces in *. cbn [re_escape list_ascii_of_string map].
  destruct (is_special c) eqn:E.
  - destruct (special_char c E) as [Hstar|Hatom].
    + destruct (Ascii.eqb_spec c "*") as [->|]; [|discriminate Hstar].
      discriminate Hc.
    + cbn [String.append Regex.parse]. change (Ascii.eqb "\" "$") with false.
      change (Ascii.eqb "\" "\") with true. cbv iota. rewrite Hatom.
      rewrite Hqs, Hq, <- Hqs, IH. reflexivity.
  - destruct (ordinary_char c E) as [Hatom [H1 [H2 _]]].
    cbn [String.append Regex.parse]. rewrite H1, H2, Hatom.
    rewrite Hqs, Hq, <- Hqs, IH. reflexivity.
Qed.

Lemma line_feed_code (c : ascii) : Nat.eqb (code c) 10 = Ascii.eqb c (ascii_of_nat 10).
Proof. destruct c as [[] [] [] [] [] [] [] []]; reflexivity. Qed.

Lemma match_literal_pieces (p : string) :
  forall text,
    Regex.match_pieces (literal_pieces p) true text
    = (String.eqb text p || String.eqb text (p ++ newline))%bool.
Proof.
  unfold literal_pieces. induction p as [|c p IH]; intros text.
  - cbn [list_ascii_of_string map Regex.match_pieces String.append].
    unfold newline. destruct text as [|d [|e text]].
    + reflexivity.
    + cbn [Regex.at_end]. rewrite line_feed_code.
      remember (ascii_of_nat 10) as nl. cbn. destruct (Ascii.eqb d nl); reflexivity.
    + remember (ascii_of_nat 10) as nl. cbn. destruct (Ascii.eqb d nl); reflexivity.
  - cbn [list_ascii_of_string map Regex.match_pieces String.append].
    destruct text as [|d text]; [reflexivity|].
    rewrite IH. cbn [Regex.atom_ok].
    change (String.eqb (String d text) (String c p))
      with (Ascii.eqb d c && String.eqb text p)%bool.
    change (String.eqb (String d text) (String c (p ++ newline)))
      with (Ascii.eqb d c && String.eqb text (p ++ newline))%bool.
    destruct (Ascii.eqb d c); reflexivity.
Qed.

Lemma match_wildcard_plain (p text : string) :
  contains "*" p = false ->
  match_wildcard p (KStr text) = Ret (selected_by p (KStr text)).
Proof.
  intros H. unfold match_wildcard, Regex.re_match. rewrite (wildcard_to_regex_plain p H).
  change (startswith "^" ("^" ++ re_escape p ++ "$")) with (prefix "^" (String "^" (re_escape p ++ "$"))).
  rewrite prefix_char. cbn [Ascii.eqb Bool.eqb drop String.append].
  change (drop 1 (String "^" (re_escape p ++ "$"))) with (re_escape p ++ "$")%string.
  rewrite (parse_escaped p H), match_literal_pieces. reflexivity.
Qed.

(** X18. A pattern without a star selects the key that is the pattern, and
    the key that is the pattern followed by a line feed, and no other:
    every other character of the pattern is taken literally (dots
    included), and the [$] that ends the expression also holds before a
    final line feed. *)
Theorem pattern_without_star_selects_itself (d : dict) (pattern : string) :
  contains "*" pattern = false ->
  forallb is_name_key (Dict.keys d) = true ->
  find_matching_keys (VDict d) pattern
  = Ret (filter (selected_by pattern) (Dict.keys d)).
Proof.
  intros Hp Hkeys. unfold find_matching_keys. apply filter_outcome_total.
  intros k Hin. rewrite forallb_forall in Hkeys. specialize (Hkeys k Hin).
  destruct k as [text|n]; [|discriminate Hkeys].
  apply match_wildcard_plain. exact Hp.
Qed.

Lemma pattern_without_star_selects_itself_witness :
  find_matching_keys
    (VDict [(KStr "editor.background", VStr "#000000");
            (KStr "editorXbackground", VStr "#111111");
            (KStr "editor.background.alpha", VStr "#222222")])
    "editor.background"
  = Ret (filter (selected_by "editor.background")
           (Dict.keys [(KStr "editor.background", VStr "#000000");
                       (KStr "editorXbackground", VStr "#111111");
                       (KStr "editor.background.alpha", VStr "#222222")])).
Proof.
  apply (pattern_without_star_selects_itself
           [(KStr "editor.background", VStr "#000000");
            (KStr "editorXbackground", VStr "#111111");
            (KStr "editor.background.alpha", VStr "#222222")] "editor.background");
    reflexivity.
Defined.

(** ** Wildcard overrides with a list or a table *)

Lemma fold_list_override (l : list value) (ms : list key) (theme : value) :
  fold_outcome (override_matching_key (VList l)) ms theme = Ret theme.
Proof. induction ms as [|k ms IH]; [reflexivity | exact IH]. Qed.

(** X19. A list is not applied as an override: whatever keys the pattern
    selects, the theme is returned as it was. *)
Theorem list_override_changes_nothing (fuel : nat) (toml_data theme : value)
    (pattern : string) (l : list value) (ms : list key) :
  existsb (key_equals (KStr "$")) l = false ->
  find_matching_keys theme pattern = Ret ms ->
  apply_override fuel toml_data theme (KStr pattern, VList l) = Ret theme.
Proof.
  intros Hl Hfind. unfold apply_override, names_variable.
  assert (E : (if truthy (VList l) then contains_key (KStr "$") (VList l) else Ret false)
              = Ret false).
  { destruct (truthy (VList l)); [|reflexivity]. cbn [contains_key]. rewrite Hl. reflexivity. }
  rewrite E. cbn [bind]. rewrite Hfind. cbn [bind]. apply fold_list_override.
Qed.

Lemma list_override_changes_nothing_witness :
  apply_override 1 (VDict []) (VDict [(KStr "comment", VStr "#000000")])
    (KStr "comment", VList [VStr "#ffffff"])
  = Ret (VDict [(KStr "comment", VStr "#000000")]).
Proof.
  apply (list_override_changes_nothing 1 (VDict []) (VDict [(KStr "comment", VStr "#000000")])
           "comment" [VStr "#ffffff"] [KStr "comment"]); reflexivity.
Defined.

Lemma get_absent (d : dict) (k : key) : ~ In k (Dict.keys d) -> Dict.get d k = None.
Proof.
  intros H. destruct (Dict.get d k) as [v|] eqn:E; [|reflexivity].
  exfalso. apply H. apply get_in_keys. eauto.
Qed.

(** [d.update(other)]: the keys of [other] take its values, the other keys
    of [d] keep theirs. *)
Lemma get_dict_update (other : dict) :
  forall (d : dict) (k : key),
    NoDup (Dict.keys other) ->
    Dict.get (dict_update d other) k
    = match Dict.get other k with
      | Some v => Some v
      | None => Dict.get d k
      end.
Proof.
  unfold dict_update. induction other as [|[k0 v0] other IH]; intros d k Hnd; [reflexivity|].
  inversion Hnd as [|? ? Hnotin Hnd']; subst.
  cbn [fold_left fst snd Dict.get]. rewrite (IH _ k Hnd').
  destruct (key_eqb_spec k k0) as [->|Hne].
  - rewrite (get_absent other k0 Hnotin), get_set_same. reflexivity.
  - destruct (Dict.get other k); [reflexivity|]. apply get_set_other. exact Hne.
Qed.

(** X20. A table given as an override is merged into the table at the key
    the pattern selects: the keys of the override take its values, and the
    other keys of the theme's table keep theirs. *)
Theorem table_override_is_merged (fuel : nat) (toml_data : value) (d : dict)
    (pattern : string) (k : key) (sub other : dict) :
  Dict.has other (KStr "$") = false ->
  NoDup (Dict.keys other) ->
  find_matching_keys (VDict d) pattern = Ret [k] ->
  Dict.get d k = Some (VDict sub) ->
  apply_override fuel toml_data (VDict d) (KStr pattern, VDict other)
  = Ret (VDict (Dict.set d k (VDict (dict_update sub other)))) /\
  forall key,
    Dict.get (dict_update sub other) key
    = match Dict.get other key with
      | Some v => Some v
      | None => Dict.get sub key
      end.
Proof.
  intros Hdollar Hnd Hfind Hget. split; [|intros key; apply get_dict_update; exact Hnd].
  unfold apply_override, names_variable.
  assert (E : (if truthy (VDict other) then contains_key (KStr "$") (VDict other)
               else Ret false) = Ret false).
  { destruct (truthy (VDict other)); [|reflexivity]. cbn [contains_key]. rewrite Hdollar.
    reflexivity. }
  rewrite E. cbn [bind]. rewrite Hfind.
  cbn [bind fold_outcome override_matching_key getitem]. rewrite Hget. reflexivity.
Qed.

Lemma table_override_is_merged_witness :
  apply_override 1 (VDict [])
    (VDict [(KStr "comment", VDict [(KStr "color", VStr "#000000");
                                    (KStr "font_style", VStr "italic")])])
    (KStr "comment", VDict [(KStr "color", VStr "#ffffff")])
  = Ret (VDict (Dict.set
                  [(KStr "comment", VDict [(KStr "color", VStr "#000000");
                                           (KStr "font_style", VStr "italic")])]
                  (KStr "comment")
                  (VDict (dict_update [(KStr "color", VStr "#000000");
                                       (KStr "font_style", VStr "italic")]
                            [(KStr "color", VStr "#ffffff")])))) /\
  forall key,
    Dict.get (dict_update [(KStr "color", VStr "#000000"); (KStr "font_style", VStr "italic")]
                [(KStr "color", VStr "#ffffff")]) key
    = match Dict.get [(KStr "color", VStr "#ffffff")] key with
      | Some v => Some v
      | None => Dict.get [(KStr "color", VStr "#000000");
                          (KStr "font_style", VStr "italic")] key
      end.
Proof.
  apply (table_override_is_merged 1 (VDict [])
           [(KStr "comment", VDict [(KStr "color", VStr "#000000");
                                    (KStr "font_style", VStr "italic")])]
           "comment" (KStr "comment")
           [(KStr "color", VStr "#000000"); (KStr "font_style", VStr "italic")]
           [(KStr "color", VStr "#ffffff")]); try reflexivity.
  apply NoDup_keys_by_computation. reflexivity.
Defined.

(** X21. A table given as an override for a key that does not hold a table
    makes the call raise [AttributeError]: the value at the key is asked to
    [update]. *)
Theorem table_override_on_other_value_raises (fuel : nat) (toml_data : value) (d : dict)
    (pattern : string) (k : key) (ms : list key) (cur : value) (other : dict) :
  Dict.has other (KStr "$") = false ->
  find_matching_keys (VDict d) pattern = Ret (k :: ms) ->
  Dict.get d k = Some cur ->
  is_table cur = false ->
  apply_override fuel toml_data (VDict d) (KStr pattern, VDict other)
  = Raise AttributeError.
Proof.
  intros Hdollar Hfind Hget Hcur. unfold apply_override, names_variable.
  assert (E : (if truthy (VDict other) then contains_key (KStr "$") (VDict other)
               else Ret false) = Ret false).
  { destruct (truthy (VDict other)); [|reflexivity]. cbn [contains_key]. rewrite Hdollar.
    reflexivity. }
  rewrite E. cbn [bind]. rewrite Hfind.
  cbn [bind fold_outcome override_matching_key getitem]. rewrite Hget. cbn [bind].
  destruct cur; try reflexivity. discriminate Hcur.
Qed.

Lemma table_override_on_other_value_raises_witness :
  apply_override 1 (VDict []) (VDict [(KStr "comment", VNone)])
    (KStr "comment", VDict [(KStr "color", VStr "#ffffff")])
  = Raise AttributeError.
Proof.
  apply (table_override_on_other_value_raises 1 (VDict []) [(KStr "comment", VNone)]
           "comment" (KStr "comment") [] VNone [(KStr "color", VStr "#ffffff")]);
    reflexivity.
Defined.

(** ** Base colours *)

Lemma upper_char_idem (c : ascii) : upper_char (upper_char c) = upper_char c.
Proof. destruct c as [[] [] [] [] [] [] [] []]; reflexivity. Qed.

Lemma upper_char_hash (c : ascii) : Ascii.eqb "#" (upper_char c) = Ascii.eqb "#" c.
Proof. destruct c as [[] [] [] [] [] [] [] []]; reflexivity. Qed.

Lemma upper_idem (s : string) : upper (upper s) = upper s.
Proof.
  induction s as [|c s IH]; [reflexivity|]. cbn [upper]. rewrite upper_char_idem, IH.
  reflexivity.
Qed.

Lemma upper_length (s : string) : String.length (upper s) = String.length s.
Proof. induction s as [|c s IH]; [reflexivity|]. cbn [upper String.length]. rewrite IH. reflexivity. Qed.

Lemma upper_startswith_hash (s : string) : startswith "#" (upper s) = startswith "#" s.
Proof.
  destruct s as [|c s]; [reflexivity|]. unfold startswith. cbn [upper].
  rewrite !prefix_char. apply upper_char_hash.
Qed.

Ltac canonical_colour :=
  split; [|split; [|split]];
  [ reflexivity
  | unfold startswith; rewrite prefix_char; reflexivity
  | cbn [upper]; change (upper_char "#") with "#"%char;
    rewrite ?upper_char_idem; reflexivity
  | unfold get_base_color, startswith; rewrite prefix_char;
    change (Ascii.eqb "#" "#") with true;
    cbn [negb String.length existsb Nat.eqb orb upper take substring];
    change (upper_char "#") with "#"%char;
    rewrite ?upper_char_idem; reflexivity ].

(** X22. What [get_base_color] returns is a canonical colour: seven
    characters, the first a hash sign, no lower-case letter, and a colour
    that [get_base_color] returns as it is. *)
Theorem base_color_is_canonical (hex b : string) :
  get_base_color hex = Ret b ->
  String.length b = 7%nat /\ startswith "#" b = true /\ upper b = b /\
  get_base_color b = Ret b.
Proof.
  unfold get_base_color at 1. intros H.
  destruct (startswith "#" hex) eqn:Hs; [|discriminate H].
  destruct (existsb (Nat.eqb (String.length hex)) [4; 7; 9]%nat) eqn:Hl; [|discriminate H].
  cbn [negb] in H.
  destruct hex as [|c0 hex]; [discriminate Hs|].
  unfold startswith in Hs. rewrite prefix_char in Hs.
  destruct (Ascii.eqb_spec "#" c0) as [<-|]; [|discriminate Hs].
  change (upper (String "#" hex)) with (String "#" (upper hex)) in H.
  destruct hex as [|c1 [|c2 [|c3 [|c4 [|c5 [|c6 [|c7 [|c8 [|c9 r]]]]]]]]];
    cbn [String.length existsb Nat.eqb orb] in Hl; try discriminate Hl;
    cbn [upper take substring String.append twice] in H;
    injection H as <-; canonical_colour.
Qed.

Lemma base_color_is_canonical_witness :
  String.length "#AABBCC" = 7%nat /\ startswith "#" "#AABBCC" = true /\
  upper "#AABBCC" = "#AABBCC"%string /\ get_base_color "#AABBCC" = Ret "#AABBCC"%string.
Proof. apply (base_color_is_canonical "#abc" "#AABBCC"). reflexivity. Defined.

(** X23. The alpha digits and the case of the letters make no difference
    to the base colour: a colour of seven characters, the same colour with
    two more characters, and either of them in upper case have the same
    base colour. *)
Theorem base_color_ignores_alpha_and_case (h a : string) :
  String.length h = 7%nat ->
  String.length a = 2%nat ->
  get_base_color (h ++ a) = get_base_color h /\
  get_base_color (upper (h ++ a)) = get_base_color h /\
  get_base_color (upper h) = get_base_color h.
Proof.
  intros Hh Ha.
  assert (Hup : forall s, get_base_color (upper s) = get_base_color s).
  { intros s. unfold get_base_color.
    rewrite upper_startswith_hash, upper_length, upper_idem. reflexivity. }
  assert (E : get_base_color (h ++ a) = get_base_color h).
  { destruct h as [|c0 [|c1 [|c2 [|c3 [|c4 [|c5 [|c6 [|c7 r]]]]]]]]; try discriminate Hh.
    destruct a as [|a0 [|a1 [|a2 r]]]; try discriminate Ha.
    cbn [String.append]. unfold get_base_color, startswith. rewrite !prefix_char.
    destruct (Ascii.eqb "#" c0); reflexivity. }
  rewrite !Hup. auto.
Qed.

Lemma base_color_ignores_alpha_and_case_witness :
  get_base_color ("#1a2b3c" ++ "7f") = get_base_color "#1a2b3c" /\
  get_base_color (upper ("#1a2b3c" ++ "7f")) = get_base_color "#1a2b3c" /\
  get_base_color (upper "#1a2b3c") = get_base_color "#1a2b3c".
Proof. apply (base_color_ignores_alpha_and_case "#1a2b3c" "7f"); reflexivity. Defined.

Lemma get_base_color_outcome (s : string) :
  get_base_color s = Raise AssertionError \/ exists b, get_base_color s = Ret b.
Proof.
  unfold get_base_color. destruct (startswith "#" s); [|left; reflexivity].
  destruct (existsb (Nat.eqb (String.length s)) [4; 7; 9]%nat); [|left; reflexivity].
  right. cbn [negb].
  destruct (upper s) as [|c0 [|c1 [|c2 [|c3 [|c4 r]]]]]; eauto.
Qed.

Lemma get_base_color_other_length (s : string) :
  existsb (Nat.eqb (String.length s)) [4; 7; 9]%nat = false ->
  get_base_color s = Raise AssertionError.
Proof.
  intros H. unfold get_base_color. rewrite H. destruct (startswith "#" s); reflexivity.
Qed.

Lemma count_histogram_raises (s : string) (n : Z) (h : histogram) :
  In (VStr s, n) h ->
  is_hex_text s = true ->
  existsb (Nat.eqb (String.length s)) [4; 7; 9]%nat = false ->
  forall colors, count_histogram h colors = Raise AssertionError.
Proof.
  intros Hin Hhex Hlen. induction h as [|[v m] h IH]; [contradiction|].
  intros colors. destruct Hin as [E|Hin].
  - injection E as -> ->. cbn [count_histogram]. rewrite Hhex.
    rewrite (get_base_color_other_length s Hlen). reflexivity.
  - specialize (IH Hin). destruct v; cbn [count_histogram]; try apply IH.
    destruct (is_hex_text s0); [|apply IH].
    destruct (get_base_color_outcome s0) as [E|[b E]]; rewrite E; [reflexivity | apply IH].
Qed.

Lemma count_histogram_outcome (h : histogram) :
  forall colors,
    count_histogram h colors = Raise AssertionError \/
    exists c, count_histogram h colors = Ret c.
Proof.
  induction h as [|[v m] h IH]; intros colors; [right; eexists; reflexivity|].
  destruct v; cbn [count_histogram]; try apply IH.
  destruct (is_hex_text s); [|apply IH].
  destruct (get_base_color_outcome s) as [E|[b E]]; rewrite E; [left; reflexivity | apply IH].
Qed.

Lemma count_variables_raises (s : string) (n : Z) (name : string) (h : histogram)
    (variables : list (string * histogram)) :
  In (name, h) variables ->
  In (VStr s, n) h ->
  is_hex_text s = true ->
  existsb (Nat.eqb (String.length s)) [4; 7; 9]%nat = false ->
  forall colors, count_variables variables colors = Raise AssertionError.
Proof.
  intros Hin Hh Hhex Hlen. induction variables as [|[name' h'] variables IH]; [contradiction|].
  intros colors. cbn [count_variables]. destruct Hin as [E|Hin].
  - injection E as -> ->. rewrite (count_histogram_raises s n h Hh Hhex Hlen). reflexivity.
  - destruct (count_histogram_outcome h' colors) as [E|[c E]]; rewrite E; [reflexivity|].
    apply (IH Hin).
Qed.

(** X24. A value that passes the colour test but is not four, seven or
    nine characters long stops the palette: the test reads only the head of
    the text (a hash sign and three hexadecimal digits), and
    [get_base_color] then fails its assertion on the length.  One such value
    among the observed values of any variable makes [handle_colors] raise
    [AssertionError]. *)
Theorem colour_of_other_length_stops_palette (str_of_list : list value -> string)
    (s : string) (n : Z) (name : string) (h : histogram)
    (variables : list (string * histogram)) (overrides : dict) (var_map : var_map_t)
    (threshold : Z) :
  In (name, h) variables ->
  In (VStr s, n) h ->
  is_hex_color (VStr s) = true ->
  existsb (Nat.eqb (String.length s)) [4; 7; 9]%nat = false ->
  handle_colors str_of_list variables overrides var_map threshold = Raise AssertionError.
Proof.
  intros Hin Hh Hhex Hlen. unfold handle_colors, count_colors.
  rewrite (count_variables_raises s n name h variables Hin Hh Hhex Hlen). reflexivity.
Qed.

Lemma colour_of_other_length_stops_palette_witness :
  handle_colors no_list_text [("accent", [(VStr "#ffff", 3)])] [] [] 1
  = Raise AssertionError.
Proof.
  apply (colour_of_other_length_stops_palette no_list_text "#ffff" 3 "accent"
           [(VStr "#ffff", 3)]); try reflexivity; left; reflexivity.
Defined.

(** ** The representative of a variable *)

Lemma first_max_spec (h : histogram) :
  forall (pre mid : histogram) (best : value) (bn : Z),
    Forall (fun e => snd e < bn) pre ->
    Forall (fun e => snd e <= bn) mid ->
    exists before n after,
      pre ++ (best, bn) :: mid ++ h = before ++ (first_max best bn h, n) :: after /\
      Forall (fun e => snd e < n) before /\
      Forall (fun e => snd e <= n) after.
Proof.
  induction h as [|[v m] h IH]; intros pre mid best bn Hpre Hmid.
  - exists pre, bn, mid. rewrite List.app_nil_r. auto.
  - cbn [first_max]. destruct (Z.ltb_spec bn m) as [Hlt|Hge].
    + destruct (IH (pre ++ (best, bn) :: mid) [] v m) as [before [n [after [E [Hb Ha]]]]].
      * apply Forall_app. split.
        -- apply (Forall_impl _ (P := fun e => snd e < bn)); [intros e He; lia | exact Hpre].
        -- constructor; [cbn; lia|].
           apply (Forall_impl _ (P := fun e => snd e <= bn)); [intros e He; lia | exact Hmid].
      * constructor.
      * exists before, n, after. split; [|auto].
        rewrite <- E. cbn [app]. rewrite <- List.app_assoc. reflexivity.
    + destruct (IH pre (mid ++ [(v, m)]) best bn Hpre) as [before [n [after [E [Hb Ha]]]]].
      * apply Forall_app. split; [exact Hmid | constructor; [cbn; lia | constructor]].
      * exists before, n, after. split; [|auto].
        rewrite <- E, <- List.app_assoc. reflexivity.
Qed.

(** X25. The representative of a variable is the first of its observed
    values with the largest count: the values before it in the histogram
    have smaller counts, and no value after it has a larger one. *)
Theorem representative_is_first_maximum (h : histogram) (v : value) :
  representative h = Ret v ->
  exists before n after,
    h = before ++ (v, n) :: after /\
    Forall (fun e => snd e < n) before /\
    Forall (fun e => snd e <= n) after.
Proof.
  destruct h as [|[v0 n0] h]; [discriminate|]. cbn [representative]. intros H.
  injection H as <-.
  destruct (first_max_spec h [] [] v0 n0) as [before [n [after [E H]]]]; try constructor.
  exists before, n, after. split; [exact E | exact H].
Qed.

Lemma representative_is_first_maximum_witness :
  exists before n after,
    [(VStr "#111111", 2); (VStr "#222222", 5); (VStr "#333333", 5)]
    = before ++ (VStr "#222222", n) :: after /\
    Forall (fun e => snd e < n) before /\
    Forall (fun e => snd e <= n) after.
Proof.
  apply (representative_is_first_maximum
           [(VStr "#111111", 2); (VStr "#222222", 5); (VStr "#333333", 5)]
           (VStr "#222222")).
  reflexivity.
Defined.

(** ** The deletion-key scan: what it reports *)

Lemma has_keys (d : dict) (k : key) : Dict.has d k = false -> ~ In k (Dict.keys d).
Proof.
  intros H Hin. rewrite (has_in_keys d k Hin) in H. discriminate.
Qed.

Lemma keys_has (d d' : dict) (k : key) :
  Dict.keys d' = Dict.keys d -> Dict.has d k = false -> Dict.has d' k = false.
Proof.
  intros Hk H. destruct (Dict.has d' k) eqn:E; [|reflexivity].
  exfalso. apply (has_keys d k H). rewrite <- Hk. apply get_in_keys.
  unfold Dict.has in E. destruct (Dict.get d' k) as [v|]; [eauto | discriminate].
Qed.

Section ScanReports.

Variable scan : value -> value -> string -> outcome (list string * value).

Lemma scan_keys_reports (prefix k : string) (entries : list (key * value)) :
  forall (d : dict) (ks : list string) (out : value),
    scan_keys scan prefix entries (VDict d) = Ret (ks, out) ->
    In (KStr k) (Dict.keys entries) ->
    Dict.has d (KStr k) = false ->
    In (full_key_of prefix k) ks.
Proof.
  induction entries as [|[k0 tv] entries IH]; intros d ks out H Hin Hmiss; [contradiction|].
  destruct k0 as [k0|n]; [|discriminate H].
  cbn [scan_keys contains_key bind] in H.
  destruct (Dict.has d (KStr k0)) eqn:Hhas; cbn [negb] in H.
  - assert (Hin' : In (KStr k) (Dict.keys entries)).
    { destruct Hin as [E|Hin]; [|exact Hin]. cbn in E. injection E as ->. congruence. }
    destruct tv as [| | | | |items|tv].
    1-5: exact (IH d ks out H Hin' Hmiss).
    + bind_ret H. destruct x as [ks1 out1]. bind_ret H. destruct x as [ks2 out2].
      injection H as <- <-. cbn [fst snd] in *.
      destruct (scan_items_frame scan k0 _ items 0 d ks1 out1 E) as [d' [-> [Hkeys _]]].
      apply in_or_app. right.
      apply (IH d' ks2 out2 E0 Hin'). apply (keys_has d d' _ Hkeys Hmiss).
    + bind_ret H. bind_ret H. destruct x0 as [ks1 out1]. bind_ret H. destruct x0 as [ks2 out2].
      injection H as <- <-. cbn [fst snd] in *.
      apply in_or_app. right. unfold with_child in E1. cbn [setitem] in E1.
      apply (IH _ ks2 out2 E1 Hin').
      apply (keys_has d _ _ (keys_set_present d (KStr k0) out1 Hhas) Hmiss).
  - bind_ret H. destruct x as [ks1 out1]. injection H as <- <-. cbn [fst snd].
    destruct Hin as [E0|Hin].
    + cbn in E0. injection E0 as ->. left. reflexivity.
    + right. apply (IH d ks1 out1 E Hin Hmiss).
Qed.

End ScanReports.

(** X26. Every key of the template that the theme lacks is reported for
    deletion, under the path the scan writes for it. *)
Theorem missing_key_is_reported (template theme : dict) (prefix k : string)
    (ks : list string) (out : value) :
  get_delete_keys (VDict template) (VDict theme) prefix = Ret (ks, out) ->
  In (KStr k) (Dict.keys template) ->
  Dict.has theme (KStr k) = false ->
  In (full_key_of prefix k) ks.
Proof.
  intros H Hin Hmiss. cbn [get_delete_keys] in H.
  exact (scan_keys_reports get_delete_keys prefix k template theme ks out H Hin Hmiss).
Qed.

Lemma missing_key_is_reported_witness :
  In (full_key_of "style" "border.variant")
    ["style.[border.variant]"].
Proof.
  apply (missing_key_is_reported
           [(KStr "background", VStr "$bg"); (KStr "border.variant", VStr "$border")]
           [(KStr "background", VStr "#000000")]
           "style" "border.variant" _ (VDict [(KStr "background", VStr "#000000")])).
  - reflexivity.
  - right. left. reflexivity.
  - reflexivity.
Defined.

(** ** The deletion-key scan of a theme that is the template *)

Lemma distinct_NoDup (ks : list key) : distinct ks = true -> NoDup ks.
Proof. exact (NoDup_keys_by_computation ks). Qed.

Lemma get_of_in (d : dict) (k : key) (v : value) :
  NoDup (Dict.keys d) -> In (k, v) d -> Dict.get d k = Some v.
Proof.
  induction d as [|[k' v'] d IH]; intros Hnd Hin; [contradiction|].
  inversion Hnd as [|? ? Hnotin Hnd']; subst. cbn [Dict.get].
  destruct Hin as [E|Hin].
  - injection E as -> ->. rewrite key_eqb_refl. reflexivity.
  - destruct (key_eqb_spec k k') as [->|_]; [|exact (IH Hnd' Hin)].
    exfalso. apply Hnotin. apply (in_map fst) in Hin. exact Hin.
Qed.

Lemma skipn_cons_nth (l : list value) :
  forall (i : nat) (x : value) (rest : list value),
    skipn i l = x :: rest ->
    (i < List.length l)%nat /\ nth i l VNone = x /\ skipn (S i) l = rest.
Proof.
  induction l as [|y l IH]; intros i x rest H.
  - destruct i; discriminate H.
  - destruct i as [|i].
    + cbn in H. injection H as -> ->. cbn. repeat split. lia.
    + cbn [skipn] in H. destruct (IH i x rest H) as [H1 [H2 H3]].
      cbn [List.length nth]. repeat split; [lia | exact H2 | exact H3].
Qed.

Lemma size_in_list (x : value) (l : list value) :
  In x l -> (size x < size (VList l))%nat.
Proof.
  cbn [size]. induction l as [|y l IH]; intros Hin; [contradiction|].
  cbn [fold_right]. destruct Hin as [->|Hin]; [lia|]. specialize (IH Hin). lia.
Qed.

Lemma size_in_dict (k : key) (x : value) (d : dict) :
  In (k, x) d -> (size x < size (VDict d))%nat.
Proof.
  cbn [size]. induction d as [|[k' y] d IH]; intros Hin; [contradiction|].
  cbn [fold_right]. destruct Hin as [E|Hin]; [injection E as -> ->; lia|].
  specialize (IH Hin). lia.
Qed.

Section ScanSelf.

Variable scan : value -> value -> string -> outcome (list string * value).
Variable d : dict.

Hypothesis Hnd : NoDup (Dict.keys d).

Hypothesis Htable :
  forall k tv full_key,
    In (k, VDict tv) d -> scan (VDict tv) (VDict tv) full_key = Ret ([], VDict tv).

Hypothesis Hitem :
  forall k items item full_key,
    In (k, VList items) d -> In (VDict item) items ->
    scan (VDict item) (VDict item) full_key = Ret ([], VDict item).

Lemma scan_items_self (k full_key : string) (items : list value) :
  In (KStr k, VList items) d ->
  forall (rest : list value) (i : nat),
    skipn i items = rest ->
    scan_items scan k full_key rest i (VDict d) = Ret ([], VDict d).
Proof.
  intros Hin. pose proof (get_of_in d _ _ Hnd Hin) as Hget.
  induction rest as [|item rest IH]; intros i Hskip; [reflexivity|].
  destruct (skipn_cons_nth items i item rest Hskip) as [Hlt [Hnth Hnext]].
  cbn [scan_items getitem]. rewrite Hget. cbn [bind py_len].
  destruct (Nat.leb_spec (List.length items) i) as [Hle|_]; [lia|].
  destruct item as [| | | | | |sub]; try exact (IH (S i) Hnext).
  cbn [getitem]. rewrite (position_in_range _ _ Hlt), Hnth. cbn [bind].
  assert (Hin_item : In (VDict sub) items) by (rewrite <- Hnth; apply nth_In; exact Hlt).
  rewrite (Hitem (KStr k) items sub full_key Hin Hin_item). cbn [bind fst snd].
  assert (Hsame : with_child (VList items) (KInt (Z.of_nat i)) (VDict sub) = VList items).
  { apply with_child_same. cbn [getitem].
    rewrite (position_in_range _ _ Hlt), Hnth. reflexivity. }
  assert (Hsame2 : with_child (VDict d) (KStr k) (VList items) = VDict d).
  { apply with_child_same. cbn [getitem]. rewrite Hget. reflexivity. }
  rewrite Hsame, Hsame2, (IH (S i) Hnext). reflexivity.
Qed.

Lemma scan_keys_self (prefix : string) (es : list (key * value)) :
  incl es d ->
  forallb is_name_key (Dict.keys es) = true ->
  scan_keys scan prefix es (VDict d) = Ret ([], VDict d).
Proof.
  induction es as [|[k0 tv] es IH]; intros Hincl Hnames; [reflexivity|].
  cbn [Dict.keys map fst forallb] in Hnames. apply andb_prop in Hnames.
  destruct Hnames as [Hk0 Hnames].
  destruct k0 as [k|n]; [|discriminate Hk0].
  assert (Hin : In (KStr k, tv) d) by (apply Hincl; left; reflexivity).
  assert (Hincl' : incl es d) by (intros x Hx; apply Hincl; right; exact Hx).
  pose proof (get_of_in d _ _ Hnd Hin) as Hget.
  specialize (IH Hincl' Hnames).
  cbn [scan_keys contains_key bind]. unfold Dict.has. rewrite Hget. cbn [negb].
  destruct tv as [| | | | |items|sub]; try exact IH.
  - rewrite (scan_items_self k _ items Hin items 0 eq_refl). cbn [bind fst snd].
    rewrite IH. reflexivity.
  - cbn [getitem]. rewrite Hget. cbn [bind].
    rewrite (Htable (KStr k) sub _ Hin). cbn [bind fst snd].
    rewrite with_child_same by (cbn [getitem]; rewrite Hget; reflexivity).
    rewrite IH. reflexivity.
Qed.

End ScanSelf.

Lemma scan_self (n : nat) :
  forall (t : dict) (prefix : string),
    (size (VDict t) < n)%nat ->
    tidy (VDict t) = true ->
    get_delete_keys (VDict t) (VDict t) prefix = Ret ([], VDict t).
Proof.
  induction n as [|n IH]; intros t prefix Hsize Htidy; [lia|].
  cbn [tidy] in Htidy. apply andb_prop in Htidy. destruct Htidy as [Htidy Hsub].
  apply andb_prop in Htidy. destruct Htidy as [Hnames Hdist].
  rewrite forallb_forall in Hsub. cbn [get_delete_keys].
  apply (scan_keys_self get_delete_keys t (distinct_NoDup _ Hdist)).
  - intros k tv full_key Hin. apply IH.
    + pose proof (size_in_dict _ _ _ Hin). lia.
    + exact (Hsub _ Hin).
  - intros k items item full_key Hin Hitem. apply IH.
    + pose proof (size_in_dict _ _ _ Hin). pose proof (size_in_list _ _ Hitem). lia.
    + pose proof (Hsub _ Hin) as Hl. cbn [tidy] in Hl. rewrite forallb_forall in Hl.
      exact (Hl _ Hitem).
  - apply incl_refl.
  - exact Hnames.
Qed.

(** X27. Scanning a theme against itself reports no key and leaves the
    theme as it is: nothing is appended to its lists, at any depth. *)
Theorem scan_of_the_template_itself (t : dict) (prefix : string) :
  tidy (VDict t) = true ->
  get_delete_keys (VDict t) (VDict t) prefix = Ret ([], VDict t).
Proof.
  intros H. apply (scan_self (S (size (VDict t)))); [lia | exact H].
Qed.

Lemma scan_of_the_template_itself_witness :
  get_delete_keys
    (VDict [(KStr "name", VStr "One");
            (KStr "style", VDict [(KStr "background", VStr "$bg");
                                  (KStr "players",
                                   VList [VDict [(KStr "cursor", VStr "$p1")];
                                          VDict [(KStr "cursor", VStr "$p2")]])])])
    (VDict [(KStr "name", VStr "One");
            (KStr "style", VDict [(KStr "background", VStr "$bg");
                                  (KStr "players",
                                   VList [VDict [(KStr "cursor", VStr "$p1")];
                                          VDict [(KStr "cursor", VStr "$p2")]])])])
    ""
  = Ret ([],
         VDict [(KStr "name", VStr "One");
                (KStr "style", VDict [(KStr "background", VStr "$bg");
                                      (KStr "players",
                                       VList [VDict [(KStr "cursor", VStr "$p1")];
                                              VDict [(KStr "cursor", VStr "$p2")]])])]).
Proof.
  apply (scan_of_the_template_itself
           [(KStr "name", VStr "One");
            (KStr "style", VDict [(KStr "background", VStr "$bg");
                                  (KStr "players",
                                   VList [VDict [(KStr "cursor", VStr "$p1")];
                                          VDict [(KStr "cursor", VStr "$p2")]])])] "").
  reflexivity.
Defined.

(** ** References under an alpha token *)

Lemma no_dots_no_alpha (s : string) : contains ".." s = false -> search_alpha s = None.
Proof.
  induction s as [|c s IH]; intros H; [reflexivity|].
  pose proof (contains_head _ _ H) as Hp. pose proof (IH (contains_tail _ _ _ H)) as Ht.
  assert (E : ALPHA_PATTERN (String c s) = None).
  { destruct s as [|q [|x [|y r]]]; try reflexivity.
    cbn [ALPHA_PATTERN]. rewrite prefix_two, prefix_char in Hp.
    rewrite (Ascii.eqb_sym c), (Ascii.eqb_sym q).
    destruct (Ascii.eqb "." c); [|reflexivity]. cbn [andb] in *. rewrite Hp. reflexivity. }
  change (search_alpha (String c s))
    with (match ALPHA_PATTERN (String c s) with
          | Some al => Some al
          | None => search_alpha s
          end).
  rewrite E. exact Ht.
Qed.

(** X28. A binding that refers to another binding is followed under an
    alpha token, and only there: [p..ab] resolves to the value at the end of
    the reference with [ab] appended, while [p] alone resolves to the text of
    the reference, dollar sign included. *)
Theorem reference_is_followed_under_alpha (a b : ascii) (fuel : nat) (p q s : string)
    (toml_data : value) :
  is_alnum a = true ->
  is_alnum b = true ->
  contains ".." p = false ->
  resolve_plain p toml_data = VStr (String "$" q) ->
  resolve_plain q toml_data = VStr s ->
  is_empty s = false ->
  startswith "$" s = false ->
  search_alpha s = None ->
  resolve_variable (S fuel) (p ++ ".." ++ String a (String b EmptyString)) toml_data false
  = Ret (VStr (s ++ String a (String b EmptyString))) /\
  resolve_variable (S fuel) p toml_data false = Ret (VStr (String "$" q)).
Proof.
  intros Ha Hb Hp Hres Hq Hne Hd Hsa. split.
  - rewrite (resolve_variable_alpha a b Ha Hb (S fuel) p toml_data Hp), Hres.
    cbn [follow_refs]. rewrite startswith_dollar. cbn [drop]. rewrite Hq.
    assert (Hf : follow_refs fuel toml_data (VStr s) = Ret (VStr s)).
    { destruct fuel; cbn [follow_refs]; rewrite Hd; reflexivity. }
    rewrite Hf. cbn [bind truthy]. rewrite Hne. cbn [negb]. rewrite Hsa. reflexivity.
  - unfold resolve_variable. rewrite (no_dots_no_alpha p Hp), Hres. reflexivity.
Qed.

Lemma reference_is_followed_under_alpha_witness :
  resolve_variable 1 ("border" ++ ".." ++ "80")
    (VDict [(KStr "accent", VStr "#ff0000"); (KStr "border", VStr "$accent")]) false
  = Ret (VStr ("#ff0000" ++ "80")) /\
  resolve_variable 1 "border"
    (VDict [(KStr "accent", VStr "#ff0000"); (KStr "border", VStr "$accent")]) false
  = Ret (VStr "$accent").
Proof.
  apply (reference_is_followed_under_alpha "8" "0" 0 "border" "accent" "#ff0000"
           (VDict [(KStr "accent", VStr "#ff0000"); (KStr "border", VStr "$accent")]));
    reflexivity.
Defined.

(** ** The order of application *)

Lemma has_set_other (d : dict) (k k' : key) (v : value) :
  k <> k' -> Dict.has (Dict.set d k' v) k = Dict.has d k.
Proof. intros H. unfold Dict.has. rewrite (get_set_other d k k' v H). reflexivity. Qed.

(** X29. The table [style-overrides] of a binding file is not applied:
    the block asks for the name [stlye-overrides].  A file with that table,
    without the misspelt name and without the five other override tables,
    leaves the processed theme as it is, whatever the table holds. *)
Theorem style_overrides_table_is_ignored (re_match : string -> string -> outcome bool)
    (fuel : nat) (theme : value) (d : dict) (table : value) :
  Forall (lacks d) other_override_tables ->
  lacks d "stlye-overrides" ->
  apply_all_overrides re_match fuel theme
    (VDict (Dict.set d (KStr "style-overrides") table))
  = Ret theme.
Proof.
  intros Hother Hfifth. unfold other_override_tables, lacks in *.
  repeat match goal with
         | H : Forall _ (_ :: _) |- _ => inversion H; subst; clear H
         end.
  unfold apply_all_overrides. cbn [contains_key].
  rewrite !has_set_other by discriminate.
  repeat match goal with
         | H : Dict.has d _ = false |- _ => rewrite H; clear H
         end.
  reflexivity.
Qed.

Lemma style_overrides_table_is_ignored_witness :
  apply_all_overrides no_re_match 1
    (VDict [(KStr "style", VDict [(KStr "background", VStr "#000000")])])
    (VDict (Dict.set [] (KStr "style-overrides")
              (VDict [(KStr "background", VStr "#ffffff")])))
  = Ret (VDict [(KStr "style", VDict [(KStr "background", VStr "#000000")])]).
Proof.
  apply (style_overrides_table_is_ignored no_re_match 1
           (VDict [(KStr "style", VDict [(KStr "background", VStr "#000000")])]) []
           (VDict [(KStr "background", VStr "#ffffff")])).
  - repeat constructor.
  - reflexivity.
Defined.

(** X30. A binding file that has the misspelt table [stlye-overrides] and
    not [style-overrides] stops the processing of a theme with a [style]
    table: the call reads the table under the right name and raises
    [KeyError]. *)
Theorem misspelt_table_alone_raises (re_match : string -> string -> outcome bool)
    (fuel : nat) (theme : dict) (style : value) (d : dict) :
  Forall (lacks d) ["overrides"; "overrides-regex"; "syntax-overrides";
                    "syntax-overrides-regex"; "style-overrides"] ->
  Dict.has d (KStr "stlye-overrides") = true ->
  Dict.get theme (KStr "style") = Some style ->
  apply_all_overrides re_match fuel (VDict theme) (VDict d) = Raise KeyError.
Proof.
  intros Hother Hfifth Hstyle. unfold lacks in *.
  repeat match goal with
         | H : Forall _ (_ :: _) |- _ => inversion H; subst; clear H
         end.
  unfold apply_all_overrides. cbn [contains_key].
  assert (Hget : Dict.get d (KStr "style-overrides") = None).
  { match goal with
    | H : Dict.has d (KStr "style-overrides") = false |- _ =>
        unfold Dict.has in H; destruct (Dict.get d (KStr "style-overrides"));
        [discriminate H | reflexivity]
    end. }
  repeat match goal with
         | H : Dict.has d _ = false |- _ => rewrite H; clear H
         end.
  cbn [bind]. rewrite Hfifth. cbn [bind getitem]. rewrite Hstyle, Hget. reflexivity.
Qed.

Lemma misspelt_table_alone_raises_witness :
  apply_all_overrides no_re_match 1
    (VDict [(KStr "style", VDict [(KStr "background", VStr "#000000")])])
    (VDict [(KStr "stlye-overrides", VDict [(KStr "background", VStr "#ffffff")])])
  = Raise KeyError.
Proof.
  apply (misspelt_table_alone_raises no_re_match 1
           [(KStr "style", VDict [(KStr "background", VStr "#000000")])]
           (VDict [(KStr "background", VStr "#000000")])
           [(KStr "stlye-overrides", VDict [(KStr "background", VStr "#ffffff")])]).
  - repeat constructor.
  - reflexivity.
  - reflexivity.
Defined.

(** ** The deletion-key scan: lists at every depth *)


Section ScanExact.

Variable scan : value -> value -> string -> outcome (list string * value).



End ScanExact.

Section ScanPlaces.

Variable scan : value -> value -> string -> outcome (list string * value).




End ScanPlaces.












